(** * Extrinsic-contact estimator of the insertion environment

    A shallow embedding of class [ExtrinsicContact] of
    [factory_env_insertion.py]: the rotation-invariant pose tracker
    ([estimate_pose], [estimate_pose_batch]), the rigid transformer
    ([apply_transform]), the contact scores ([get_extrinsic_contact]), the
    point-cloud merger ([merge_goal_pcl], [get_pcl]) and the life cycle of the
    cached socket state ([__init__], [reset_socket_pos]).

    Number model.  numpy's floating-point numbers are modelled by exact real
    numbers extended with one non-finite value [NaN]: rounding is not
    modelled, and the value an operation yields outside its domain (0/0,
    arccos outside [-1,1]) is.  The contact scores, which only need field
    operations and comparisons, are computed over the rationals so that they
    evaluate inside Rocq. *)

From Stdlib Require Import Reals Lra Lia List ZArith QArith Qround Qabs.
From Stdlib Require Import Permutation Bool RNsatz Psatz.
From Stdlib Require String Ascii.
Import ListNotations.

(* ================================================================== *)
(** * Numbers with a non-finite value *)
(* ================================================================== *)

Module Np.

Local Open Scope R_scope.

(** A numpy scalar: a finite real or the not-a-number value.  The model
    does not tell the infinities from NaN: every division by zero is [NaN]. *)
Inductive num : Type :=
| Fin (r : R)
| NaN.

Definition is_finite (a : num) : Prop :=
  match a with Fin _ => True | NaN => False end.

Definition lift1 (f : R -> R) (a : num) : num :=
  match a with Fin x => Fin (f x) | NaN => NaN end.

Definition lift2 (f : R -> R -> R) (a b : num) : num :=
  match a, b with Fin x, Fin y => Fin (f x y) | _, _ => NaN end.

Definition nadd : num -> num -> num := lift2 Rplus.
Definition nsub : num -> num -> num := lift2 Rminus.
Definition nmul : num -> num -> num := lift2 Rmult.
Definition nneg : num -> num := lift1 Ropp.
Definition nabs : num -> num := lift1 Rabs.
Definition nsin : num -> num := lift1 sin.
Definition ncos : num -> num := lift1 cos.
Definition nmax : num -> num -> num := lift2 Rmax.
Definition nmin : num -> num -> num := lift2 Rmin.

(** [a / b]: a zero divisor yields the non-finite value. *)
Definition ndiv (a b : num) : num :=
  match a, b with
  | Fin x, Fin y => if Req_dec_T y 0 then NaN else Fin (x / y)
  | _, _ => NaN
  end.

(** [np.sqrt]. *)
Definition nsqrt (a : num) : num :=
  match a with
  | Fin x => if Rlt_dec x 0 then NaN else Fin (sqrt x)
  | NaN => NaN
  end.

(** [np.arccos]: NaN outside [-1, 1]. *)
Definition narccos (a : num) : num :=
  match a with
  | Fin x =>
      if Rle_dec (-1) x then if Rle_dec x 1 then Fin (acos x) else NaN
      else NaN
  | NaN => NaN
  end.

(** Comparisons: every comparison with NaN is false. *)
Definition nleb (a b : num) : bool :=
  match a, b with
  | Fin x, Fin y => if Rle_dec x y then true else false
  | _, _ => false
  end.

Definition nltb (a b : num) : bool :=
  match a, b with
  | Fin x, Fin y => if Rlt_dec x y then true else false
  | _, _ => false
  end.

(** [np.clip(a, lo, hi)] is [minimum(maximum(a, lo), hi)]. *)
Definition clip (a lo hi : num) : num := nmin (nmax a lo) hi.

(** [np.isclose(a, b)] with numpy's defaults rtol = 1e-5 and atol = 1e-8:
    [|a - b| <= atol + rtol * |b|], false as soon as a NaN is involved.
    [np.allclose] of two scalars is the same test. *)
Definition rtol : R := 1 / 100000.
Definition atol : R := 1 / 100000000.

Definition isclose (a b : num) : bool :=
  nleb (nabs (nsub a b)) (nadd (Fin atol) (nmul (Fin rtol) (nabs b))).

Definition allclose (a b : num) : bool := isclose a b.

(** What [np.allclose(c, 1)] tests on a finite number [c]. *)
Definition close_to_one (c : R) : Prop :=
  Rabs (c - 1) <= atol + rtol * Rabs 1.

End Np.

Export Np.

Arguments ndiv : simpl never.
Arguments nsqrt : simpl never.
Arguments narccos : simpl never.
Arguments nleb : simpl never.
Arguments nltb : simpl never.

Declare Scope np_scope.
Delimit Scope np_scope with np.
Infix "+" := nadd : np_scope.
Infix "-" := nsub : np_scope.
Infix "*" := nmul : np_scope.
Infix "/" := ndiv : np_scope.

(* ================================================================== *)
(** * Vectors, matrices and poses *)
(* ================================================================== *)

Module Geom.

Local Open Scope np_scope.

(** A length-3 array and a 3x3 array (its three rows). *)
Definition vec3 : Type := (num * num * num)%type.
Definition mat3 : Type := (vec3 * vec3 * vec3)%type.

(** A 4x4 homogeneous transform, kept by the blocks the code slices it
    into: [T[:3, :3]], [T[:3, 3]] and the last row [T[3, :]]. *)
Record pose : Type := mkPose {
  rot : mat3;
  pos : vec3;
  last_row : num * num * num * num
}.

Definition zero3 : vec3 := (Fin 0, Fin 0, Fin 0).

Definition nan3 : vec3 := (NaN, NaN, NaN).
Definition nan_mat3 : mat3 := (nan3, nan3, nan3).

(** [np.eye(3)] and [np.eye(4)]. *)
Definition eye3 : mat3 :=
  ((Fin 1, Fin 0, Fin 0), (Fin 0, Fin 1, Fin 0), (Fin 0, Fin 0, Fin 1)).

Definition eye4 : pose :=
  mkPose eye3 zero3 (Fin 0, Fin 0, Fin 0, Fin 1).

(** [m[:, 2]] and the assignment [m[:, 2] = v]. *)
Definition col2 (m : mat3) : vec3 :=
  let '((_, _, a), (_, _, b), (_, _, c)) := m in (a, b, c).

Definition set_col2 (m : mat3) (v : vec3) : mat3 :=
  let '((a0, a1, _), (b0, b1, _), (c0, c1, _)) := m in
  let '(x, y, z) := v in
  ((a0, a1, x), (b0, b1, y), (c0, c1, z)).

(** [a @ b] of two vectors, [np.cross] and [np.linalg.norm]. *)
Definition dot (a b : vec3) : num :=
  let '(a0, a1, a2) := a in
  let '(b0, b1, b2) := b in
  a0 * b0 + a1 * b1 + a2 * b2.

Definition cross (a b : vec3) : vec3 :=
  let '(a0, a1, a2) := a in
  let '(b0, b1, b2) := b in
  (a1 * b2 - a2 * b1, a2 * b0 - a0 * b2, a0 * b1 - a1 * b0).

Definition norm (a : vec3) : num := nsqrt (dot a a).

(** A vector divided, or multiplied, by a scalar (broadcasting). *)
Definition vdiv (a : vec3) (s : num) : vec3 :=
  let '(x, y, z) := a in (x / s, y / s, z / s).

Definition vscale (s : num) (a : vec3) : vec3 :=
  let '(x, y, z) := a in (s * x, s * y, s * z).

(** A matrix applied to a vector, and [np.matmul] of two 3x3 arrays. *)
Definition mat_vec (m : mat3) (v : vec3) : vec3 :=
  let '(r0, r1, r2) := m in (dot r0 v, dot r1 v, dot r2 v).

Definition transpose3 (m : mat3) : mat3 :=
  let '((a0, a1, a2), (b0, b1, b2), (c0, c1, c2)) := m in
  ((a0, b0, c0), (a1, b1, c1), (a2, b2, c2)).

Definition matmul3 (a b : mat3) : mat3 :=
  let '(r0, r1, r2) := a in
  let '(k0, k1, k2) := transpose3 b in
  ((dot r0 k0, dot r0 k1, dot r0 k2),
   (dot r1 k0, dot r1 k1, dot r1 k2),
   (dot r2 k0, dot r2 k1, dot r2 k2)).

Definition finite3 (v : vec3) : Prop :=
  let '(x, y, z) := v in is_finite x /\ is_finite y /\ is_finite z.

Definition finite_mat3 (m : mat3) : Prop :=
  let '(r0, r1, r2) := m in finite3 r0 /\ finite3 r1 /\ finite3 r2.

(** A pose none of whose entries is NaN. *)
Definition nan_free (p : pose) : Prop :=
  finite_mat3 (rot p) /\ finite3 (pos p) /\
  let '(a, b, c, d) := last_row p in
  is_finite a /\ is_finite b /\ is_finite c /\ is_finite d.

(** ** SciPy's rotation-vector conversion

    [scipy.spatial.transform.Rotation] is a library, outside the repository.
    [from_rotvec] and [as_matrix] follow its algorithm: the rotation vector
    is turned into the quaternion (x, y, z, w) = (s * v, cos (angle / 2))
    with angle = |v| and s = sin (angle / 2) / angle, replaced for
    angle <= 1e-3 by the series 1/2 - angle^2/48 + angle^4/3840; the matrix
    is the usual quadratic form of the quaternion. *)

Definition quat : Type := (num * num * num * num)%type.

Definition from_rotvec (v : vec3) : quat :=
  let angle := norm v in
  let scale :=
    if nleb angle (Fin (1 / 1000)) then
      let angle2 := angle * angle in
      Fin (1 / 2) - angle2 / Fin 48 + angle2 * angle2 / Fin 3840
    else nsin (angle / Fin 2) / angle in
  let '(v0, v1, v2) := v in
  (scale * v0, scale * v1, scale * v2, ncos (angle / Fin 2)).

Definition as_matrix (q : quat) : mat3 :=
  let '(x, y, z, w) := q in
  let x2 := x * x in let y2 := y * y in
  let z2 := z * z in let w2 := w * w in
  let xy := x * y in let zw := z * w in
  let xz := x * z in let yw := y * w in
  let yz := y * z in let xw := x * w in
  ((x2 - y2 - z2 + w2, Fin 2 * (xy - zw), Fin 2 * (xz + yw)),
   (Fin 2 * (xy + zw), nneg x2 + y2 - z2 + w2, Fin 2 * (yz - xw)),
   (Fin 2 * (xz - yw), Fin 2 * (yz + xw), nneg x2 - y2 + z2 + w2)).

End Geom.

Export Geom.

(* ================================================================== *)
(** * PoseTracker: [estimate_pose] and [estimate_pose_batch] *)
(* ================================================================== *)

Module PoseTracker.

Local Open Scope np_scope.

(** [estimate_pose(curr_pose, prev_pose=None)].

    [curr_rot[:, 2]] is a view of the caller's array and [/=] writes through
    it, so the function is given the store explicitly: it returns the
    tracked pose together with the content of [curr_pose] after the call.
    [prev_pose] is an array of its own, not [curr_pose] itself. *)
Definition estimate_pose (curr_pose : pose) (prev_pose : option pose)
  : pose * pose :=
  let curr_pos := pos curr_pose in
  let curr_rot := rot curr_pose in
  let curr_z_dir := col2 curr_rot in
  (* curr_z_dir /= np.linalg.norm(curr_z_dir) *)
  let curr_z_dir := vdiv curr_z_dir (norm curr_z_dir) in
  let curr_pose' :=
    mkPose (set_col2 curr_rot curr_z_dir) (pos curr_pose)
           (last_row curr_pose) in
  let prev_pose := match prev_pose with None => eye4 | Some p => p end in
  let prev_rot := rot prev_pose in
  let prev_z_dir := col2 prev_rot in
  let cos_dist := dot prev_z_dir curr_z_dir in
  let delta_rot :=
    if negb (allclose cos_dist (Fin 1)) then
      let axis := cross prev_z_dir curr_z_dir in
      let axis := vdiv axis (norm axis) in
      let angle := narccos cos_dist in
      as_matrix (from_rotvec (vscale angle axis))
    else eye3 in
  let tf_curr_pose :=
    mkPose (matmul3 delta_rot prev_rot) curr_pos
           (Fin 0, Fin 0, Fin 0, Fin 1) in
  (tf_curr_pose, curr_pose').

(** The content of [curr_pose] once its third rotation column has been
    divided by its norm in place. *)
Definition normalized_z (curr_pose : pose) : pose :=
  let curr_z_dir := col2 (rot curr_pose) in
  mkPose (set_col2 (rot curr_pose) (vdiv curr_z_dir (norm curr_z_dir)))
         (pos curr_pose) (last_row curr_pose).

(** A binary operation applied entry by entry along the batch axis. *)
Fixpoint map2 {A B C : Type} (f : A -> B -> C) (l : list A) (k : list B)
  : list C :=
  match l, k with
  | a :: l', b :: k' => f a b :: map2 f l' k'
  | _, _ => []
  end.

(** The statements of [estimate_pose_batch], each acting on whole arrays
    whose first axis is the batch: the tracked poses and the content of
    [curr_poses] after the call. *)
Definition estimate_pose_arrays (curr_poses prev_poses : list pose)
  : list pose * list pose :=
  let curr_pos := map pos curr_poses in
  let curr_rots := map rot curr_poses in
  let curr_z_dirs := map col2 curr_rots in
  (* curr_z_dirs /= np.linalg.norm(curr_z_dirs, axis=1, keepdims=True) *)
  let curr_z_dirs := map (fun v => vdiv v (norm v)) curr_z_dirs in
  let curr_poses' :=
    map2 (fun c z => mkPose (set_col2 (rot c) z) (pos c) (last_row c))
         curr_poses curr_z_dirs in
  let prev_rots := map rot prev_poses in
  let prev_z_dirs := map col2 prev_rots in
  (* np.einsum('ij,ij->i', prev_z_dirs, curr_z_dirs) *)
  let cos_dists := map2 dot prev_z_dirs curr_z_dirs in
  let no_rotation_needed := map (fun c => isclose c (Fin 1)) cos_dists in
  let axes := map2 cross prev_z_dirs curr_z_dirs in
  let norms := map norm axes in
  (* np.where(norms > 0.0, axes / norms, np.zeros_like(axes)) *)
  let axes :=
    map2 (fun a n => if nltb (Fin 0) n then vdiv a n else zero3)
         axes norms in
  let angles :=
    map (fun c => narccos (clip c (Fin (-1)) (Fin 1))) cos_dists in
  let rotation_vectors := map2 vscale angles axes in
  let delta_rots :=
    map (fun v => as_matrix (from_rotvec v)) rotation_vectors in
  (* delta_rots[no_rotation_needed] = np.eye(3) *)
  let delta_rots :=
    map2 (fun (b : bool) m => if b then eye3 else m)
         no_rotation_needed delta_rots in
  let tf_rots := map2 matmul3 delta_rots prev_rots in
  let tf_curr_poses :=
    map2 (fun r p => mkPose r p (Fin 0, Fin 0, Fin 0, Fin 1))
         tf_rots curr_pos in
  (tf_curr_poses, curr_poses').

(** [estimate_pose_batch(curr_poses, prev_poses)] on two batches of the same
    size; [None] stands for a batch-size mismatch, which the model does not
    follow further.  As for [estimate_pose], the second component is the
    content of [curr_poses] after the call. *)
Definition estimate_pose_batch (curr_poses prev_poses : list pose)
  : option (list pose * list pose) :=
  if (length curr_poses =? length prev_poses)%nat
  then Some (estimate_pose_arrays curr_poses prev_poses)
  else None.

(** The same statements read on one row of the batch: what
    [estimate_pose_batch] computes for the pair of a current and a previous
    pose. *)
Definition estimate_pose_row (curr_pose prev_pose : pose) : pose * pose :=
  let curr_pos := pos curr_pose in
  let curr_rots := rot curr_pose in
  let curr_z_dirs := col2 curr_rots in
  let curr_z_dirs := vdiv curr_z_dirs (norm curr_z_dirs) in
  let curr_pose' :=
    mkPose (set_col2 curr_rots curr_z_dirs) (pos curr_pose)
           (last_row curr_pose) in
  let prev_rots := rot prev_pose in
  let prev_z_dirs := col2 prev_rots in
  let cos_dists := dot prev_z_dirs curr_z_dirs in
  let no_rotation_needed := isclose cos_dists (Fin 1) in
  let axes := cross prev_z_dirs curr_z_dirs in
  let norms := norm axes in
  let axes := if nltb (Fin 0) norms then vdiv axes norms else zero3 in
  let angles := narccos (clip cos_dists (Fin (-1)) (Fin 1)) in
  let rotation_vectors := vscale angles axes in
  let delta_rots := as_matrix (from_rotvec rotation_vectors) in
  let delta_rots := if no_rotation_needed then eye3 else delta_rots in
  let tf_curr_poses :=
    mkPose (matmul3 delta_rots prev_rots) curr_pos
           (Fin 0, Fin 0, Fin 0, Fin 1) in
  (tf_curr_poses, curr_pose').

End PoseTracker.

(* ================================================================== *)
(** * Real-valued arrays and their embedding *)
(* ================================================================== *)

Module RGeom.

Local Open Scope R_scope.

Definition Rvec3 : Type := (R * R * R)%type.
Definition Rmat3 : Type := (Rvec3 * Rvec3 * Rvec3)%type.
Definition Rvec4 : Type := (R * R * R * R)%type.

(** A real 4x4 array, by rows. *)
Definition Rmat4 : Type := (Rvec4 * Rvec4 * Rvec4 * Rvec4)%type.

Definition fin3 (v : Rvec3) : vec3 :=
  let '(x, y, z) := v in (Fin x, Fin y, Fin z).

Definition fin_mat3 (m : Rmat3) : mat3 :=
  let '(r0, r1, r2) := m in (fin3 r0, fin3 r1, fin3 r2).

(** The numpy array holding the real 4x4 matrix [m], sliced into blocks. *)
Definition pose_of_array (m : Rmat4) : pose :=
  let '((a0, a1, a2, a3), (b0, b1, b2, b3),
        (c0, c1, c2, c3), (d0, d1, d2, d3)) := m in
  mkPose (fin_mat3 ((a0, a1, a2), (b0, b1, b2), (c0, c1, c2)))
         (fin3 (a3, b3, c3))
         (Fin d0, Fin d1, Fin d2, Fin d3).

Definition rdot (a b : Rvec3) : R :=
  let '(a0, a1, a2) := a in
  let '(b0, b1, b2) := b in
  a0 * b0 + a1 * b1 + a2 * b2.

Definition rcross (a b : Rvec3) : Rvec3 :=
  let '(a0, a1, a2) := a in
  let '(b0, b1, b2) := b in
  (a1 * b2 - a2 * b1, a2 * b0 - a0 * b2, a0 * b1 - a1 * b0).

Definition rnorm (a : Rvec3) : R := sqrt (rdot a a).

Definition rscale (s : R) (a : Rvec3) : Rvec3 :=
  let '(x, y, z) := a in (s * x, s * y, s * z).

Definition rdivide (a : Rvec3) (s : R) : Rvec3 :=
  let '(x, y, z) := a in (x / s, y / s, z / s).

(** The unit vector along [a]. *)
Definition normalize (a : Rvec3) : Rvec3 := rdivide a (rnorm a).

Definition rcol2 (m : Rmat3) : Rvec3 :=
  let '((_, _, a), (_, _, b), (_, _, c)) := m in (a, b, c).

Definition rmat_vec (m : Rmat3) (v : Rvec3) : Rvec3 :=
  let '(r0, r1, r2) := m in (rdot r0 v, rdot r1 v, rdot r2 v).

Definition rtranspose3 (m : Rmat3) : Rmat3 :=
  let '((a0, a1, a2), (b0, b1, b2), (c0, c1, c2)) := m in
  ((a0, b0, c0), (a1, b1, c1), (a2, b2, c2)).

Definition rmatmul3 (a b : Rmat3) : Rmat3 :=
  let '(r0, r1, r2) := a in
  let '(k0, k1, k2) := rtranspose3 b in
  ((rdot r0 k0, rdot r0 k1, rdot r0 k2),
   (rdot r1 k0, rdot r1 k1, rdot r1 k2),
   (rdot r2 k0, rdot r2 k1, rdot r2 k2)).

Definition rdot4 (a b : Rvec4) : R :=
  let '(a0, a1, a2, a3) := a in
  let '(b0, b1, b2, b3) := b in
  a0 * b0 + a1 * b1 + a2 * b2 + a3 * b3.

Definition rtranspose4 (m : Rmat4) : Rmat4 :=
  let '((a0, a1, a2, a3), (b0, b1, b2, b3),
        (c0, c1, c2, c3), (d0, d1, d2, d3)) := m in
  ((a0, b0, c0, d0), (a1, b1, c1, d1), (a2, b2, c2, d2), (a3, b3, c3, d3)).

(** The product [a @ b] of two real 4x4 matrices. *)
Definition rmatmul4 (a b : Rmat4) : Rmat4 :=
  let '(r0, r1, r2, r3) := a in
  let '(k0, k1, k2, k3) := rtranspose4 b in
  ((rdot4 r0 k0, rdot4 r0 k1, rdot4 r0 k2, rdot4 r0 k3),
   (rdot4 r1 k0, rdot4 r1 k1, rdot4 r1 k2, rdot4 r1 k3),
   (rdot4 r2 k0, rdot4 r2 k1, rdot4 r2 k2, rdot4 r2 k3),
   (rdot4 r3 k0, rdot4 r3 k1, rdot4 r3 k2, rdot4 r3 k3)).

(** The homogeneous rotation by [theta] about the Z axis. *)
Definition rot_z (theta : R) : Rmat4 :=
  ((cos theta, - sin theta, 0, 0),
   (sin theta, cos theta, 0, 0),
   (0, 0, 1, 0),
   (0, 0, 0, 1)).

(** The rotation by [theta] about the unit axis [k] (Rodrigues' formula
    cos(theta) I + sin(theta) [k]x + (1 - cos(theta)) k k^T): the axis-angle
    rotation the specification speaks of. *)
Definition axis_angle_matrix (k : Rvec3) (theta : R) : Rmat3 :=
  let '(k0, k1, k2) := k in
  let c := cos theta in
  let s := sin theta in
  ((c + k0 * k0 * (1 - c),
    k0 * k1 * (1 - c) - k2 * s,
    k0 * k2 * (1 - c) + k1 * s),
   (k1 * k0 * (1 - c) + k2 * s,
    c + k1 * k1 * (1 - c),
    k1 * k2 * (1 - c) - k0 * s),
   (k2 * k0 * (1 - c) - k1 * s,
    k2 * k1 * (1 - c) + k0 * s,
    c + k2 * k2 * (1 - c))).

End RGeom.

Export RGeom.

(* ================================================================== *)
(** * What the specification says of the tracked pose *)
(* ================================================================== *)

Module TrackerSpec.

Local Open Scope R_scope.

(** The tracked pose [tf_curr_pose] as the specification describes it: its
    rotation block is [delta_rotation @ prev_rot] for a rotation that
    carries the previous Z axis onto the current Z axis, its position is
    the current position and its last row is [0, 0, 0, 1]. *)
Definition tracks_by_alignment (tf_curr_pose : pose) (prev_rot : Rmat3)
    (curr_z : Rvec3) (curr_pos : vec3) : Prop :=
  exists delta_rotation : Rmat3,
    rmat_vec delta_rotation (rcol2 prev_rot) = normalize curr_z /\
    tf_curr_pose =
      mkPose (fin_mat3 (rmatmul3 delta_rotation prev_rot)) curr_pos
             (Fin 0, Fin 0, Fin 0, Fin 1).

(** The cosine and sine of the tilt used by the near-parallel example:
    an angle of about two milliradians. *)
Definition tilt_cos : R := 999999 / 1000001.
Definition tilt_sin : R := 2000 / 1000001.

End TrackerSpec.

Export TrackerSpec.

(* ================================================================== *)
(** * RigidTransformer and pose conversion *)
(* ================================================================== *)

Module RigidTransformer.

Local Open Scope np_scope.

(** One pose applied to one point in homogeneous coordinates: the first
    three entries of [T @ (x, y, z, 1)]. *)
Definition transform_point (T : pose) (p : vec3) : vec3 :=
  let '((a0, a1, a2), (b0, b1, b2), (c0, c1, c2)) := rot T in
  let '(t0, t1, t2) := pos T in
  let '(x, y, z) := p in
  (a0 * x + a1 * y + a2 * z + t0 * Fin 1,
   b0 * x + b1 * y + b2 * z + t1 * Fin 1,
   c0 * x + c1 * y + c2 * z + t2 * Fin 1).

(** [apply_transform(poses, pc_vertices)]: an N x P x 3 array, row n holding
    the P points moved by pose n. *)
Definition apply_transform (poses : list pose) (pc_vertices : list vec3)
  : list (list vec3) :=
  map (fun T => map (transform_point T) pc_vertices) poses.

(** Test [a == 0.0] on a number. *)
Definition is_zero (a : num) : bool :=
  match a with
  | Fin x => if Req_dec_T x 0 then true else false
  | NaN => false
  end.

(** SciPy's [Rotation.from_quat]: the quaternion is normalised, and a
    quaternion of norm zero is refused with an exception ([None]). *)
Definition from_quat (q : quat) : option quat :=
  let '(x, y, z, w) := q in
  let n := nsqrt (x * x + y * y + z * z + w * w) in
  if is_zero n then None else Some (x / n, y / n, z / n, w / n).

(** A row [x, y, z, qx, qy, qz, qw] of a pose batch. *)
Definition xyzquat : Type := (vec3 * quat)%type.

Definition xyzquat_to_tf_row (position_quat : xyzquat) : option pose :=
  let '(p, q) := position_quat in
  match from_quat q with
  | Some q' => Some (mkPose (as_matrix q') p (Fin 0, Fin 0, Fin 0, Fin 1))
  | None => None
  end.

(** [_xyzquat_to_tf_numpy] on an N x 7 batch, followed by the callers'
    [T[None, ...]] for a batch of one, which undoes [squeeze]. *)
Fixpoint _xyzquat_to_tf_numpy (position_quat : list xyzquat)
  : option (list pose) :=
  match position_quat with
  | [] => Some []
  | r :: rs =>
      match xyzquat_to_tf_row r, _xyzquat_to_tf_numpy rs with
      | Some T, Some Ts => Some (T :: Ts)
      | _, _ => None
      end
  end.

(** A pose row of finite numbers whose quaternion is not zero. *)
Definition valid_row (r : xyzquat) : Prop :=
  exists (p : Rvec3) (x y z w : R),
    r = (fin3 p, (Fin x, Fin y, Fin z, Fin w)) /\
    (x * x + y * y + z * z + w * w <> 0)%R.

End RigidTransformer.

Export RigidTransformer.

(* ================================================================== *)
(** * Meshes, surface samples and the estimator's state *)
(* ================================================================== *)

Module Estimator.

Local Open Scope np_scope.

(** A triangle mesh: vertex positions and triangles as vertex indices. *)
Record Mesh : Type := mkMesh {
  vertices : list vec3;
  faces : list (nat * nat * nat)
}.

(** [mesh.apply_scale(s)] and [mesh.apply_transform(T)]. *)
Definition apply_scale (m : Mesh) (s : num) : Mesh :=
  mkMesh (map (vscale s) (vertices m)) (faces m).

Definition mesh_apply_transform (m : Mesh) (T : pose) : Mesh :=
  mkMesh (map (transform_point T) (vertices m)) (faces m).

(** One random draw of the sampler: a triangle and two barycentric
    weights. *)
Definition Draw : Type := (nat * num * num)%type.

Definition point_on_face (m : Mesh) (d : Draw) : vec3 :=
  let '(f, u, v) := d in
  let '(i, j, k) := nth f (faces m) (0, 0, 0)%nat in
  let '(a0, a1, a2) := nth i (vertices m) zero3 in
  let '(b0, b1, b2) := nth j (vertices m) zero3 in
  let '(c0, c1, c2) := nth k (vertices m) zero3 in
  (a0 + u * (b0 - a0) + v * (c0 - a0),
   a1 + u * (b1 - a1) + v * (c1 - a1),
   a2 + u * (b2 - a2) + v * (c2 - a2)).

(** Modelled from the spec: MeshSampler's [sample_surface].  The code calls
    [trimesh.sample.sample_surface_even], a library function that is not
    part of the sources.  Section 4.1: the sampler "draws count points
    approximately evenly distributed by triangle area (area-weighted
    sampling), returning exactly count points", without a fixed seed.  The
    random source [rng] supplies the i-th draw; how the draws are distributed
    over the triangles is a property of that source. *)
Definition sample_surface (m : Mesh) (count : nat) (rng : nat -> Draw)
  : list vec3 :=
  map (fun i => point_on_face m (rng i)) (seq 0 count).

(** The attributes of an [ExtrinsicContact] object.  [socket] is the
    raycasting scene, given by the mesh whose triangles were added to it; it
    is absent until it is built. *)
Record ExtrinsicContact : Type := mkEC {
  calc_contact : bool;
  socket_trimesh : Mesh;
  reset_socket_trimesh : Mesh;
  socket_pos : vec3;
  socket_pcl : list vec3;
  socket_pc : list vec3;
  socket : option Mesh;
  object_trimesh : Mesh;
  pointcloud_obj : list vec3;
  object_pc : list vec3;
  n_points : nat;
  gt_extrinsic_contact : list (list Q);
  first_init : bool;
  num_envs : nat;
  plug_pose_no_rot : list pose
}.

(** [ExtrinsicContact.__init__].  [mesh_obj] and [mesh_socket] are the
    meshes [trimesh.load] returns; [rng_socket] and [rng_obj] are the random
    sources of the two sampling calls. *)
Definition __init__ (mesh_obj mesh_socket : Mesh)
    (obj_scale socket_scale : num)
    (socket_pos : vec3) (num_envs num_points : nat) (calc_contact : bool)
    (rng_socket rng_obj : nat -> Draw) : ExtrinsicContact :=
  let socket_trimesh := mesh_socket in
  let reset_socket_trimesh := socket_trimesh in          (* .copy() *)
  let socket_trimesh := apply_scale socket_trimesh socket_scale in
  let socket_pcl := sample_surface socket_trimesh num_points rng_socket in
  let socket_pc := socket_pcl in                         (* .copy() *)
  let socket := if calc_contact then Some socket_trimesh else None in
  let object_trimesh := mesh_obj in
  let object_trimesh := apply_scale object_trimesh obj_scale in
  let pointcloud_obj := sample_surface object_trimesh num_points rng_obj in
  let object_pc := pointcloud_obj in                     (* .copy() *)
  let n_points := num_points in
  mkEC calc_contact socket_trimesh reset_socket_trimesh socket_pos
       socket_pcl socket_pc socket object_trimesh pointcloud_obj object_pc
       n_points
       (repeat (repeat 0%Q n_points) num_envs)
       true num_envs
       (repeat eye4 num_envs).

(** [reset_socket_pos(socket_pos)]. *)
Definition reset_socket_pos (self : ExtrinsicContact) (new_socket_pos : vec3)
    (rng : nat -> Draw) : ExtrinsicContact :=
  let socket_trimesh := reset_socket_trimesh self in     (* .copy() *)
  let socket_trimesh := apply_scale socket_trimesh (Fin 1) in
  let T := mkPose eye3 new_socket_pos (Fin 0, Fin 0, Fin 0, Fin 1) in
  let socket_trimesh := mesh_apply_transform socket_trimesh T in
  let socket := Some socket_trimesh in
  let socket_pcl := sample_surface socket_trimesh (n_points self) rng in
  mkEC (calc_contact self) socket_trimesh (reset_socket_trimesh self)
       new_socket_pos socket_pcl (socket_pc self) socket
       (object_trimesh self) (pointcloud_obj self) (object_pc self)
       (n_points self) (gt_extrinsic_contact self) (first_init self)
       (num_envs self)
       (repeat eye4 (num_envs self)).

(** [reset_extrinsic_contact()]: the accumulator is zeroed in place.  The
    step counter the method also clears is read by none of the modelled
    operations and is left out of the state. *)
Definition reset_extrinsic_contact (self : ExtrinsicContact)
  : ExtrinsicContact :=
  mkEC (calc_contact self) (socket_trimesh self) (reset_socket_trimesh self)
       (socket_pos self) (socket_pcl self) (socket_pc self) (socket self)
       (object_trimesh self) (pointcloud_obj self) (object_pc self)
       (n_points self)
       (map (map (fun x => (x * 0)%Q)) (gt_extrinsic_contact self))
       (first_init self) (num_envs self) (plug_pose_no_rot self).

(** What a query called with [display=True] leaves behind: the axes exist
    and [first_init] is cleared. *)
Definition displayed (self : ExtrinsicContact) : ExtrinsicContact :=
  mkEC (calc_contact self) (socket_trimesh self) (reset_socket_trimesh self)
       (socket_pos self) (socket_pcl self) (socket_pc self) (socket self)
       (object_trimesh self) (pointcloud_obj self) (object_pc self)
       (n_points self) (gt_extrinsic_contact self) false (num_envs self)
       (plug_pose_no_rot self).

(** The calls that change an estimator after its construction. *)
Inductive call : Type :=
| ResetSocketPos (new_socket_pos : vec3) (rng : nat -> Draw)
| ResetExtrinsicContact
| Displayed.

Definition step_call (self : ExtrinsicContact) (c : call)
  : ExtrinsicContact :=
  match c with
  | ResetSocketPos p rng => reset_socket_pos self p rng
  | ResetExtrinsicContact => reset_extrinsic_contact self
  | Displayed => displayed self
  end.

(** The life of an estimator: the state after a sequence of calls. *)
Definition lifetime (self : ExtrinsicContact) (calls : list call)
  : ExtrinsicContact :=
  fold_left step_call calls self.

(** The sizes an estimator built for [num_points] sample points keeps. *)
Definition sized (num_points : nat) (self : ExtrinsicContact) : Prop :=
  n_points self = num_points /\
  length (socket_pcl self) = num_points /\
  length (socket_pc self) = num_points /\
  length (pointcloud_obj self) = num_points /\
  length (object_pc self) = num_points.

(** A one-triangle mesh and a random source that always draws its first
    vertex: the smallest estimator to run the operations on. *)
Definition triangle : Mesh :=
  mkMesh [(Fin 0, Fin 0, Fin 0); (Fin 1, Fin 0, Fin 0); (Fin 0, Fin 1, Fin 0)]
         [(0, 1, 2)%nat].

Definition first_vertex : nat -> Draw := fun _ => (O, Fin 0, Fin 0).

(** The same source drawing the second vertex. *)
Definition second_vertex : nat -> Draw := fun _ => (O, Fin 1, Fin 0).

Definition small_estimator : ExtrinsicContact :=
  __init__ triangle triangle (Fin 1) (Fin 1) zero3 1 2 true
       first_vertex first_vertex.

(** The pose row of the identity: position 0 and quaternion (0, 0, 0, 1). *)
Definition identity_row : xyzquat :=
  (zero3, (Fin 0, Fin 0, Fin 0, Fin 1)).

End Estimator.

Export Estimator.

(* ================================================================== *)
(** * ContactEstimator: [get_extrinsic_contact] *)
(* ================================================================== *)

Module ContactScore.

Local Open Scope Q_scope.

(** Comparisons of the scores. *)
Definition Qltb (a b : Q) : bool := negb (Qle_bool b a).

(** [np.clip(x, lo, hi)], that is [minimum(maximum(x, lo), hi)]. *)
Definition qmaximum (a b : Q) : Q := if Qle_bool b a then a else b.
Definition qminimum (a b : Q) : Q := if Qle_bool a b then a else b.
Definition qclip (x lo hi : Q) : Q := qminimum (qmaximum x lo) hi.

(** The score of every queried distance before the dropout, statement by
    statement:
    [d[np.where(d > threshold)] = threshold], [d = np.clip(d, 0, threshold)],
    [d = 1 - d / threshold], [d = np.clip(d, 0, 1)], [d[d > 0.1] = 1]. *)
Definition score_distances (di : list Q) (threshold : Q) : list Q :=
  let d := di in
  let d := map (fun x => if Qltb threshold x then threshold else x) d in
  let d := map (fun x => qclip x 0 threshold) d in
  let d := map (fun x => 1 - x / threshold) d in
  let d := map (fun x => qclip x 0 1) d in
  let d := map (fun x => if Qltb (1 # 10) x then 1 else x) d in
  d.

(** The score the specification gives a distance [d] under the threshold
    [t]: [clip(1 - clip(d, 0, t) / t, 0, 1)], snapped to 1 above 0.1. *)
Definition spec_score (t d : Q) : Q :=
  let s := qclip (1 - qclip d 0 t / t) 0 1 in
  if Qltb (1 # 10) s then 1 else s.

(** [np.where(d == 1.0)[0]]: the positions holding exactly 1. *)
Definition where_one (d : list Q) : list nat :=
  filter (fun i => Qeq_bool (nth i d 0) 1) (seq 0 (length d)).

(** [d[indices].sum()]. *)
Definition sum_at (d : list Q) (indices : list nat) : Q :=
  fold_left Qplus (map (fun i => nth i d 0) indices) 0.

(** Python's [int(x)]: truncation towards zero. *)
Definition py_int (x : Q) : Z := Z.quot (Qnum x) (Zpos (Qden x)).

(** The slice [l[:n]], where a negative [n] counts from the end. *)
Definition py_prefix {A : Type} (l : list A) (n : Z) : list A :=
  if (n <? 0)%Z then firstn (length l - Z.to_nat (- n)) l
  else firstn (Z.to_nat n) l.

(** [d[i] = v] and the fancy-index assignment [d[indices] = v]. *)
Fixpoint set_nth (i : nat) (v : Q) (d : list Q) : list Q :=
  match d, i with
  | [], _ => []
  | _ :: t, O => v :: t
  | h :: t, S j => h :: set_nth j v t
  end.

Definition set_all (indices : list nat) (v : Q) (d : list Q) : list Q :=
  fold_left (fun acc i => set_nth i v acc) indices d.

(** The dropout.  [shuffle] is what [np.random.shuffle] makes of the index
    array and [u] the value [np.random.uniform(0.0, 0.1)] returns. *)
Definition dropout (d : list Q) (shuffle : list nat -> list nat) (u : Q)
  : list Q :=
  let indices := where_one d in
  if (0 <? length indices)%nat then
    let indices := shuffle indices in
    let num_idx := py_int (sum_at d indices * u) in
    let indices := py_prefix indices num_idx in
    set_all indices 0 d
  else d.

(** The positions the dropout zeroed: they held 1 in [d] and hold 0 in
    [d']. *)
Definition zeroed (d d' : list Q) : list nat :=
  filter (fun i => Qeq_bool (nth i d 0) 1 && Qeq_bool (nth i d' 0) 0)
         (seq 0 (length d)).

(** [tensor.view(-1, n)]: rows of [n] entries; an error when the entries do
    not fill whole rows. *)
Definition view_rows {A : Type} (l : list A) (n : nat)
  : option (list (list A)) :=
  match n with
  | O => None
  | S _ =>
      if (length l mod n =? 0)%nat then
        Some (map (fun r => firstn n (skipn (r * n) l))
                  (seq 0 (length l / n)))
      else None
  end.

Section Query.

(** Open3D's [RaycastingScene.compute_distance]: the distance from a point
    to the triangles of the scene, a library function.  The distances it
    reports are taken to be finite. *)
Variable compute_distance : Mesh -> vec3 -> Q.

(** [get_extrinsic_contact(obj_pos, obj_quat, socket_pos, socket_quat,
    plug_scale, threshold)], without the display.  [object_poses] and
    [socket_poses] are the concatenated rows [torch.cat((pos, quat), dim=1)].
    [None] is an exception: a quaternion of norm zero, the scene missing, or
    a result that does not fill rows of [n_points]. *)
Definition get_extrinsic_contact (self : ExtrinsicContact)
    (object_poses socket_poses : list xyzquat) (threshold : Q)
    (shuffle : list nat -> list nat) (u : Q) : option (list (list Q)) :=
  match _xyzquat_to_tf_numpy object_poses with
  | None => None
  | Some object_poses =>
  match _xyzquat_to_tf_numpy socket_poses with
  | None => None
  | Some socket_poses =>
  let query_points := apply_transform object_poses (object_pc self) in
  match socket self with
  | None => None
  | Some scene =>
  let di := map (map (compute_distance scene)) query_points in
  let d := concat di in                                   (* flatten() *)
  let d := score_distances d threshold in
  let d := dropout d shuffle u in
  view_rows d (n_points self)
  end end end.

End Query.

End ContactScore.

Export ContactScore.

(* ================================================================== *)
(** * PointCloudMerger: [merge_goal_pcl], [get_goal_pcl], [get_pcl] *)
(* ================================================================== *)

Module PointCloudMerger.

Local Open Scope np_scope.

(** [cloud[:, indices, :]] on one row of a cloud. *)
Definition take_points (indices : list nat) (row : list vec3) : list vec3 :=
  map (fun i => nth i row zero3) indices.

(** [flatten(start_dim=1)] on one row: the coordinates in sequence. *)
Definition flatten_points (row : list vec3) : list num :=
  flat_map (fun p => let '(x, y, z) := p in [x; y; z]) row.

(** [tensor.size(1)] of an N x P x 3 cloud. *)
Definition size1 (cloud : list (list vec3)) : nat :=
  match cloud with
  | [] => O
  | row :: _ => length row
  end.

(** The loop of [merge_goal_pcl] and [get_goal_pcl]: instance i gets the
    object sample scaled by [plug_scale[i]] and moved by [socket_poses[i]];
    reading a pose that is not there is an exception. *)
Fixpoint scaled_goal_points (object_pc_vertices : list vec3)
    (socket_poses : list pose) (plug_scale : list num)
  : option (list (list vec3)) :=
  match plug_scale with
  | [] => Some []
  | s :: ss =>
      match socket_poses with
      | [] => None
      | T :: Ts =>
          let scaled_pc_vertices := map (vscale s) object_pc_vertices in
          let transformed_pc :=
            map (transform_point T) scaled_pc_vertices in
          match scaled_goal_points object_pc_vertices Ts ss with
          | Some rest => Some (transformed_pc :: rest)
          | None => None
          end
      end
  end.

(** [torch.cat([a, b], dim=1)]: the rows are joined pairwise, and batches of
    different sizes are an exception. *)
Fixpoint cat_dim1 (a b : list (list vec3)) : option (list (list vec3)) :=
  match a, b with
  | [], [] => Some []
  | x :: xs, y :: ys =>
      match cat_dim1 xs ys with
      | Some rest => Some ((x ++ y) :: rest)
      | None => None
      end
  | _, _ => None
  end.

(** The statements [merge_goal_pcl] and [get_goal_pcl] share: the socket
    poses are converted, the loop runs, and [np.stack] joins its results,
    which is an exception when there is none. *)
Definition goal_points (self : ExtrinsicContact)
    (socket_poses : list xyzquat) (plug_scale : list num)
  : option (list (list vec3)) :=
  match _xyzquat_to_tf_numpy socket_poses with
  | None => None
  | Some socket_poses =>
      let object_pc_vertices := object_pc self in
      match scaled_goal_points object_pc_vertices socket_poses plug_scale with
      | Some [] => None
      | r => r
      end
  end.

(** [get_goal_pcl(socket_pos, socket_quat, plug_scale)]. *)
Definition get_goal_pcl (self : ExtrinsicContact)
    (socket_poses : list xyzquat) (plug_scale : list num)
  : option (list (list vec3)) :=
  goal_points self socket_poses plug_scale.

(** The points [merge_goal_pcl] keeps, before they are flattened.
    [randperm n] is what [torch.randperm(n)] returns. *)
Definition merge_goal_points (self : ExtrinsicContact)
    (pcl : list (list vec3)) (socket_poses : list xyzquat)
    (plug_scale : list num) (randperm : nat -> list nat)
  : option (list (list vec3)) :=
  match goal_points self socket_poses plug_scale with
  | None => None
  | Some query_points_plug_goal =>
  match cat_dim1 pcl query_points_plug_goal with
  | None => None
  | Some merged_point_cloud =>
      let sampled_indices :=
        firstn (size1 pcl) (randperm (size1 merged_point_cloud)) in
      Some (map (take_points sampled_indices) merged_point_cloud)
  end end.

(** [merge_goal_pcl(pcl, socket_pos, socket_quat, plug_scale)]. *)
Definition merge_goal_pcl (self : ExtrinsicContact)
    (pcl : list (list vec3)) (socket_poses : list xyzquat)
    (plug_scale : list num) (randperm : nat -> list nat)
  : option (list (list num)) :=
  match merge_goal_points self pcl socket_poses plug_scale randperm with
  | Some sampled_point_cloud => Some (map flatten_points sampled_point_cloud)
  | None => None
  end.

(** [np.concatenate([a, b, c], axis=1)]. *)
Definition concatenate3 (a b c : list (list vec3))
  : option (list (list vec3)) :=
  match cat_dim1 a b with
  | Some ab => cat_dim1 ab c
  | None => None
  end.

(** [get_pcl(obj_pos, obj_quat, socket_pos, socket_quat)], without the
    display.  [choice n k] is what [np.random.choice(n, k, replace=False)]
    returns. *)
Definition get_pcl (self : ExtrinsicContact)
    (object_poses socket_poses : list xyzquat)
    (choice : nat -> nat -> list nat) : option (list (list num)) :=
  match _xyzquat_to_tf_numpy object_poses with
  | None => None
  | Some object_poses =>
  match _xyzquat_to_tf_numpy socket_poses with
  | None => None
  | Some socket_poses =>
  let query_points_plug := apply_transform object_poses (object_pc self) in
  let query_points_plug_goal :=
    apply_transform socket_poses (object_pc self) in
  let query_points_socket :=
    apply_transform socket_poses (socket_pc self) in
  match concatenate3 query_points_plug query_points_plug_goal
                     query_points_socket with
  | None => None
  | Some merged_point_cloud =>
      let num_points := length (object_pc self) in
      let sampled_indices := choice (size1 merged_point_cloud) num_points in
      Some (map (fun row => flatten_points (take_points sampled_indices row))
                merged_point_cloud)
  end end end.

(** What claim C8 says of the state after a reposition drawn with [rng]:
    the scene, the surface sample and the cached socket cloud all come from
    the newly positioned mesh. *)
Definition rebuilt_from_new_mesh (self : ExtrinsicContact)
    (rng : nat -> Draw) : Prop :=
  socket self = Some (socket_trimesh self) /\
  socket_pcl self = sample_surface (socket_trimesh self) (n_points self) rng /\
  socket_pc self = socket_pcl self.

(** The pure translation [reset_socket_pos] builds. *)
Definition translation (p : vec3) : pose :=
  mkPose eye3 p (Fin 0, Fin 0, Fin 0, Fin 1).

End PointCloudMerger.

Export PointCloudMerger.

(* ================================================================== *)
(** * Rigid motions: what the converted poses are *)
(* ================================================================== *)

Module RigidMotion.

Local Open Scope R_scope.

Definition fin4 (q : Rvec4) : quat :=
  let '(x, y, z, w) := q in (Fin x, Fin y, Fin z, Fin w).

(** The row [x, y, z, qx, qy, qz, qw] holding the real position [p] and the
    real quaternion [q]. *)
Definition fin_row (r : Rvec3 * Rvec4) : xyzquat :=
  (fin3 (fst r), fin4 (snd r)).

Definition quat_sq (q : Rvec4) : R :=
  let '(x, y, z, w) := q in x * x + y * y + z * z + w * w.

Definition rscale4 (k : R) (q : Rvec4) : Rvec4 :=
  let '(x, y, z, w) := q in (k * x, k * y, k * z, k * w).

(** The rotation matrix of the quaternion [q / |q|], written over the
    common denominator [|q|^2]. *)
Definition quat_rotation (q : Rvec4) : Rmat3 :=
  let '(x, y, z, w) := q in
  let s := x * x + y * y + z * z + w * w in
  (((x * x - y * y - z * z + w * w) / s,
    2 * (x * y - z * w) / s,
    2 * (x * z + y * w) / s),
   (2 * (x * y + z * w) / s,
    (- (x * x) + y * y - z * z + w * w) / s,
    2 * (y * z - x * w) / s),
   (2 * (x * z - y * w) / s,
    2 * (y * z + x * w) / s,
    (- (x * x) - y * y + z * z + w * w) / s)).

Definition ridentity3 : Rmat3 := ((1, 0, 0), (0, 1, 0), (0, 0, 1)).

(** A matrix whose columns are orthonormal, and the determinant. *)
Definition orthonormal (m : Rmat3) : Prop :=
  rmatmul3 (rtranspose3 m) m = ridentity3.

Definition rdet3 (m : Rmat3) : R :=
  let '((a0, a1, a2), (b0, b1, b2), (c0, c1, c2)) := m in
  a0 * (b1 * c2 - b2 * c1) - a1 * (b0 * c2 - b2 * c0)
  + a2 * (b0 * c1 - b1 * c0).

Definition rsub3 (a b : Rvec3) : Rvec3 :=
  let '(a0, a1, a2) := a in
  let '(b0, b1, b2) := b in
  (a0 - b0, a1 - b1, a2 - b2).

Definition radd3 (a b : Rvec3) : Rvec3 :=
  let '(a0, a1, a2) := a in
  let '(b0, b1, b2) := b in
  (a0 + b0, a1 + b1, a2 + b2).

(** The pose the conversion gives the row [(p, q)]. *)
Definition rigid_pose (r : Rvec3 * Rvec4) : pose :=
  mkPose (fin_mat3 (quat_rotation (snd r))) (fin3 (fst r))
         (Fin 0, Fin 0, Fin 0, Fin 1).

(** The point [R(q) a + p]: where the row [(p, q)] moves the point [a]. *)
Definition rigid_move (r : Rvec3 * Rvec4) (a : Rvec3) : Rvec3 :=
  radd3 (rmat_vec (quat_rotation (snd r)) a) (fst r).

(** The Euclidean distance of two points. *)
Definition rdist (a b : Rvec3) : R := rnorm (rsub3 a b).

(** A real 4x4 array whose last row is [0, 0, 0, 1]. *)
Definition homogeneous (m : Rmat4) : Prop :=
  let '(_, _, _, d) := m in d = (0, 0, 0, 1).

End RigidMotion.

Export RigidMotion.

(* ================================================================== *)
(** * Conditions on the poses given to the tracker *)
(* ================================================================== *)

Module TrackerConditions.

Local Open Scope R_scope.

(** A current pose whose third rotation column is finite and not zero. *)
Definition finite_z (curr_pose : pose) : Prop :=
  exists z : Rvec3, col2 (rot curr_pose) = fin3 z /\ z <> (0, 0, 0).

(** A pose whose rotation block is a real matrix with orthonormal
    columns. *)
Definition rotation_block (T : pose) : Prop :=
  exists M : Rmat3, rot T = fin_mat3 M /\ orthonormal M.

(** The pairs of a current and a previous pose outside the degenerate
    cases: the cosine of the two Z axes is within the tolerance of 1, or it
    lies in [-1, 1] and the two axes are not collinear. *)
Definition well_conditioned (curr_pose prev_pose : pose) : Prop :=
  exists z a : Rvec3,
    col2 (rot curr_pose) = fin3 z /\ z <> (0, 0, 0) /\
    col2 (rot prev_pose) = fin3 a /\
    (close_to_one (rdot a (normalize z)) \/
     (-1 <= rdot a (normalize z) <= 1 /\
      rcross a (normalize z) <> (0, 0, 0))).

End TrackerConditions.

Export TrackerConditions.

(* ================================================================== *)
(** * The calls of a lifetime that reposition the socket *)
(* ================================================================== *)

Module Repositions.

(** The position given to the last [reset_socket_pos] of a sequence of
    calls, if there is one. *)
Definition last_reset (calls : list call) : option vec3 :=
  fold_left (fun acc c =>
               match c with
               | ResetSocketPos p _ => Some p
               | _ => acc
               end) calls None.

End Repositions.

Export Repositions.

(* ================================================================== *)
(** * Random index draws *)
(* ================================================================== *)

Module IndexDraws.

Local Open Scope nat_scope.

(** What [np.random.choice(n, k, replace=False)] guarantees of its result
    when [k <= n]: [k] pairwise distinct indices below [n]. *)
Definition draws_without_replacement (choice : nat -> nat -> list nat)
  : Prop :=
  forall n k, k <= n ->
    length (choice n k) = k /\ NoDup (choice n k) /\
    Forall (fun i => i < n) (choice n k).

End IndexDraws.

Export IndexDraws.

(* ================================================================== *)
(** * FactoryEnvInsertionTactile: recording of frames *)
(* ================================================================== *)

Module Recording.

Section Frames.

(** A rendered camera image and a recorded action vector: values the
    simulator hands over, of no further structure here. *)
Variables Image Action : Type.

(** The attributes of the environment that the recording methods read and
    write. *)
Record Recorder : Type := mkRecorder {
  video_frames : list Image;
  ft_frames : list Action;
  record_now : bool;
  record_now_ft : bool;
  complete_video_frames : option (list Image);
  complete_ft_frames : option (list Action)
}.

(** What [FactoryEnvInsertionTactile.__init__] assigns to them. *)
Definition env__init__ : Recorder :=
  mkRecorder [] [] false false None None.

Definition start_recording (self : Recorder) : Recorder :=
  mkRecorder (video_frames self) (ft_frames self) true (record_now_ft self)
             None (complete_ft_frames self).

Definition start_recording_ft (self : Recorder) : Recorder :=
  mkRecorder (video_frames self) (ft_frames self) (record_now self) true
             (complete_video_frames self) None.

Definition pause_recording (self : Recorder) : Recorder :=
  mkRecorder [] (ft_frames self) false (record_now_ft self)
             (Some []) (complete_ft_frames self).

Definition pause_recording_ft (self : Recorder) : Recorder :=
  mkRecorder (video_frames self) [] (record_now self) false
             (complete_video_frames self) (Some []).

Definition get_complete_frames (self : Recorder) : list Image :=
  match complete_video_frames self with
  | None => []
  | Some frames => frames
  end.

Definition get_ft_frames (self : Recorder) : list Action :=
  match complete_ft_frames self with
  | None => []
  | Some frames => frames
  end.

(** [x is not None and len(x) == 0]. *)
Definition present_and_empty {A : Type} (x : option (list A)) : bool :=
  match x with
  | None => false
  | Some l => (length l =? 0)%nat
  end.

(** [_render_headless()].  [video_frame] is the image the method assembles
    from the cameras of the simulator and [action] is
    [self.actions[:1]], both read at the time of the call. *)
Definition _render_headless (self : Recorder) (video_frame : Image)
    (action : Action) : Recorder :=
  let self :=
    if record_now self && present_and_empty (complete_video_frames self)
    then mkRecorder (video_frames self ++ [video_frame]) (ft_frames self)
                    (record_now self) (record_now_ft self)
                    (complete_video_frames self) (complete_ft_frames self)
    else self in
  if record_now_ft self && present_and_empty (complete_ft_frames self)
  then mkRecorder (video_frames self) (ft_frames self ++ [action])
                  (record_now self) (record_now_ft self)
                  (complete_video_frames self) (complete_ft_frames self)
  else self.

(** The recording methods as calls, and the state after a sequence of
    them. *)
Inductive recording_call : Type :=
| StartRecording
| StartRecordingFt
| PauseRecording
| PauseRecordingFt
| RenderHeadless (video_frame : Image) (action : Action).

Definition recording_step (self : Recorder) (c : recording_call)
  : Recorder :=
  match c with
  | StartRecording => start_recording self
  | StartRecordingFt => start_recording_ft self
  | PauseRecording => pause_recording self
  | PauseRecordingFt => pause_recording_ft self
  | RenderHeadless v a => _render_headless self v a
  end.

Definition recording_run (self : Recorder) (calls : list recording_call)
  : Recorder :=
  fold_left recording_step calls self.

End Frames.

Arguments video_frames {Image Action}.
Arguments ft_frames {Image Action}.
Arguments record_now {Image Action}.
Arguments record_now_ft {Image Action}.
Arguments complete_video_frames {Image Action}.
Arguments complete_ft_frames {Image Action}.
Arguments env__init__ {Image Action}.
Arguments start_recording {Image Action}.
Arguments start_recording_ft {Image Action}.
Arguments pause_recording {Image Action}.
Arguments pause_recording_ft {Image Action}.
Arguments get_complete_frames {Image Action}.
Arguments get_ft_frames {Image Action}.
Arguments _render_headless {Image Action}.
Arguments recording_step {Image Action}.
Arguments recording_run {Image Action}.

End Recording.

(* ================================================================== *)
(** * FactoryEnvInsertionTactile: noise on the socket poses *)
(* ================================================================== *)

Module SocketNoise.

Local Open Scope Q_scope.

Definition Qvec3 : Type := (Q * Q * Q)%type.
Definition Qquat : Type := (Q * Q * Q * Q)%type.

(** A row of 15 joint positions. *)
Definition Qdof : Type := (Qvec3 * Qvec3 * Qvec3 * Qvec3 * Qvec3)%type.

(** The entries of [cfg['randomize']] the two methods read:
    [socket_pos_xy_noise], [socket_pos_z_noise_bounds],
    [socket_pos_xy_initial] and [socket_rot_euler_noise]. *)
Record Randomize : Type := mkRandomize {
  socket_pos_xy_noise : Q * Q;
  socket_pos_z_noise_bounds : Q * Q;
  socket_pos_xy_initial : Q * Q;
  socket_rot_euler_noise : Q * Q * Q
}.

(** The column assignments [a[:, 0] = v], [a[:, 1] = v], [a[:, 2] = v]. *)
Definition set_column0 (a : list Qvec3) (v : list Q) : list Qvec3 :=
  PoseTracker.map2 (fun (r : Qvec3) x => let '(_, y, z) := r in (x, y, z))
                   a v.

Definition set_column1 (a : list Qvec3) (v : list Q) : list Qvec3 :=
  PoseTracker.map2 (fun (r : Qvec3) y => let '(x, _, z) := r in (x, y, z))
                   a v.

Definition set_column2 (a : list Qvec3) (v : list Q) : list Qvec3 :=
  PoseTracker.map2 (fun (r : Qvec3) z => let '(x, y, _) := r in (x, y, z))
                   a v.

(** [add_socket_noise(socket_pos)].  [rand_xy i] is row i of
    [np.random.rand(num_positions, 2)] and [rand_z i] entry i of
    [np.random.rand(num_positions)]; the result is the array given, written
    in place. *)
Definition add_socket_noise (randomize : Randomize) (table_height : Q)
    (rand_xy : nat -> Q * Q) (rand_z : nat -> Q)
    (socket_pos : list Qvec3) : list Qvec3 :=
  let num_positions := length socket_pos in
  let socket_noise_xy :=
    map (fun i => let '(a, b) := rand_xy i in
                  (2 * (a - (1 # 2)), 2 * (b - (1 # 2))))
        (seq 0 num_positions) in
  (* noise_scale = np.diag(...); socket_noise_xy @ noise_scale *)
  let '(s0, s1) := socket_pos_xy_noise randomize in
  let socket_noise_xy :=
    map (fun ab : Q * Q =>
           let '(a, b) := ab in (a * s0 + b * 0, a * 0 + b * s1))
        socket_noise_xy in
  let socket_noise_z_mag :=
    snd (socket_pos_z_noise_bounds randomize)
    - fst (socket_pos_z_noise_bounds randomize) in
  let socket_noise_z :=
    map (fun i => socket_noise_z_mag * rand_z i
                  + fst (socket_pos_z_noise_bounds randomize))
        (seq 0 num_positions) in
  let socket_pos :=
    set_column0 socket_pos
      (map (fun n => fst (socket_pos_xy_initial randomize) + fst n)
           socket_noise_xy) in
  let socket_pos :=
    set_column1 socket_pos
      (map (fun n => snd (socket_pos_xy_initial randomize) + snd n)
           socket_noise_xy) in
  let socket_pos :=
    set_column2 socket_pos (map (fun n => table_height + n) socket_noise_z) in
  socket_pos.

(** [add_socket_quat_noise(socket_quat)].  [from_euler] is SciPy's
    [R.from_euler('xyz', .).as_quat()] on one row of angles, a library
    function; [rand i] is row i of [np.random.rand(num_positions, 3)]. *)
Definition add_socket_quat_noise (randomize : Randomize)
    (from_euler : Qvec3 -> Qquat) (rand : nat -> Qvec3)
    (socket_quat : list Qquat) : list Qquat :=
  let num_positions := length socket_quat in
  let socket_rot_noise :=
    map (fun i => let '(a, b, c) := rand i in
                  (2 * (a - (1 # 2)), 2 * (b - (1 # 2)), 2 * (c - (1 # 2))))
        (seq 0 num_positions) in
  let '(s0, s1, s2) := socket_rot_euler_noise randomize in
  let socket_rot_noise :=
    map (fun abc : Qvec3 =>
           let '(a, b, c) := abc in
           (a * s0 + b * 0 + c * 0, a * 0 + b * s1 + c * 0,
            a * 0 + b * 0 + c * s2))
        socket_rot_noise in
  (* socket_quat[:, :] = ... *)
  PoseTracker.map2 (fun (_ : Qquat) q => q) socket_quat
                   (map from_euler socket_rot_noise).

(** A random source whose draws lie in [0, 1), as [np.random.rand]
    promises. *)
Definition unit_draws (rand_xy : nat -> Q * Q) (rand_z : nat -> Q) : Prop :=
  forall i, (0 <= fst (rand_xy i) < 1) /\ (0 <= snd (rand_xy i) < 1) /\
            (0 <= rand_z i < 1).

(** The box around the configured initial position the noise stays in. *)
Definition in_noise_box (randomize : Randomize) (table_height : Q)
    (p : Qvec3) : Prop :=
  let '(x, y, z) := p in
  let '(s0, s1) := socket_pos_xy_noise randomize in
  let '(x0, y0) := socket_pos_xy_initial randomize in
  let '(lo, hi) := socket_pos_z_noise_bounds randomize in
  x0 - s0 <= x <= x0 + s0 /\
  y0 - s1 <= y <= y0 + s1 /\
  table_height + lo <= z <= table_height + hi.

End SocketNoise.

(* ================================================================== *)
(** * FactoryEnvInsertionTactile: the initial grasp poses *)
(* ================================================================== *)

Module GraspPoses.

Import Stdlib.Strings.String.
Import SocketNoise.

(** A Python dict with string keys. *)
Definition dict (V : Type) : Type := string -> option V.

Definition empty_dict {V : Type} : dict V := fun _ => None.

Definition dict_set {V : Type} (d : dict V) (k : string) (v : V) : dict V :=
  fun k' => if String.eqb k k' then Some v else d k'.

(** An [.npz] file of initial grasp data: its five arrays. *)
Record Npz : Type := mkNpz {
  socket_pos : list Qvec3;
  socket_quat : list Qquat;
  plug_pos : list Qvec3;
  plug_quat : list Qquat;
  dof_pos : list Qdof
}.

(** The dicts of the environment [_initialize_grasp_poses] fills, indexed
    by the subassembly. *)
Record GraspTables : Type := mkGraspTables {
  initial_grasp_poses : dict Npz;
  total_init_poses : dict nat;
  init_socket_pos : dict (list Qvec3);
  init_socket_quat : dict (list Qquat);
  init_plug_pos : dict (list Qvec3);
  init_plug_quat : dict (list Qquat);
  init_dof_pos : dict (list Qdof)
}.

(** The empty dicts [__init__] creates. *)
Definition empty_tables : GraspTables :=
  mkGraspTables empty_dict empty_dict empty_dict empty_dict empty_dict
                empty_dict empty_dict.

Local Open Scope R_scope.

(** [a[a > np.pi] -= 2 * np.pi] on one entry, and the comparison [a > b]. *)
Definition wrap_angle (a : R) : R :=
  if Rlt_dec PI a then a - 2 * PI else a.

Definition Rgtb (a b : R) : bool := if Rlt_dec b a then true else false.

Definition max_ang : R := 4 / 10.

(** Boolean-mask indexing [a[mask]]; a mask of another length than the
    array is an exception. *)
Fixpoint mask_select {A : Type} (mask : list bool) (a : list A)
  : option (list A) :=
  match mask, a with
  | [], [] => Some []
  | b :: mask', x :: a' =>
      match mask_select mask' a' with
      | Some r => Some (if b then x :: r else r)
      | None => None
      end
  | _, _ => None
  end.

(** [mask.sum()]. *)
Definition count_true (mask : list bool) : nat :=
  List.length (filter (fun b : bool => b) mask).

(** The loop [for i in range(total): tensor[i] = array[i]] on a tensor of
    [total] rows: reading a row that is not there is an exception. *)
Definition copy_rows {A : Type} (total : nat) (array : list A)
  : option (list A) :=
  if (total <=? List.length array)%nat then Some (firstn total array)
  else None.

Section Loader.

(** [np.load]: the arrays of the file at a path, or [None] when it raises. *)
Variable np_load : string -> option Npz.

(** [torch_jit_utils.get_euler_xyz], a function of the repository's
    utilities that is not part of the sources, read on one quaternion of the
    batch: its roll, pitch and yaw. *)
Variable get_euler_xyz : Qquat -> R * R * R.

(** What the two noise methods read: the configuration, SciPy's
    [from_euler] and the random draws. *)
Variable randomize : Randomize.
Variable table_height : Q.
Variable from_euler : Qvec3 -> Qquat.
Variable rand_xy : nat -> Q * Q.
Variable rand_z : nat -> Q.
Variable rand_rot : nat -> Qvec3.

(** The mask [valid_indices] the method computes from [plug_quat]. *)
Definition valid_indices (plug_quat : list Qquat) : list bool :=
  let rpy := map get_euler_xyz plug_quat in
  let roll := map (fun t => fst (fst t)) rpy in
  let pitch := map (fun t => snd (fst t)) rpy in
  let yaw := map (fun t => snd t) rpy in
  let roll := map wrap_angle roll in
  let pitch := map wrap_angle pitch in
  let yaw := map wrap_angle yaw in
  let degrasp_buf :=
    PoseTracker.map2 orb
      (PoseTracker.map2 orb
         (map (fun a => Rgtb (Rabs a) max_ang) roll)
         (map (fun a => Rgtb (Rabs a) max_ang) pitch))
      (map (fun a => Rgtb (Rabs a) max_ang) yaw) in
  map negb degrasp_buf.

(** [_initialize_grasp_poses(subassembly, pre_noise, add_noise)].  The
    result is the environment after the call; [None] is an exception that
    leaves the method.  A file that cannot be loaded is not one: the method
    prints a message and returns.  The tensors of zeros the method creates
    first are replaced before it returns and are not part of the result;
    the shapes of the rows (3, 4 and 15 entries) are those of the types. *)
Definition _initialize_grasp_poses (self : GraspTables) (subassembly : string)
    (pre_noise add_noise : bool) : option GraspTables :=
  let sf := if pre_noise then (subassembly ++ "_noise")%string
            else subassembly in
  match np_load ("initial_grasp_data/" ++ sf ++ ".npz")%string with
  | None => Some self
  | Some npz =>
      let socket_pos := socket_pos npz in
      let socket_quat := socket_quat npz in
      let socket_pos :=
        if add_noise
        then add_socket_noise randomize table_height rand_xy rand_z socket_pos
        else socket_pos in
      let socket_quat :=
        if add_noise
        then add_socket_quat_noise randomize from_euler rand_rot socket_quat
        else socket_quat in
      let plug_pos := plug_pos npz in
      let plug_quat := plug_quat npz in
      let dof_pos := dof_pos npz in
      let valid_indices := valid_indices plug_quat in
      match mask_select valid_indices socket_pos,
            mask_select valid_indices socket_quat,
            mask_select valid_indices plug_pos,
            mask_select valid_indices plug_quat,
            mask_select valid_indices dof_pos with
      | Some socket_pos, Some socket_quat, Some plug_pos, Some plug_quat,
        Some dof_pos =>
          let total := count_true valid_indices in
          match copy_rows total socket_pos, copy_rows total socket_quat,
                copy_rows total plug_pos, copy_rows total plug_quat,
                copy_rows total dof_pos with
          | Some sp, Some sq, Some pp, Some pq, Some dp =>
              Some (mkGraspTables
                      (dict_set (initial_grasp_poses self) subassembly npz)
                      (dict_set (total_init_poses self) subassembly total)
                      (dict_set (init_socket_pos self) subassembly sp)
                      (dict_set (init_socket_quat self) subassembly sq)
                      (dict_set (init_plug_pos self) subassembly pp)
                      (dict_set (init_plug_quat self) subassembly pq)
                      (dict_set (init_dof_pos self) subassembly dp))
          | _, _, _, _, _ => None
          end
      | _, _, _, _, _ => None
      end
  end.

(** The loop of [create_envs] over the desired subassemblies, with the
    default arguments [pre_noise=True] and [add_noise=False]. *)
Fixpoint initialize_all (self : GraspTables)
    (desired_subassemblies : list string) : option GraspTables :=
  match desired_subassemblies with
  | [] => Some self
  | subassembly :: rest =>
      match _initialize_grasp_poses self subassembly true false with
      | Some self' => initialize_all self' rest
      | None => None
      end
  end.

(** The entry of the mask for one quaternion of the batch. *)
Definition keeps (plug_quat : Qquat) : bool :=
  let '(roll, pitch, yaw) := get_euler_xyz plug_quat in
  negb (Rgtb (Rabs (wrap_angle roll)) max_ang
        || Rgtb (Rabs (wrap_angle pitch)) max_ang
        || Rgtb (Rabs (wrap_angle yaw)) max_ang).

End Loader.

(** The rows of an array at the positions where the mask holds. *)
Definition kept_rows {A : Type} (mask : list bool) (a : list A) : list A :=
  map snd (filter (fun ba : bool * A => fst ba) (combine mask a)).

(** The path [_initialize_grasp_poses] loads for a subassembly. *)
Definition grasp_file (subassembly : string) (pre_noise : bool) : string :=
  ("initial_grasp_data/"
   ++ (if pre_noise then subassembly ++ "_noise" else subassembly)
   ++ ".npz")%string.

(** A file whose five arrays have one row per pose. *)
Definition well_formed (npz : Npz) : Prop :=
  List.length (socket_pos npz) = List.length (plug_quat npz) /\
  List.length (socket_quat npz) = List.length (plug_quat npz) /\
  List.length (plug_pos npz) = List.length (plug_quat npz) /\
  List.length (dof_pos npz) = List.length (plug_quat npz).

(** What the seven dicts hold for a subassembly. *)
Definition entries (self : GraspTables) (subassembly : string) :=
  (initial_grasp_poses self subassembly,
   total_init_poses self subassembly,
   init_socket_pos self subassembly,
   init_socket_quat self subassembly,
   init_plug_pos self subassembly,
   init_plug_quat self subassembly,
   init_dof_pos self subassembly).

Definition no_entry :=
  (@None Npz, @None nat, @None (list Qvec3), @None (list Qquat),
   @None (list Qvec3), @None (list Qquat), @None (list Qdof)).

(** The entries a call without noise leaves for a subassembly whose file
    holds [npz]: the rows of the five arrays at the positions the mask
    keeps, and their number. *)
Definition filtered_entries (get_euler_xyz : Qquat -> R * R * R)
    (npz : Npz) :=
  let mask := valid_indices get_euler_xyz (plug_quat npz) in
  (Some npz,
   Some (count_true mask),
   Some (kept_rows mask (socket_pos npz)),
   Some (kept_rows mask (socket_quat npz)),
   Some (kept_rows mask (plug_pos npz)),
   Some (kept_rows mask (plug_quat npz)),
   Some (kept_rows mask (dof_pos npz))).

(** An angle within [max_ang] of zero, or of a full turn. *)
Definition near_zero_angle (a : R) : Prop :=
  (- max_ang <= a <= max_ang) \/
  (2 * PI - max_ang <= a <= 2 * PI + max_ang).

End GraspPoses.

(* ================================================================== *)
(** * FactoryEnvInsertionTactile: the bookkeeping of [_create_actors] *)
(* ================================================================== *)

Module Actors.

Import Stdlib.Strings.String.

Local Open Scope nat_scope.

(** A Python dict with string keys, in insertion order. *)
Definition sdict (V : Type) : Type := list (string * V).

Fixpoint lookup {V : Type} (d : sdict V) (k : string) : option V :=
  match d with
  | [] => None
  | (k', v) :: rest => if String.eqb k' k then Some v else lookup rest k
  end.

(** [k in d]. *)
Definition has_key {V : Type} (d : sdict V) (k : string) : bool :=
  match lookup d k with Some _ => true | None => false end.

(** [d[k] = v]. *)
Fixpoint assign {V : Type} (d : sdict V) (k : string) (v : V) : sdict V :=
  match d with
  | [] => [(k, v)]
  | (k', v') :: rest =>
      if String.eqb k' k then (k', v) :: rest
      else (k', v') :: assign rest k v
  end.

(** [needle in hay] on strings. *)
Definition contains (needle hay : string) : bool :=
  match index 0 needle hay with Some _ => true | None => false end.

(** The variables of [_create_actors] that count the actors and assign the
    environments to the subassemblies. *)
Record Bookkeeping : Type := mkBookkeeping {
  actor_count : nat;
  kuka_actor_ids_sim : list nat;
  plug_actor_ids_sim : list nat;
  socket_actor_ids_sim : list nat;
  table_actor_ids_sim : list nat;
  asset_indices : list nat;
  envs_asset : list (nat * string);
  subassembly_extrinsic_contact : sdict ExtrinsicContact;
  subassembly_to_env_ids : sdict (list nat)
}.

(** Their values before the loop. *)
Definition before_loop : Bookkeeping :=
  mkBookkeeping 0 [] [] [] [] [] [] [] [].

Section Loop.

(** [cfg_env.env.desired_subassemblies], the [urdf_path] of the plug and of
    the socket of a subassembly in the asset info, the two flags
    [cfg['env']['compute_contact_gt']] and [cfg['external_cam']['pcl_cam']],
    [cfg['env']['num_points_goal']] and [num_envs]. *)
Variable desired_subassemblies : list string.
Variable urdf_path : string -> string * string.
Variable compute_contact_gt pcl_cam : bool.
Variable num_points_goal : nat.
Variable num_envs : nat.

(** [np.random.randint(0, len(desired_subassemblies))] in iteration i,
    [trimesh.load] of a file of the mesh directory, and the random sources
    of the sampler for an estimator built in iteration i. *)
Variable randint : nat -> nat.
Variable load_mesh : string -> Mesh.
Variable rng_socket rng_obj : nat -> nat -> Draw.

(** The names of the mesh files of a subassembly. *)
Definition mesh_files (subassembly : string) : string * string :=
  let plug_file := fst (urdf_path subassembly) in
  let plug_file :=
    (plug_file ++
     (if contains "rectangular" plug_file || contains "square" plug_file
      then "_subdiv_3x.obj" else ".obj"))%string in
  let socket_file := snd (urdf_path subassembly) in
  let socket_file :=
    (socket_file ++
     (if contains "factory" plug_file then "_subdiv_3x.obj" else ".obj"))
    %string in
  (plug_file, socket_file).

(** The estimator [_create_actors] builds for a subassembly in
    iteration i. *)
Definition new_estimator (subassembly : string) (i : nat)
  : ExtrinsicContact :=
  let init_socket_pos := (Fin (1 / 2), Fin 0, Fin (1 / 1000)) in
  __init__ (load_mesh (fst (mesh_files subassembly)))
           (load_mesh (snd (mesh_files subassembly)))
           (Fin 1) (Fin 1) init_socket_pos num_envs num_points_goal false
           (rng_socket i) (rng_obj i).

(** One iteration of [for i in range(self.num_envs)], reduced to the
    statements that write the variables above; the calls to the simulator
    between them do not.  [None] is the exception of reading
    [desired_subassemblies[j]] out of range. *)
Definition create_actor (self : Bookkeeping) (i : nat)
  : option Bookkeeping :=
  let j := randint i in
  let kuka_actor_ids_sim := kuka_actor_ids_sim self ++ [actor_count self] in
  let actor_count := actor_count self + 1 in
  match nth_error desired_subassemblies j with
  | None => None
  | Some subassembly =>
      let plug_actor_ids_sim := plug_actor_ids_sim self ++ [actor_count] in
      let actor_count := actor_count + 1 in
      let socket_actor_ids_sim :=
        socket_actor_ids_sim self ++ [actor_count] in
      let actor_count := actor_count + 1 in
      let table_actor_ids_sim := table_actor_ids_sim self ++ [actor_count] in
      let actor_count := actor_count + 1 in
      let asset_indices := asset_indices self ++ [j] in
      let envs_asset := envs_asset self ++ [(i, subassembly)] in
      let subassembly_extrinsic_contact :=
        if compute_contact_gt || pcl_cam then
          if negb (has_key (subassembly_extrinsic_contact self) subassembly)
          then assign (subassembly_extrinsic_contact self) subassembly
                      (new_estimator subassembly i)
          else subassembly_extrinsic_contact self
        else subassembly_extrinsic_contact self in
      let subassembly_to_env_ids :=
        if negb (has_key (subassembly_to_env_ids self) subassembly)
        then assign (subassembly_to_env_ids self) subassembly []
        else subassembly_to_env_ids self in
      let subassembly_to_env_ids :=
        match lookup subassembly_to_env_ids subassembly with
        | Some ids => assign subassembly_to_env_ids subassembly (ids ++ [i])
        | None => subassembly_to_env_ids
        end in
      Some (mkBookkeeping actor_count kuka_actor_ids_sim plug_actor_ids_sim
              socket_actor_ids_sim table_actor_ids_sim asset_indices
              envs_asset subassembly_extrinsic_contact
              subassembly_to_env_ids)
  end.

(** The loop over the environments [first, first + 1, ...]. *)
Fixpoint create_actors_from (self : Bookkeeping) (envs : list nat)
  : option Bookkeeping :=
  match envs with
  | [] => Some self
  | i :: rest =>
      match create_actor self i with
      | Some self' => create_actors_from self' rest
      | None => None
      end
  end.

(** The loop of [_create_actors] and [num_actors] after it:
    [int(actor_count / self.num_envs)], a division by zero without
    environments. *)
Definition _create_actors : option (Bookkeeping * nat) :=
  match create_actors_from before_loop (seq 0 num_envs) with
  | None => None
  | Some self =>
      if num_envs =? 0 then None
      else Some (self, actor_count self / num_envs)
  end.

(** The subassembly of environment i. *)
Definition subassembly_of (i : nat) : string :=
  nth (randint i) desired_subassemblies EmptyString.

(** The environments of a subassembly among the first [n], in order. *)
Definition envs_of (subassembly : string) (n : nat) : list nat :=
  filter (fun i => String.eqb (subassembly_of i) subassembly) (seq 0 n).

End Loop.

End Actors.

(* ================================================================== *)
(** * Evaluation of the number model on finite values *)
(* ================================================================== *)

Section NumFacts.

Local Open Scope R_scope.

Lemma ndiv_fin (x y : R) : y <> 0 -> ndiv (Fin x) (Fin y) = Fin (x / y).
Proof.
  intros Hy. unfold ndiv. destruct (Req_dec_T y 0) as [E | _].
  - contradiction.
  - reflexivity.
Qed.

Lemma ndiv_by_zero (x y : R) : y = 0 -> ndiv (Fin x) (Fin y) = NaN.
Proof.
  intros Hy. unfold ndiv. destruct (Req_dec_T y 0) as [_ | N].
  - reflexivity.
  - contradiction.
Qed.

Lemma nsqrt_fin (x : R) : 0 <= x -> nsqrt (Fin x) = Fin (sqrt x).
Proof.
  intros Hx. unfold nsqrt. destruct (Rlt_dec x 0) as [L | _].
  - lra.
  - reflexivity.
Qed.

Lemma narccos_fin (x : R) : -1 <= x <= 1 -> narccos (Fin x) = Fin (acos x).
Proof.
  intros [Hl Hu]. unfold narccos.
  destruct (Rle_dec (-1) x); [ | contradiction ].
  destruct (Rle_dec x 1); [ reflexivity | contradiction ].
Qed.

Lemma nleb_fin (x y : R) : nleb (Fin x) (Fin y) = true <-> x <= y.
Proof.
  unfold nleb. destruct (Rle_dec x y); split; intros; try easy.
Qed.

Lemma nleb_fin_false (x y : R) : nleb (Fin x) (Fin y) = false <-> y < x.
Proof.
  unfold nleb. destruct (Rle_dec x y); split; intros; try easy; lra.
Qed.

Lemma nltb_fin (x y : R) : nltb (Fin x) (Fin y) = true <-> x < y.
Proof.
  unfold nltb. destruct (Rlt_dec x y); split; intros; try easy.
Qed.

Lemma nltb_fin_false (x y : R) : nltb (Fin x) (Fin y) = false <-> y <= x.
Proof.
  unfold nltb. destruct (Rlt_dec x y); split; intros; try easy; lra.
Qed.

Lemma nmul_nan_r (a : num) : nmul a NaN = NaN.
Proof. destruct a; reflexivity. Qed.

Lemma Fin_inj (x y : R) : Fin x = Fin y -> x = y.
Proof. intros H. injection H. trivial. Qed.

Lemma allclose_fin (c : R) : allclose (Fin c) (Fin 1) = true <-> close_to_one c.
Proof. unfold allclose, isclose, close_to_one. simpl. apply nleb_fin. Qed.

Lemma allclose_fin_false (c : R) :
  allclose (Fin c) (Fin 1) = false <-> ~ close_to_one c.
Proof.
  rewrite <- allclose_fin. split.
  - intros H. rewrite H. discriminate.
  - apply not_true_is_false.
Qed.

End NumFacts.

(** An equation between tuples of finite numbers, entry by entry. *)
Ltac entrywise :=
  repeat match goal with
         | |- (_, _) = (_, _) => apply f_equal2
         | |- Fin _ = Fin _ => apply f_equal
         end.

(** Evaluation of arithmetic on finite numbers, divisions by non-zero
    literals included. *)
Ltac fin_eval :=
  repeat (cbn [nadd nsub nmul nneg nabs ncos nsin nmax nmin lift1 lift2];
          rewrite ?ndiv_fin by lra).

(* ================================================================== *)
(** * The pose tracker on real-valued poses *)
(* ================================================================== *)

Section PoseFacts.

Local Open Scope R_scope.

Lemma rdot_self_nonneg (a : Rvec3) : 0 <= rdot a a.
Proof. destruct a as [[x y] z]. unfold rdot. nra. Qed.

Lemma rnorm_nonneg (a : Rvec3) : 0 <= rnorm a.
Proof. apply sqrt_pos. Qed.

Lemma rnorm_sqr (a : Rvec3) : rnorm a * rnorm a = rdot a a.
Proof. apply sqrt_sqrt, rdot_self_nonneg. Qed.

Lemma rnorm_zero_iff (a : Rvec3) : rnorm a = 0 <-> a = (0, 0, 0).
Proof.
  split.
  - intros H. pose proof (rnorm_sqr a) as Hs. rewrite H in Hs.
    destruct a as [[x y] z]. unfold rdot in Hs.
    assert (x = 0) by nra. assert (y = 0) by nra. assert (z = 0) by nra.
    subst. reflexivity.
  - intros ->. unfold rnorm, rdot.
    replace (0 * 0 + 0 * 0 + 0 * 0) with 0 by ring. apply sqrt_0.
Qed.

Lemma dot_fin3 (a b : Rvec3) : dot (fin3 a) (fin3 b) = Fin (rdot a b).
Proof. destruct a as [[? ?] ?], b as [[? ?] ?]. reflexivity. Qed.

Lemma cross_fin3 (a b : Rvec3) : cross (fin3 a) (fin3 b) = fin3 (rcross a b).
Proof. destruct a as [[? ?] ?], b as [[? ?] ?]. reflexivity. Qed.

Lemma norm_fin3 (a : Rvec3) : norm (fin3 a) = Fin (rnorm a).
Proof.
  unfold norm. rewrite dot_fin3. apply nsqrt_fin, rdot_self_nonneg.
Qed.

Lemma vscale_fin3 (s : R) (a : Rvec3) :
  vscale (Fin s) (fin3 a) = fin3 (rscale s a).
Proof. destruct a as [[? ?] ?]. reflexivity. Qed.

Lemma vdiv_fin3 (a : Rvec3) (s : R) :
  s <> 0 -> vdiv (fin3 a) (Fin s) = fin3 (rdivide a s).
Proof.
  intros Hs. destruct a as [[x y] z]. simpl.
  rewrite !ndiv_fin by assumption. reflexivity.
Qed.

Lemma vdiv_fin3_zero (a : Rvec3) : vdiv (fin3 a) (Fin 0) = (NaN, NaN, NaN).
Proof.
  destruct a as [[x y] z]. simpl.
  rewrite !ndiv_by_zero by reflexivity. reflexivity.
Qed.

(** Normalising a non-zero real column yields the real unit vector. *)
Lemma normalized_fin3 (z : Rvec3) :
  z <> (0, 0, 0) ->
  vdiv (fin3 z) (norm (fin3 z)) = fin3 (normalize z).
Proof.
  intros Hz. rewrite norm_fin3. apply vdiv_fin3.
  intros H. apply Hz, rnorm_zero_iff, H.
Qed.

Lemma mat_vec_fin (m : Rmat3) (v : Rvec3) :
  mat_vec (fin_mat3 m) (fin3 v) = fin3 (rmat_vec m v).
Proof.
  destruct m as [[r0 r1] r2]. simpl. rewrite !dot_fin3. reflexivity.
Qed.

Lemma transpose3_fin (m : Rmat3) :
  transpose3 (fin_mat3 m) = fin_mat3 (rtranspose3 m).
Proof.
  destruct m as [[[[? ?] ?] [[? ?] ?]] [[? ?] ?]]. reflexivity.
Qed.

Lemma matmul3_fin (a b : Rmat3) :
  matmul3 (fin_mat3 a) (fin_mat3 b) = fin_mat3 (rmatmul3 a b).
Proof.
  unfold matmul3, rmatmul3. rewrite transpose3_fin.
  destruct a as [[r0 r1] r2].
  destruct (rtranspose3 b) as [[k0 k1] k2]. simpl.
  rewrite !dot_fin3. reflexivity.
Qed.

Lemma col2_fin (m : Rmat3) : col2 (fin_mat3 m) = fin3 (rcol2 m).
Proof.
  destruct m as [[[[? ?] ?] [[? ?] ?]] [[? ?] ?]]. reflexivity.
Qed.

Lemma fin3_inj (a b : Rvec3) : fin3 a = fin3 b -> a = b.
Proof.
  destruct a as [[? ?] ?], b as [[? ?] ?]. simpl. intros H.
  injection H. intros. subst. reflexivity.
Qed.

(** The unit vector along a non-zero vector has norm one. *)
Lemma normalize_unit (z : Rvec3) :
  z <> (0, 0, 0) -> rdot (normalize z) (normalize z) = 1.
Proof.
  intros Hz. unfold normalize.
  assert (Hn : rnorm z <> 0) by (intros H; apply Hz, rnorm_zero_iff, H).
  pose proof (rnorm_sqr z) as Hs.
  destruct z as [[x y] w]. unfold rdivide. unfold rdot in *.
  set (n := rnorm (x, y, w)) in *.
  replace (x / n * (x / n) + y / n * (y / n) + w / n * (w / n))
    with ((x * x + y * y + w * w) / (n * n)) by (field; assumption).
  rewrite <- Hs. field. assumption.
Qed.

End PoseFacts.

Section TrackerFacts.

Local Open Scope R_scope.

Import PoseTracker.

(** The tracked pose reads the current pose through its position and the
    third column of its rotation block only. *)
Lemma estimate_pose_reads (c c' : pose) (prev : option pose) :
  pos c = pos c' -> col2 (rot c) = col2 (rot c') ->
  fst (estimate_pose c prev) = fst (estimate_pose c' prev).
Proof.
  intros Hp Hz. unfold estimate_pose. cbn [fst]. rewrite Hp, Hz. reflexivity.
Qed.

Lemma estimate_pose_row_reads (c c' prev : pose) :
  pos c = pos c' -> col2 (rot c) = col2 (rot c') ->
  fst (estimate_pose_row c prev) = fst (estimate_pose_row c' prev).
Proof.
  intros Hp Hz. unfold estimate_pose_row. cbn [fst]. rewrite Hp, Hz.
  reflexivity.
Qed.

Lemma estimate_pose_store (c : pose) (prev : option pose) :
  snd (estimate_pose c prev) = normalized_z c.
Proof. reflexivity. Qed.

Lemma estimate_pose_row_store (c prev : pose) :
  snd (estimate_pose_row c prev) = normalized_z c.
Proof. reflexivity. Qed.

(** The array statements treat the first pair of rows as
    [estimate_pose_row] does and the remaining rows independently of it. *)
Lemma estimate_pose_arrays_cons (c p : pose) (cs ps : list pose) :
  estimate_pose_arrays (c :: cs) (p :: ps) =
  (fst (estimate_pose_row c p) :: fst (estimate_pose_arrays cs ps),
   snd (estimate_pose_row c p) :: snd (estimate_pose_arrays cs ps)).
Proof. reflexivity. Qed.

Lemma estimate_pose_arrays_rows (cs ps : list pose) :
  length cs = length ps ->
  estimate_pose_arrays cs ps =
    (map (fun cp => fst (estimate_pose_row (fst cp) (snd cp)))
         (combine cs ps),
     map normalized_z cs).
Proof.
  revert ps. induction cs as [ | c cs IH]; intros [ | p ps] Hlen;
    simpl in Hlen; try discriminate.
  - reflexivity.
  - injection Hlen as Hlen.
    rewrite estimate_pose_arrays_cons, (IH ps Hlen).
    rewrite estimate_pose_row_store. reflexivity.
Qed.

(** On batches of the same size [estimate_pose_batch] returns, row by row,
    what [estimate_pose_row] does. *)
Lemma estimate_pose_batch_rows (cs ps : list pose) :
  length cs = length ps ->
  estimate_pose_batch cs ps =
    Some (map (fun cp => fst (estimate_pose_row (fst cp) (snd cp)))
              (combine cs ps),
          map normalized_z cs).
Proof.
  intros Hlen. unfold estimate_pose_batch.
  rewrite Hlen, Nat.eqb_refl. f_equal.
  apply estimate_pose_arrays_rows, Hlen.
Qed.

(** Post-multiplying a pose by a rotation about Z changes neither its
    position nor the third column of its rotation block. *)
Lemma rot_z_keeps_pos (A : Rmat4) (theta : R) :
  pos (pose_of_array (rmatmul4 A (rot_z theta))) = pos (pose_of_array A).
Proof.
  destruct A as [[[[[[a0 a1] a2] a3] [[[b0 b1] b2] b3]]
                   [[[c0 c1] c2] c3]] [[[d0 d1] d2] d3]].
  simpl. entrywise; ring.
Qed.

Lemma rot_z_keeps_col2 (A : Rmat4) (theta : R) :
  col2 (rot (pose_of_array (rmatmul4 A (rot_z theta)))) =
  col2 (rot (pose_of_array A)).
Proof.
  destruct A as [[[[[[a0 a1] a2] a3] [[[b0 b1] b2] b3]]
                   [[[c0 c1] c2] c3]] [[[d0 d1] d2] d3]].
  simpl. entrywise; ring.
Qed.

(** C6: for every current pose, previous pose and angle theta,
    [estimate_pose] returns the same tracked pose for the current pose
    post-rotated about its own Z axis by theta as for the current pose
    itself. *)
Theorem estimate_pose_z_rotation_invariant :
  forall (curr_pose : Rmat4) (prev_pose : option pose) (theta : R),
    fst (estimate_pose (pose_of_array (rmatmul4 curr_pose (rot_z theta)))
                       prev_pose) =
    fst (estimate_pose (pose_of_array curr_pose) prev_pose).
Proof.
  intros A prev theta. apply estimate_pose_reads.
  - apply rot_z_keeps_pos.
  - apply rot_z_keeps_col2.
Qed.

End TrackerFacts.

Section InPlace.

Local Open Scope R_scope.

Import PoseTracker.

Lemma col2_set_col2 (m : mat3) (v : vec3) : col2 (set_col2 m v) = v.
Proof.
  destruct m as [[[[? ?] ?] [[? ?] ?]] [[? ?] ?]], v as [[? ?] ?].
  reflexivity.
Qed.

Lemma rdivide_fixed (z : Rvec3) (n : R) :
  n <> 0 -> n <> 1 -> rdivide z n = z -> z = (0, 0, 0).
Proof.
  intros Hn0 Hn1. destruct z as [[x y] w]. unfold rdivide. intros H.
  injection H as Hx Hy Hw.
  assert (forall t, t / n = t -> t = 0) as Hz.
  { intros t Ht. apply (f_equal (fun r => r * n)) in Ht.
    unfold Rdiv in Ht.
    rewrite Rmult_assoc, Rinv_l, Rmult_1_r in Ht by assumption.
    assert (t * (1 - n) = 0) as Hm by lra.
    apply Rmult_integral in Hm. destruct Hm; [assumption | lra]. }
  rewrite (Hz x Hx), (Hz y Hy), (Hz w Hw). reflexivity.
Qed.

(** Dividing a column that is not of unit length by its norm changes it. *)
Lemma normalized_z_changes (c : pose) (z : Rvec3) :
  col2 (rot c) = fin3 z -> rnorm z <> 1 -> normalized_z c <> c.
Proof.
  intros Hz Hn Heq.
  apply (f_equal (fun p => col2 (rot p))) in Heq.
  unfold normalized_z in Heq. cbn [rot] in Heq.
  rewrite col2_set_col2, Hz, norm_fin3 in Heq.
  destruct (Req_dec_T (rnorm z) 0) as [E0 | N0].
  - rewrite E0, vdiv_fin3_zero in Heq.
    destruct z as [[x y] w]. discriminate Heq.
  - rewrite vdiv_fin3 in Heq by assumption.
    apply fin3_inj, rdivide_fixed in Heq; try assumption.
    apply N0, rnorm_zero_iff, Heq.
Qed.

(** C10: [estimate_pose] and [estimate_pose_batch] write the normalised
    third rotation column back into the caller's current pose, so a pose
    whose column is not of unit length is changed by the call. *)
Theorem estimate_pose_normalizes_in_place :
  forall (curr_pose : pose) (z : Rvec3),
    col2 (rot curr_pose) = fin3 z ->
    rnorm z <> 1 ->
    (forall prev_pose,
        snd (estimate_pose curr_pose prev_pose) = normalized_z curr_pose) /\
    (forall before after prev_poses,
        length (before ++ curr_pose :: after) = length prev_poses ->
        exists tf_curr_poses,
          estimate_pose_batch (before ++ curr_pose :: after) prev_poses =
          Some (tf_curr_poses,
                map normalized_z before ++
                normalized_z curr_pose :: map normalized_z after)) /\
    col2 (rot (normalized_z curr_pose)) = vdiv (fin3 z) (Fin (rnorm z)) /\
    normalized_z curr_pose <> curr_pose.
Proof.
  intros c z Hz Hn. split; [ | split; [ | split ] ].
  - intros prev. apply estimate_pose_store.
  - intros before after ps Hlen.
    rewrite (estimate_pose_batch_rows _ _ Hlen).
    eexists. rewrite map_app. reflexivity.
  - unfold normalized_z. cbn [rot].
    rewrite col2_set_col2, Hz, norm_fin3. reflexivity.
  - apply (normalized_z_changes c z Hz Hn).
Qed.

Lemma sqrt_two_sq : sqrt (0 * 0 + 0 * 0 + 2 * 2) = 2.
Proof.
  replace (0 * 0 + 0 * 0 + 2 * 2) with (2 * 2) by ring.
  apply sqrt_square. lra.
Qed.

(** A pose scaled by two, whose third column has norm two, is changed. *)
Lemma estimate_pose_normalizes_in_place_witness :
  let c := pose_of_array
             ((2, 0, 0, 0), (0, 2, 0, 0), (0, 0, 2, 0), (0, 0, 0, 1)) in
  rnorm (0, 0, 2) <> 1 /\
  snd (estimate_pose c None) <> c /\
  exists tfs, estimate_pose_batch [c] [eye4] = Some (tfs, [normalized_z c]).
Proof.
  intros c.
  assert (Hn : rnorm (0, 0, 2) <> 1).
  { unfold rnorm, rdot. rewrite sqrt_two_sq. lra. }
  destruct (estimate_pose_normalizes_in_place c (0, 0, 2) eq_refl Hn)
    as (Hs & Hb & _ & Hc).
  split; [exact Hn | split].
  - rewrite Hs. exact Hc.
  - exact (Hb [] [] [eye4] eq_refl).
Defined.

End InPlace.

Section Degenerate.

Local Open Scope R_scope.

Import PoseTracker.

Lemma vscale_nan3 (s : num) : vscale s nan3 = nan3.
Proof. unfold vscale, nan3. rewrite nmul_nan_r. reflexivity. Qed.

Lemma from_rotvec_nan3 : as_matrix (from_rotvec nan3) = nan_mat3.
Proof. reflexivity. Qed.

Lemma matmul3_nan_l (m : mat3) : matmul3 nan_mat3 m = nan_mat3.
Proof.
  destruct m as [[[[? ?] ?] [[? ?] ?]] [[? ?] ?]]. reflexivity.
Qed.

(** The single-pose tracker divides the cross product by its norm without
    a guard: when the Z axes are aligned on one line and the cosine is not
    close to 1, every entry of the tracked rotation is NaN. *)
Lemma estimate_pose_zero_axis_nan (c : pose) (prev : option pose)
    (z a : Rvec3) :
  col2 (rot c) = fin3 z -> z <> (0, 0, 0) ->
  col2 (rot (match prev with None => eye4 | Some p => p end)) = fin3 a ->
  rcross a (normalize z) = (0, 0, 0) ->
  ~ close_to_one (rdot a (normalize z)) ->
  rot (fst (estimate_pose c prev)) = nan_mat3.
Proof.
  intros Hz Hz0 Ha Hx Hc. unfold estimate_pose. cbn [fst rot].
  rewrite Hz, normalized_fin3, Ha, dot_fin3 by assumption.
  apply allclose_fin_false in Hc. rewrite Hc. cbn [negb].
  rewrite cross_fin3, Hx, norm_fin3.
  replace (rnorm (0, 0, 0)) with 0
    by (symmetry; apply rnorm_zero_iff; reflexivity).
  rewrite vdiv_fin3_zero. fold nan3.
  rewrite vscale_nan3, from_rotvec_nan3. apply matmul3_nan_l.
Qed.

Lemma sqrt_minus_one_sq : sqrt (0 * 0 + 0 * 0 + -1 * -1) = 1.
Proof.
  replace (0 * 0 + 0 * 0 + -1 * -1) with 1 by ring. apply sqrt_1.
Qed.

Lemma not_close_minus_one : ~ close_to_one (-1).
Proof.
  unfold close_to_one, atol, rtol.
  replace (-1 - 1) with (-2) by ring.
  rewrite Rabs_left by lra. rewrite Rabs_right by lra. lra.
Qed.

End Degenerate.

Section BatchGuard.

Local Open Scope R_scope.

Import PoseTracker.

Lemma norm_zero3 : norm zero3 = Fin 0.
Proof.
  unfold zero3. change (Fin 0, Fin 0, Fin 0) with (fin3 (0, 0, 0)).
  rewrite norm_fin3. f_equal. apply rnorm_zero_iff. reflexivity.
Qed.

(** SciPy turns the zero rotation vector into the identity matrix. *)
Lemma from_rotvec_zero3 : as_matrix (from_rotvec zero3) = eye3.
Proof.
  unfold from_rotvec. rewrite norm_zero3.
  assert (Hs : nleb (Fin 0) (Fin (1 / 1000)) = true) by (apply nleb_fin; lra).
  rewrite Hs. unfold zero3, as_matrix. cbv zeta. fin_eval.
  replace (0 / 2) with 0 by field. rewrite cos_0.
  unfold eye3. entrywise; field.
Qed.

Lemma vscale_zero3 (t : R) : vscale (Fin t) zero3 = zero3.
Proof. unfold vscale, zero3. simpl. rewrite Rmult_0_r. reflexivity. Qed.

Lemma matmul3_eye3_l (m : Rmat3) : matmul3 eye3 (fin_mat3 m) = fin_mat3 m.
Proof.
  destruct m as [[[[? ?] ?] [[? ?] ?]] [[? ?] ?]]. simpl.
  entrywise; ring.
Qed.

Lemma clip_fin (x lo hi : R) :
  clip (Fin x) (Fin lo) (Fin hi) = Fin (Rmin (Rmax x lo) hi).
Proof. reflexivity. Qed.

Lemma clipped_in_range (x : R) : -1 <= Rmin (Rmax x (-1)) 1 <= 1.
Proof.
  unfold Rmin, Rmax.
  destruct (Rle_dec x (-1)); destruct (Rle_dec _ 1); lra.
Qed.

(** The batched tracker guards the same division: with a zero cross
    product the rotation vector is zero and the delta rotation is the
    identity, so the tracked rotation is the previous one. *)
Lemma estimate_pose_row_zero_axis (c prev : pose) (z : Rvec3) (P : Rmat3) :
  col2 (rot c) = fin3 z -> z <> (0, 0, 0) ->
  rot prev = fin_mat3 P ->
  rcross (rcol2 P) (normalize z) = (0, 0, 0) ->
  fst (estimate_pose_row c prev) =
    mkPose (fin_mat3 P) (pos c) (Fin 0, Fin 0, Fin 0, Fin 1).
Proof.
  intros Hz Hz0 HP Hx. unfold estimate_pose_row. cbn [fst].
  rewrite Hz, normalized_fin3, HP, col2_fin, dot_fin3 by assumption.
  rewrite cross_fin3, Hx, norm_fin3.
  replace (rnorm (0, 0, 0)) with 0
    by (symmetry; apply rnorm_zero_iff; reflexivity).
  assert (Hg : nltb (Fin 0) (Fin 0) = false) by (apply nltb_fin_false; lra).
  rewrite Hg, clip_fin, narccos_fin by apply clipped_in_range.
  rewrite vscale_zero3, from_rotvec_zero3.
  destruct (isclose _ _); rewrite matmul3_eye3_l; reflexivity.
Qed.

(** C1 at the anti-parallel input: the current pose is the identity turned
    upside down (a half turn about X) and the previous pose is the identity.
    [estimate_pose] returns a rotation block of NaN where
    [estimate_pose_batch] falls back to the identity delta rotation. *)
Theorem estimate_pose_antiparallel_nan :
  let curr_pose :=
    pose_of_array
      ((1, 0, 0, 0), (0, -1, 0, 0), (0, 0, -1, 0), (0, 0, 0, 1)) in
  rot (fst (estimate_pose curr_pose None)) = nan_mat3 /\
  ~ nan_free (fst (estimate_pose curr_pose None)) /\
  exists curr_after,
    estimate_pose_batch [curr_pose] [eye4] = Some ([eye4], curr_after).
Proof.
  intros curr_pose.
  assert (Hz : col2 (rot curr_pose) = fin3 (0, 0, -1)) by reflexivity.
  assert (Hz0 : (0, 0, -1) <> (0, 0, 0)).
  { intros H. injection H as H. lra. }
  assert (Hn : normalize (0, 0, -1) = (0, 0, -1)).
  { unfold normalize, rnorm, rdot. rewrite sqrt_minus_one_sq. unfold rdivide.
    entrywise; field. }
  assert (Hx : rcross (0, 0, 1) (normalize (0, 0, -1)) = (0, 0, 0)).
  { rewrite Hn. unfold rcross. entrywise; ring. }
  assert (Hnan : rot (fst (estimate_pose curr_pose None)) = nan_mat3).
  { apply (estimate_pose_zero_axis_nan curr_pose None (0, 0, -1) (0, 0, 1));
      try assumption; try reflexivity.
    rewrite Hn. unfold rdot.
    replace (0 * 0 + 0 * 0 + 1 * -1) with (-1) by ring.
    apply not_close_minus_one. }
  split; [exact Hnan | split].
  - unfold nan_free. rewrite Hnan. simpl. tauto.
  - eexists.
    rewrite (estimate_pose_batch_rows [curr_pose] [eye4] eq_refl).
    cbn [map combine fst snd].
    rewrite (estimate_pose_row_zero_axis curr_pose eye4 (0, 0, -1)
               ((1, 0, 0), (0, 1, 0), (0, 0, 1)) Hz Hz0 eq_refl Hx).
    reflexivity.
Qed.

End BatchGuard.

Section Rotation.

Local Open Scope R_scope.

(** The second-order lower bound of the cosine. *)
Lemma cos_lower_bound (x : R) : -2 <= x <= 2 -> 1 - x * x / 2 <= cos x.
Proof.
  intros [Hl Hu].
  destruct (pre_cos_bound x 0 Hl Hu) as [H _].
  unfold cos_approx, cos_term in H. simpl in H.
  lra.
Qed.

(** A cosine that fails the closeness test belongs to an angle beyond the
    small-angle threshold of [from_rotvec]. *)
Lemma acos_beyond_small_angle (c : R) :
  -1 <= c <= 1 -> ~ close_to_one c -> 1 / 1000 < acos c.
Proof.
  intros Hc Hn.
  destruct (Rlt_dec (1 / 1000) (acos c)) as [ | Hle]; [assumption | exfalso].
  apply Rnot_lt_le in Hle.
  pose proof (acos_bound c) as [H0 _].
  assert (Hb : 1 - acos c * acos c / 2 <= cos (acos c))
    by (apply cos_lower_bound; lra).
  rewrite cos_acos in Hb by assumption.
  apply Hn. unfold close_to_one, atol, rtol.
  rewrite Rabs_left1 by lra. rewrite Rabs_right by lra.
  nra.
Qed.

Lemma rnorm_rscale_unit (t : R) (k : Rvec3) :
  0 <= t -> rdot k k = 1 -> rnorm (rscale t k) = t.
Proof.
  intros Ht Hk. unfold rnorm.
  replace (rdot (rscale t k) (rscale t k)) with (t * t).
  - apply sqrt_square. assumption.
  - destruct k as [[k0 k1] k2]. unfold rscale, rdot in *.
    transitivity (t * t * (k0 * k0 + k1 * k1 + k2 * k2)); [ | ring].
    rewrite Hk. ring.
Qed.

(** For an angle beyond the small-angle threshold and a unit axis, SciPy's
    conversion of the rotation vector [theta * k] is Rodrigues' matrix. *)
Lemma from_rotvec_axis_angle (k : Rvec3) (theta : R) :
  rdot k k = 1 -> 1 / 1000 < theta ->
  as_matrix (from_rotvec (vscale (Fin theta) (fin3 k))) =
  fin_mat3 (axis_angle_matrix k theta).
Proof.
  intros Hk Ht. rewrite vscale_fin3. unfold from_rotvec.
  rewrite norm_fin3, rnorm_rscale_unit by (assumption || lra).
  assert (Hs : nleb (Fin theta) (Fin (1 / 1000)) = false)
    by (apply nleb_fin_false; assumption).
  rewrite Hs.
  destruct k as [[k0 k1] k2]. unfold rscale, fin3, as_matrix. cbv zeta.
  fin_eval.
  unfold axis_angle_matrix, fin_mat3, fin3.
  replace (cos theta) with (cos (2 * (theta / 2))) by (f_equal; field).
  replace (sin theta) with (sin (2 * (theta / 2))) by (f_equal; field).
  rewrite cos_2a, sin_2a.
  pose proof (sin2_cos2 (theta / 2)) as Hsc. unfold Rsqr in Hsc.
  set (S := sin (theta / 2)) in *. set (W := cos (theta / 2)) in *.
  unfold rdot in Hk.
  assert (Hth : theta <> 0) by lra.
  replace (S / theta * (theta * k0)) with (S * k0) by (field; assumption).
  replace (S / theta * (theta * k1)) with (S * k1) by (field; assumption).
  replace (S / theta * (theta * k2)) with (S * k2) by (field; assumption).
  entrywise. 
  all: nsatz.
Qed.
End Rotation.

Section Alignment.

Local Open Scope R_scope.

(** Lagrange's identity for unit vectors. *)
Lemma cross_norm_unit (a b : Rvec3) :
  rdot a a = 1 -> rdot b b = 1 ->
  rdot (rcross a b) (rcross a b) = 1 - rdot a b * rdot a b.
Proof.
  destruct a as [[a0 a1] a2], b as [[b0 b1] b2]. unfold rdot, rcross.
  intros Ha Hb. nsatz.
Qed.

Lemma unit_dot_range (a b : Rvec3) :
  rdot a a = 1 -> rdot b b = 1 -> -1 <= rdot a b <= 1.
Proof.
  intros Ha Hb. pose proof (cross_norm_unit a b Ha Hb) as H.
  pose proof (rdot_self_nonneg (rcross a b)) as Hn.
  split; nra.
Qed.

(** The rotation about the normalised cross product by the angle between
    two unit vectors carries the first onto the second. *)
Lemma axis_angle_aligns (a b : Rvec3) :
  rdot a a = 1 -> rdot b b = 1 -> rcross a b <> (0, 0, 0) ->
  rmat_vec (axis_angle_matrix (normalize (rcross a b)) (acos (rdot a b))) a
  = b.
Proof.
  intros Ha Hb Hx.
  pose proof (unit_dot_range a b Ha Hb) as Hr.
  pose proof (cross_norm_unit a b Ha Hb) as HL.
  assert (HN : rnorm (rcross a b) <> 0)
    by (intros H; apply Hx, rnorm_zero_iff, H).
  pose proof (rnorm_sqr (rcross a b)) as HN2.
  assert (Hsin : sin (acos (rdot a b)) = rnorm (rcross a b)).
  { rewrite sin_acos by assumption. unfold rnorm. f_equal.
    rewrite HL. unfold Rsqr. reflexivity. }
  unfold normalize.
  set (N := rnorm (rcross a b)) in *. clearbody N.
  unfold axis_angle_matrix.
  destruct a as [[a0 a1] a2], b as [[b0 b1] b2].
  unfold rcross, rdivide, rmat_vec, rdot in *.
  rewrite Hsin, cos_acos by assumption.
  set (c := a0 * b0 + a1 * b1 + a2 * b2) in *.
  assert (Hc : c = a0 * b0 + a1 * b1 + a2 * b2) by reflexivity.
  clearbody c.
  set (k0 := (a1 * b2 - a2 * b1) / N).
  set (k1 := (a2 * b0 - a0 * b2) / N).
  set (k2 := (a0 * b1 - a1 * b0) / N).
  assert (H0 : k0 * N = a1 * b2 - a2 * b1) by (unfold k0; field; assumption).
  assert (H1 : k1 * N = a2 * b0 - a0 * b2) by (unfold k1; field; assumption).
  assert (H2 : k2 * N = a0 * b1 - a1 * b0) by (unfold k2; field; assumption).
  clearbody k0 k1 k2. clear Hsin Hr Hx HL.
  apply f_equal2; [ apply f_equal2 | ].
  all: apply (Rmult_eq_reg_l N); [ | assumption ].
  all: nsatz.
Qed.

End Alignment.

Section Tracking.

Local Open Scope R_scope.

Import PoseTracker.

Lemma isclose_fin_false (c : R) :
  isclose (Fin c) (Fin 1) = false <-> ~ close_to_one c.
Proof. apply allclose_fin_false. Qed.

Lemma clip_in_range (c : R) : -1 <= c <= 1 -> Rmin (Rmax c (-1)) 1 = c.
Proof.
  intros [Hl Hu]. rewrite Rmax_left by assumption. apply Rmin_left, Hu.
Qed.

Section Regular.

Variables (c prev : pose) (z : Rvec3) (P : Rmat3).
Hypothesis Hz : col2 (rot c) = fin3 z.
Hypothesis Hz0 : z <> (0, 0, 0).
Hypothesis HP : rot prev = fin_mat3 P.
Hypothesis Hunit : rdot (rcol2 P) (rcol2 P) = 1.
Hypothesis Hfar : ~ close_to_one (rdot (rcol2 P) (normalize z)).
Hypothesis Hx : rcross (rcol2 P) (normalize z) <> (0, 0, 0).

Let a := rcol2 P.
Let b := normalize z.
Let delta := axis_angle_matrix (normalize (rcross a b)) (acos (rdot a b)).

Lemma regular_range : -1 <= rdot a b <= 1.
Proof. apply unit_dot_range; [exact Hunit | apply normalize_unit, Hz0]. Qed.

Lemma regular_delta :
  as_matrix
    (from_rotvec
       (vscale (narccos (Fin (rdot a b)))
               (vdiv (fin3 (rcross a b)) (Fin (rnorm (rcross a b)))))) =
  fin_mat3 delta.
Proof.
  rewrite narccos_fin by apply regular_range.
  rewrite vdiv_fin3
    by (intros H; apply Hx, rnorm_zero_iff, H).
  apply from_rotvec_axis_angle.
  - apply normalize_unit, Hx.
  - apply acos_beyond_small_angle; [apply regular_range | exact Hfar].
Qed.

(** Away from the closeness tolerance and from anti-parallel axes, the
    tracked rotation is Rodrigues' rotation times the previous rotation. *)
Lemma estimate_pose_regular :
  fst (estimate_pose c (Some prev)) =
  mkPose (fin_mat3 (rmatmul3 delta P)) (pos c) (Fin 0, Fin 0, Fin 0, Fin 1).
Proof.
  unfold estimate_pose. cbn [fst].
  rewrite Hz, normalized_fin3, HP, col2_fin, dot_fin3 by assumption.
  rewrite (proj2 (allclose_fin_false _) Hfar). cbn [negb].
  rewrite cross_fin3, norm_fin3.
  fold a b. rewrite regular_delta, matmul3_fin. reflexivity.
Qed.

Lemma estimate_pose_row_regular :
  fst (estimate_pose_row c prev) =
  mkPose (fin_mat3 (rmatmul3 delta P)) (pos c) (Fin 0, Fin 0, Fin 0, Fin 1).
Proof.
  unfold estimate_pose_row. cbn [fst].
  rewrite Hz, normalized_fin3, HP, col2_fin, dot_fin3 by assumption.
  rewrite (proj2 (isclose_fin_false _) Hfar).
  rewrite cross_fin3, norm_fin3.
  assert (Hg : nltb (Fin 0) (Fin (rnorm (rcross (rcol2 P) (normalize z))))
               = true).
  { apply nltb_fin. pose proof (rnorm_nonneg (rcross (rcol2 P) (normalize z))).
    assert (rnorm (rcross (rcol2 P) (normalize z)) <> 0)
      by (intros H0; apply Hx, rnorm_zero_iff, H0).
    lra. }
  rewrite Hg, clip_fin. fold a b.
  rewrite clip_in_range by apply regular_range.
  rewrite regular_delta, matmul3_fin. reflexivity.
Qed.

Lemma regular_angle : 0 < acos (rdot a b) < PI.
Proof.
  pose proof regular_range as Hr.
  pose proof (cross_norm_unit a b Hunit (normalize_unit z Hz0)) as HL.
  assert (Hn0 : rdot (rcross a b) (rcross a b) <> 0).
  { intros H0. apply Hx, rnorm_zero_iff. unfold rnorm. fold a b.
    rewrite H0. apply sqrt_0. }
  apply acos_bound_lt. split.
  - destruct (Req_dec_T (rdot a b) (-1)) as [E | N]; [ | lra].
    exfalso. apply Hn0. rewrite HL, E. ring.
  - destruct (Req_dec_T (rdot a b) 1) as [E | N]; [ | lra].
    exfalso. apply Hn0. rewrite HL, E. ring.
Qed.

End Regular.

End Tracking.

Section TrackingTheorems.

Local Open Scope R_scope.

Import PoseTracker.

Lemma combine_app_same {A B : Type} (l1 l2 : list A) (k1 k2 : list B) :
  length l1 = length k1 ->
  combine (l1 ++ l2) (k1 ++ k2) = combine l1 k1 ++ combine l2 k2.
Proof.
  revert k1. induction l1 as [ | x l1 IH]; intros [ | y k1] H;
    simpl in H; try discriminate.
  - reflexivity.
  - simpl. f_equal. apply IH. lia.
Qed.

(** A row of a batch is tracked as [estimate_pose_row] tracks it, wherever
    it stands in the batch. *)
Lemma estimate_pose_batch_at (cs cs' ps ps' : list pose) (c p : pose) :
  length cs = length ps -> length cs' = length ps' ->
  exists before after store,
    estimate_pose_batch (cs ++ c :: cs') (ps ++ p :: ps') =
      Some (before ++ fst (estimate_pose_row c p) :: after, store) /\
    length before = length cs /\ length after = length cs'.
Proof.
  intros H1 H2.
  rewrite estimate_pose_batch_rows
    by (rewrite !length_app; simpl; lia).
  rewrite combine_app_same by assumption. simpl. rewrite map_app. simpl.
  do 3 eexists. split; [reflexivity | ].
  rewrite !length_map, !length_combine. lia.
Qed.

(** C5, amended: when the previous Z axis is a unit vector, the cosine
    between the two Z axes is outside the closeness tolerance of 1 and the
    axes are not anti-parallel, [estimate_pose] and [estimate_pose_batch]
    return the rotation [delta_rotation @ prev_rot], where [delta_rotation]
    is the rotation about the normalised cross product of the two axes by
    the angle between them and carries the previous Z axis onto the
    current one; the position is the current position and the last row is
    [0, 0, 0, 1].  Of the current rotation only the third column [z] is
    used. *)
Theorem estimate_pose_tracks_by_alignment :
  forall (curr_pose prev_pose : pose) (z : Rvec3) (prev_rot : Rmat3),
    col2 (rot curr_pose) = fin3 z ->
    z <> (0, 0, 0) ->
    rot prev_pose = fin_mat3 prev_rot ->
    rdot (rcol2 prev_rot) (rcol2 prev_rot) = 1 ->
    ~ close_to_one (rdot (rcol2 prev_rot) (normalize z)) ->
    rcross (rcol2 prev_rot) (normalize z) <> (0, 0, 0) ->
    let prev_z := rcol2 prev_rot in
    let curr_z := normalize z in
    let angle := acos (rdot prev_z curr_z) in
    let delta_rotation :=
      axis_angle_matrix (normalize (rcross prev_z curr_z)) angle in
    let tracked :=
      mkPose (fin_mat3 (rmatmul3 delta_rotation prev_rot)) (pos curr_pose)
             (Fin 0, Fin 0, Fin 0, Fin 1) in
    fst (estimate_pose curr_pose (Some prev_pose)) = tracked /\
    (forall cs cs' ps ps',
        length cs = length ps -> length cs' = length ps' ->
        exists before after store,
          estimate_pose_batch (cs ++ curr_pose :: cs')
                              (ps ++ prev_pose :: ps') =
            Some (before ++ tracked :: after, store) /\
          length before = length cs /\ length after = length cs') /\
    rmat_vec delta_rotation prev_z = curr_z /\
    cos angle = rdot prev_z curr_z /\
    0 < angle < PI /\
    tracks_by_alignment tracked prev_rot z (pos curr_pose).
Proof.
  intros c prev z P Hz Hz0 HP Hunit Hfar Hx prev_z curr_z angle delta tracked.
  assert (Hal : rmat_vec delta prev_z = curr_z).
  { apply axis_angle_aligns;
      [exact Hunit | apply normalize_unit, Hz0 | exact Hx]. }
  split; [ | split; [ | split; [ | split; [ | split ] ] ] ].
  - apply (estimate_pose_regular c prev z P); assumption.
  - intros cs cs' ps ps' H1 H2.
    destruct (estimate_pose_batch_at cs cs' ps ps' c prev H1 H2)
      as (before & after & store & Hb & Hl).
    rewrite (estimate_pose_row_regular c prev z P) in Hb by assumption.
    exists before, after, store. split; assumption.
  - exact Hal.
  - apply cos_acos. apply (regular_range z P); assumption.
  - apply (regular_angle z P); assumption.
  - exists delta. split; [exact Hal | reflexivity].
Qed.

End TrackingTheorems.

Section TrackingExamples.

Local Open Scope R_scope.

Import PoseTracker.

Lemma normalize_of_unit (z : Rvec3) : rdot z z = 1 -> normalize z = z.
Proof.
  intros H. unfold normalize, rnorm. rewrite H, sqrt_1.
  destruct z as [[x y] w]. unfold rdivide. entrywise; field.
Qed.

(** A quarter turn about X against the identity: the tracked pose is the
    aligning rotation times the previous rotation. *)
Lemma estimate_pose_tracks_by_alignment_witness :
  let curr_pose :=
    pose_of_array
      ((1, 0, 0, 0), (0, 0, -1, 0), (0, 1, 0, 0), (0, 0, 0, 1)) in
  tracks_by_alignment (fst (estimate_pose curr_pose (Some eye4)))
    ((1, 0, 0), (0, 1, 0), (0, 0, 1)) (0, -1, 0) (pos curr_pose).
Proof.
  intros curr_pose.
  assert (Hu : rdot (0, -1, 0) (0, -1, 0) = 1) by (unfold rdot; ring).
  assert (Hn : normalize (0, -1, 0) = (0, -1, 0))
    by (apply normalize_of_unit, Hu).
  destruct (estimate_pose_tracks_by_alignment curr_pose eye4 (0, -1, 0)
              ((1, 0, 0), (0, 1, 0), (0, 0, 1)))
    as (Hs & _ & _ & _ & _ & Ht).
  - reflexivity.
  - intros H. injection H as H. lra.
  - reflexivity.
  - unfold rcol2, rdot. ring.
  - rewrite Hn. unfold rcol2, rdot, close_to_one, atol, rtol.
    replace (0 * 0 + 0 * -1 + 1 * 0 - 1) with (-1) by ring.
    rewrite Rabs_left by lra. rewrite Rabs_right by lra. lra.
  - rewrite Hn. unfold rcol2, rcross. intros H. injection H as H _ _. lra.
  - rewrite Hs. exact Ht.
Defined.

Lemma tilt_unit : rdot (0, - tilt_sin, tilt_cos) (0, - tilt_sin, tilt_cos) = 1.
Proof. unfold rdot, tilt_sin, tilt_cos. field. Qed.

Lemma tilt_close : close_to_one tilt_cos.
Proof.
  unfold close_to_one, tilt_cos, atol, rtol.
  rewrite Rabs_left by lra. rewrite Rabs_right by lra. lra.
Qed.

(** Within the closeness tolerance the delta rotation is the identity. *)
Lemma estimate_pose_close (c prev : pose) (z : Rvec3) (P : Rmat3) :
  col2 (rot c) = fin3 z -> z <> (0, 0, 0) -> rot prev = fin_mat3 P ->
  close_to_one (rdot (rcol2 P) (normalize z)) ->
  fst (estimate_pose c (Some prev)) =
  mkPose (fin_mat3 P) (pos c) (Fin 0, Fin 0, Fin 0, Fin 1).
Proof.
  intros Hz Hz0 HP Hc. unfold estimate_pose. cbn [fst].
  rewrite Hz, normalized_fin3, HP, col2_fin, dot_fin3 by assumption.
  rewrite (proj2 (allclose_fin _) Hc). cbn [negb].
  rewrite matmul3_eye3_l. reflexivity.
Qed.

(** C5 as stated fails between parallel and the closeness tolerance: the
    current pose is the identity tilted about X by two milliradians, its Z
    axis is not parallel to the previous one, and the tracked rotation is
    the previous rotation unchanged, which does not carry the previous Z
    axis onto the current one. *)
Lemma estimate_pose_near_parallel_not_aligned :
  let curr_pose :=
    pose_of_array
      ((1, 0, 0, 0),
       (0, tilt_cos, - tilt_sin, 0),
       (0, tilt_sin, tilt_cos, 0),
       (0, 0, 0, 1)) in
  let prev_rot : Rmat3 := ((1, 0, 0), (0, 1, 0), (0, 0, 1)) in
  let z := (0, - tilt_sin, tilt_cos) in
  col2 (rot curr_pose) = fin3 z /\
  rcross (rcol2 prev_rot) (normalize z) <> (0, 0, 0) /\
  rot (fst (estimate_pose curr_pose (Some eye4))) = fin_mat3 prev_rot /\
  ~ tracks_by_alignment (fst (estimate_pose curr_pose (Some eye4)))
      prev_rot z (pos curr_pose).
Proof.
  intros curr_pose prev_rot z.
  assert (Hn : normalize z = z) by (apply normalize_of_unit, tilt_unit).
  assert (Hz0 : z <> (0, 0, 0)).
  { intros H. injection H as H1 H2. unfold tilt_cos in H2. lra. }
  assert (He : fst (estimate_pose curr_pose (Some eye4)) =
               mkPose (fin_mat3 prev_rot) (pos curr_pose)
                      (Fin 0, Fin 0, Fin 0, Fin 1)).
  { apply (estimate_pose_close curr_pose eye4 z prev_rot);
      try reflexivity; try assumption.
    rewrite Hn. unfold prev_rot, z, rcol2, rdot.
    replace (0 * 0 + 0 * - tilt_sin + 1 * tilt_cos) with tilt_cos by ring.
    apply tilt_close. }
  split; [reflexivity | split; [ | split ] ].
  - rewrite Hn. unfold prev_rot, z, rcol2, rcross. intros H.
    injection H as H _ _. unfold tilt_sin in H. lra.
  - rewrite He. reflexivity.
  - intros (D & Hal & Htf). rewrite He, Hn in *.
    injection Htf as Hrot.
    destruct D as [[[[d00 d01] d02] [[d10 d11] d12]] [[d20 d21] d22]].
    unfold prev_rot, z, rcol2, rmat_vec, rdot in Hal.
    unfold prev_rot, rmatmul3, rtranspose3, rdot, fin_mat3, fin3 in Hrot.
    injection Hal as A0 A1 A2. injection Hrot as R00 R01 R02 R10 R11 R12.
    unfold tilt_sin in *. lra.
Qed.

End TrackingExamples.

Section BatchFinite.

Local Open Scope R_scope.

Import PoseTracker.





(** The unguarded [np.arccos] of [estimate_pose]: a cosine below -1, as a
    previous Z axis longer than one produces, makes the tracked rotation
    NaN, whatever the cross product is. *)
Lemma estimate_pose_cos_below_range_nan (c prev : pose) (z a : Rvec3) :
  col2 (rot c) = fin3 z -> z <> (0, 0, 0) ->
  col2 (rot prev) = fin3 a ->
  rdot a (normalize z) < -1 ->
  rot (fst (estimate_pose c (Some prev))) = nan_mat3.
Proof.
  intros Hz Hz0 Ha Hc. unfold estimate_pose. cbn [fst rot].
  rewrite Hz, normalized_fin3, Ha, dot_fin3 by assumption.
  assert (Hfar : ~ close_to_one (rdot a (normalize z))).
  { unfold close_to_one, atol, rtol. rewrite Rabs_left by lra.
    rewrite Rabs_right by lra. lra. }
  rewrite (proj2 (allclose_fin_false _) Hfar). cbn [negb].
  assert (Hacos : narccos (Fin (rdot a (normalize z))) = NaN).
  { unfold narccos. destruct (Rle_dec (-1) (rdot a (normalize z))); [lra | ].
    reflexivity. }
  rewrite Hacos.
  destruct (vdiv _ _) as [[k0 k1] k2]. cbn [vscale nmul lift2].
  fold nan3. rewrite from_rotvec_nan3. apply matmul3_nan_l.
Qed.

End BatchFinite.

(* ================================================================== *)
(** * The contact scores *)
(* ================================================================== *)

Section ScoreFacts.

Local Open Scope Q_scope.

Lemma Qltb_true (a b : Q) : Qltb a b = true <-> a < b.
Proof.
  unfold Qltb. rewrite negb_true_iff. split.
  - intros H. apply Qnot_le_lt. intros Hle.
    apply Qle_bool_iff in Hle. congruence.
  - intros H. apply not_true_is_false. intros Hle.
    apply Qle_bool_iff in Hle. apply (Qlt_not_le _ _ H Hle).
Qed.

Lemma Qltb_false (a b : Q) : Qltb a b = false <-> b <= a.
Proof.
  unfold Qltb. rewrite negb_false_iff. apply Qle_bool_iff.
Qed.

Lemma qmaximum_cases (a b : Q) :
  (b <= a /\ qmaximum a b = a) \/ (a < b /\ qmaximum a b = b).
Proof.
  unfold qmaximum. destruct (Qle_bool b a) eqn:E.
  - left. split; [apply Qle_bool_iff, E | reflexivity].
  - right. split; [ | reflexivity]. apply Qnot_le_lt. intros H.
    apply Qle_bool_iff in H. congruence.
Qed.

Lemma qminimum_cases (a b : Q) :
  (a <= b /\ qminimum a b = a) \/ (b < a /\ qminimum a b = b).
Proof.
  unfold qminimum. destruct (Qle_bool a b) eqn:E.
  - left. split; [apply Qle_bool_iff, E | reflexivity].
  - right. split; [ | reflexivity]. apply Qnot_le_lt. intros H.
    apply Qle_bool_iff in H. congruence.
Qed.

(** A clipped value lies between the bounds, when the bounds are ordered. *)
Lemma qclip_range (x lo hi : Q) : lo <= hi -> lo <= qclip x lo hi <= hi.
Proof.
  intros Hb. unfold qclip.
  destruct (qmaximum_cases x lo) as [[H1 ->] | [H1 ->]];
    destruct (qminimum_cases x hi) as [[H2 E2] | [H2 E2]];
    destruct (qminimum_cases lo hi) as [[H3 E3] | [H3 E3]];
    rewrite ?E2, ?E3; split; lra.
Qed.

(** Overwriting the distances beyond the threshold before clipping them
    changes nothing. *)
Lemma overwrite_then_clip (t x : Q) :
  0 < t -> qclip (if Qltb t x then t else x) 0 t = qclip x 0 t.
Proof.
  intros Ht. destruct (Qltb t x) eqn:E; [ | reflexivity].
  apply Qltb_true in E. unfold qclip.
  destruct (qmaximum_cases t 0) as [[H1 ->] | [H1 ->]]; [ | lra].
  destruct (qmaximum_cases x 0) as [[H2 ->] | [H2 ->]]; [ | lra].
  destruct (qminimum_cases t t) as [[H3 ->] | [H3 ->]];
    destruct (qminimum_cases x t) as [[H4 ->] | [H4 ->]];
    reflexivity || lra.
Qed.

Lemma score_distances_map (di : list Q) (t : Q) :
  0 < t -> score_distances di t = map (spec_score t) di.
Proof.
  intros Ht. unfold score_distances. rewrite !map_map.
  apply map_ext. intros x. unfold spec_score.
  rewrite overwrite_then_clip by assumption. reflexivity.
Qed.

Lemma spec_score_range (t d : Q) : 0 <= spec_score t d <= 1.
Proof.
  unfold spec_score. cbv zeta.
  assert (H : 0 <= qclip (1 - qclip d 0 t / t) 0 1 <= 1)
    by (apply qclip_range; lra).
  destruct (Qltb _ _); lra.
Qed.

(** The value of a clip, up to the equality of rationals. *)
Lemma qclip_spec (x lo hi : Q) :
  lo <= hi ->
  (x <= lo /\ qclip x lo hi == lo) \/
  (lo <= x <= hi /\ qclip x lo hi == x) \/
  (hi <= x /\ qclip x lo hi == hi).
Proof.
  intros Hb. unfold qclip.
  destruct (qmaximum_cases x lo) as [[H1 ->] | [H1 ->]].
  - destruct (qminimum_cases x hi) as [[H2 ->] | [H2 ->]].
    + right. left. split; [split; assumption | reflexivity].
    + right. right. split; [lra | reflexivity].
  - destruct (qminimum_cases lo hi) as [[H2 ->] | [H2 ->]].
    + left. split; [lra | reflexivity].
    + lra.
Qed.

Lemma spec_score_unfold (t d : Q) :
  spec_score t d =
  let s := qclip (1 - qclip d 0 t / t) 0 1 in
  if Qltb (1 # 10) s then 1 else s.
Proof. reflexivity. Qed.

(** At or beyond the threshold the score is 0. *)
Lemma spec_score_far (t d : Q) : 0 < t -> t <= d -> spec_score t d == 0.
Proof.
  intros Ht Hd. rewrite spec_score_unfold. cbv zeta.
  assert (Hc : qclip d 0 t == t).
  { destruct (qclip_spec d 0 t) as [[H E] | [[H E] | [H E]]]; lra. }
  assert (Hx : 1 - qclip d 0 t / t == 0).
  { rewrite Hc. field. lra. }
  assert (Hs : qclip (1 - qclip d 0 t / t) 0 1 == 0).
  { destruct (qclip_spec (1 - qclip d 0 t / t) 0 1)
      as [[H E] | [[H E] | [H E]]]; lra. }
  destruct (Qltb _ _) eqn:E.
  - apply Qltb_true in E. lra.
  - exact Hs.
Qed.

Lemma clipped_ratio (t d c : Q) :
  0 < t -> 0 <= c -> c <= t ->
  0 <= 1 - c / t <= 1.
Proof.
  intros Ht H0 H1.
  assert (0 <= c / t) by (apply Qle_shift_div_l; lra).
  assert (c / t <= 1) by (apply Qle_shift_div_r; lra).
  lra.
Qed.



End ScoreFacts.

Section ScoreTheorems.

Local Open Scope Q_scope.

Lemma nth_map_score (t : Q) (di : list Q) (i : nat) :
  (i < length di)%nat ->
  nth i (map (spec_score t) di) 0 = spec_score t (nth i di 0).
Proof.
  intros Hi. rewrite (nth_indep _ 0 (spec_score t 0))
    by (rewrite length_map; exact Hi).
  apply map_nth.
Qed.




End ScoreTheorems.

Section DropoutFacts.

Local Open Scope Q_scope.

Lemma set_nth_length (i : nat) (v : Q) (d : list Q) :
  length (set_nth i v d) = length d.
Proof.
  revert i. induction d as [ | h t IH]; intros [ | j]; simpl;
    try reflexivity.
  f_equal. apply IH.
Qed.

Lemma set_nth_same (i : nat) (v : Q) (d : list Q) :
  (i < length d)%nat -> nth i (set_nth i v d) 0 = v.
Proof.
  revert i. induction d as [ | h t IH]; intros [ | j] Hi; simpl in *;
    try lia; try reflexivity.
  apply IH. lia.
Qed.

Lemma set_nth_other (i j : nat) (v : Q) (d : list Q) :
  i <> j -> nth j (set_nth i v d) 0 = nth j d 0.
Proof.
  revert i j. induction d as [ | h t IH]; intros [ | i] [ | j] Hij; simpl;
    try reflexivity; try contradiction.
  apply IH. lia.
Qed.

Lemma set_all_length (indices : list nat) (v : Q) (d : list Q) :
  length (set_all indices v d) = length d.
Proof.
  unfold set_all. revert d.
  induction indices as [ | i l IH]; intros d; simpl.
  - reflexivity.
  - rewrite IH. apply set_nth_length.
Qed.

Lemma set_all_out (indices : list nat) (v : Q) (d : list Q) (j : nat) :
  ~ In j indices -> nth j (set_all indices v d) 0 = nth j d 0.
Proof.
  unfold set_all. revert d.
  induction indices as [ | i l IH]; intros d Hj; simpl.
  - reflexivity.
  - rewrite IH by (intros H; apply Hj; right; exact H).
    apply set_nth_other. intros ->. apply Hj. left. reflexivity.
Qed.

Lemma set_all_in (indices : list nat) (v : Q) (d : list Q) (j : nat) :
  In j indices -> (j < length d)%nat -> nth j (set_all indices v d) 0 = v.
Proof.
  unfold set_all. revert d.
  induction indices as [ | i l IH]; intros d Hj Hlen; simpl.
  - contradiction.
  - destruct (in_dec Nat.eq_dec j l) as [Hin | Hout].
    + apply IH; [exact Hin | rewrite set_nth_length; exact Hlen].
    + destruct Hj as [-> | Hin]; [ | contradiction].
      fold (set_all l v (set_nth j v d)).
      rewrite set_all_out by assumption.
      apply set_nth_same, Hlen.
Qed.

(** The positions [np.where(d == 1.0)] returns. *)
Lemma where_one_spec (d : list Q) (i : nat) :
  In i (where_one d) <-> (i < length d)%nat /\ nth i d 0 == 1.
Proof.
  unfold where_one. rewrite filter_In, in_seq, Qeq_bool_iff.
  split; intros [H1 H2]; split; try assumption; lia.
Qed.

Lemma where_one_NoDup (d : list Q) : NoDup (where_one d).
Proof. apply NoDup_filter, seq_NoDup. Qed.

Lemma fold_Qplus_ones (l : list Q) (acc : Q) :
  Forall (fun x => x == 1) l ->
  fold_left Qplus l acc == acc + inject_Z (Z.of_nat (length l)).
Proof.
  revert acc. induction l as [ | x l IH]; intros acc Hall.
  - simpl. unfold inject_Z. ring.
  - pose proof (Forall_inv Hall) as Hx. cbv beta in Hx.
    pose proof (Forall_inv_tail Hall) as Hl.
    cbn [fold_left]. rewrite IH by assumption.
    cbn [length]. rewrite Nat2Z.inj_succ.
    unfold Z.succ. rewrite inject_Z_plus.
    change (inject_Z 1) with 1. lra.
Qed.

(** The sum of the scores at positions that all hold 1 is their number. *)
Lemma sum_at_ones (d : list Q) (indices : list nat) :
  (forall i, In i indices -> nth i d 0 == 1) ->
  sum_at d indices == inject_Z (Z.of_nat (length indices)).
Proof.
  intros H. unfold sum_at.
  rewrite fold_Qplus_ones.
  - rewrite length_map. ring.
  - apply Forall_forall. intros x Hx. apply in_map_iff in Hx.
    destruct Hx as (i & <- & Hi). apply H, Hi.
Qed.

(** [int(x)] of a rational between 0 and [k]. *)
Lemma py_int_bounds (x : Q) (k : nat) :
  0 <= x -> x <= inject_Z (Z.of_nat k) ->
  (0 <= py_int x <= Z.of_nat k)%Z.
Proof.
  intros H0 Hk. unfold py_int.
  destruct x as [n dn]. unfold Qle in *. simpl in *.
  rewrite Z.mul_1_r in *.
  assert (0 <= n)%Z by lia.
  rewrite Z.quot_div_nonneg by lia.
  split.
  - apply Z.div_pos; lia.
  - apply Z.div_le_upper_bound; lia.
Qed.

End DropoutFacts.

Section DropoutTheorem.

Local Open Scope Q_scope.

Lemma NoDup_firstn_of {A : Type} (n : nat) (l : list A) :
  NoDup l -> NoDup (firstn n l).
Proof.
  intros H. rewrite <- (firstn_skipn n l) in H.
  apply NoDup_app_remove_r in H. exact H.
Qed.

Lemma In_firstn_of {A : Type} (n : nat) (l : list A) (x : A) :
  In x (firstn n l) -> In x l.
Proof.
  intros H. rewrite <- (firstn_skipn n l). apply in_or_app. left. exact H.
Qed.

Section Drawn.

Variables (d : list Q) (shuffle : list nat -> list nat) (u : Q).
Hypothesis shuffle_perm : forall l, Permutation (shuffle l) l.
Hypothesis u_range : 0 <= u <= 1 # 10.

Let indices := shuffle (where_one d).
Let num_idx := py_int (sum_at d indices * u).
Let chosen := py_prefix indices num_idx.

Lemma indices_hold_one (i : nat) :
  In i indices -> (i < length d)%nat /\ nth i d 0 == 1.
Proof.
  intros H. apply where_one_spec.
  apply (Permutation_in _ (shuffle_perm (where_one d))). exact H.
Qed.

Lemma indices_NoDup : NoDup indices.
Proof.
  apply (Permutation_NoDup (Permutation_sym (shuffle_perm (where_one d)))).
  apply where_one_NoDup.
Qed.

Lemma sum_is_count :
  sum_at d indices == inject_Z (Z.of_nat (length indices)).
Proof. apply sum_at_ones. intros i Hi. apply (indices_hold_one i Hi). Qed.

Lemma num_idx_bounds : (0 <= num_idx <= Z.of_nat (length indices))%Z.
Proof.
  unfold num_idx. pose proof sum_is_count as Hs.
  assert (Hk : 0 <= inject_Z (Z.of_nat (length indices))).
  { change 0 with (inject_Z 0). rewrite <- Zle_Qle. lia. }
  apply py_int_bounds.
  - rewrite Hs. apply Qmult_le_0_compat; lra.
  - rewrite Hs. nra.
Qed.

Lemma chosen_prefix : chosen = firstn (Z.to_nat num_idx) indices.
Proof.
  unfold chosen, py_prefix. pose proof num_idx_bounds as Hb.
  destruct (num_idx <? 0)%Z eqn:E; [ | reflexivity].
  apply Z.ltb_lt in E. lia.
Qed.

Lemma chosen_length : length chosen = Z.to_nat num_idx.
Proof.
  rewrite chosen_prefix. apply firstn_length_le.
  pose proof num_idx_bounds. lia.
Qed.

Lemma chosen_hold_one (i : nat) :
  In i chosen -> (i < length d)%nat /\ nth i d 0 == 1.
Proof.
  rewrite chosen_prefix. intros H.
  apply indices_hold_one, (In_firstn_of _ _ _ H).
Qed.

Lemma dropout_unfold :
  dropout d shuffle u =
  if (0 <? length (where_one d))%nat then set_all chosen 0 d else d.
Proof. reflexivity. Qed.

(** Without an entry at 1 nothing is drawn. *)
Lemma no_indices_no_choice : where_one d = [] -> chosen = [].
Proof.
  intros H. rewrite chosen_prefix. unfold indices. rewrite H.
  rewrite (Permutation_nil (Permutation_sym (shuffle_perm []))).
  apply firstn_nil.
Qed.

Lemma dropout_set_all : dropout d shuffle u = set_all chosen 0 d.
Proof.
  rewrite dropout_unfold.
  destruct (0 <? length (where_one d))%nat eqn:E; [reflexivity | ].
  apply Nat.ltb_ge in E.
  rewrite no_indices_no_choice; [reflexivity | ].
  destruct (where_one d); [reflexivity | simpl in E; lia].
Qed.

Lemma dropout_at (i : nat) :
  (In i chosen /\ nth i (dropout d shuffle u) 0 = 0) \/
  (~ In i chosen /\ nth i (dropout d shuffle u) 0 = nth i d 0).
Proof.
  rewrite dropout_set_all.
  destruct (in_dec Nat.eq_dec i chosen) as [Hin | Hout].
  - left. split; [exact Hin | ].
    apply set_all_in; [exact Hin | apply (chosen_hold_one i Hin)].
  - right. split; [exact Hout | apply set_all_out, Hout].
Qed.

Lemma zeroed_is_chosen (i : nat) :
  In i (zeroed d (dropout d shuffle u)) <-> In i chosen.
Proof.
  unfold zeroed. rewrite filter_In, in_seq, andb_true_iff, !Qeq_bool_iff.
  destruct (dropout_at i) as [[Hin E] | [Hout E]]; rewrite E.
  - destruct (chosen_hold_one i Hin) as [Hl H1].
    split; [intros _; exact Hin | intros _].
    split; [lia | split; [exact H1 | reflexivity] ].
  - split; [ | intros H; contradiction].
    intros (_ & H1 & H0). rewrite H1 in H0. discriminate H0.
Qed.

Lemma zeroed_count :
  length (zeroed d (dropout d shuffle u)) = Z.to_nat num_idx.
Proof.
  rewrite <- chosen_length. apply Permutation_length.
  apply NoDup_Permutation.
  - apply NoDup_filter, seq_NoDup.
  - rewrite chosen_prefix. apply NoDup_firstn_of, indices_NoDup.
  - apply zeroed_is_chosen.
Qed.

End Drawn.

End DropoutTheorem.

Section DropoutClaim.

Local Open Scope Q_scope.

(** C3: the dropout zeroes only entries whose score is 1; their number is
    [int(S * u)], where [S] is the sum of the scores at the entries holding
    1 and [u] the uniform draw from [0, 0.1]; entries below 1 are left as
    they are; and the number depends on the data, not on the length of the
    array alone. *)
Theorem dropout_zeroes_ones :
  forall (d : list Q) (shuffle : list nat -> list nat) (u : Q),
    (forall l, Permutation (shuffle l) l) ->
    0 <= u <= 1 # 10 ->
    let d' := dropout d shuffle u in
    let S := sum_at d (shuffle (where_one d)) in
    length d' = length d /\
    (forall i, ~ nth i d 0 == 1 -> nth i d' 0 = nth i d 0) /\
    (forall i, nth i d' 0 <> nth i d 0 -> nth i d 0 == 1 /\ nth i d' 0 = 0) /\
    length (zeroed d d') = Z.to_nat (py_int (S * u)) /\
    S == inject_Z (Z.of_nat (length (where_one d))) /\
    (exists d1 d2 : list Q,
        length d1 = length d2 /\
        length (zeroed d1 (dropout d1 (fun l => l) (1 # 10))) <>
        length (zeroed d2 (dropout d2 (fun l => l) (1 # 10)))).
Proof.
  intros d shuffle u Hperm Hu d' S.
  split; [ | split; [ | split; [ | split; [ | split ] ] ] ].
  - unfold d'. rewrite dropout_set_all by assumption. apply set_all_length.
  - intros i Hi. unfold d'.
    destruct (dropout_at d shuffle u Hperm Hu i) as [[Hin _] | [_ E]].
    + exfalso. apply Hi.
      apply (chosen_hold_one d shuffle u Hperm Hu i Hin).
    + exact E.
  - intros i Hi. unfold d' in *.
    destruct (dropout_at d shuffle u Hperm Hu i) as [[Hin E] | [_ E]].
    + split; [ | exact E].
      apply (chosen_hold_one d shuffle u Hperm Hu i Hin).
    + contradiction.
  - apply zeroed_count; assumption.
  - unfold S. rewrite (sum_is_count d shuffle Hperm).
    rewrite (Permutation_length (Hperm (where_one d))). reflexivity.
  - exists (repeat 1 20), (repeat 1 10 ++ repeat 0 10).
    split; [reflexivity | ]. vm_compute. discriminate.
Qed.

(** Twenty entries at 1, the index array reversed and the largest draw:
    two entries are zeroed. *)
Lemma dropout_zeroes_ones_witness :
  let d := repeat 1 20 in
  length (zeroed d (dropout d (@rev nat) (1 # 10))) = 2%nat /\
  length (dropout d (@rev nat) (1 # 10)) = 20%nat.
Proof.
  intros d.
  assert (Hperm : forall l : list nat, Permutation (rev l) l)
    by (intros l; apply Permutation_sym, Permutation_rev).
  assert (Hu : 0 <= 1 # 10 <= 1 # 10) by (split; discriminate).
  destruct (dropout_zeroes_ones d (@rev nat) (1 # 10) Hperm Hu)
    as (Hlen & _ & _ & Hcount & _).
  split.
  - rewrite Hcount. reflexivity.
  - rewrite Hlen. reflexivity.
Defined.

End DropoutClaim.

Section QueryFacts.

Lemma xyzquat_to_tf_numpy_length (rows : list xyzquat) (poses : list pose) :
  _xyzquat_to_tf_numpy rows = Some poses -> length poses = length rows.
Proof.
  revert poses. induction rows as [ | r rows IH]; intros poses H.
  - injection H as <-. reflexivity.
  - simpl in H. destruct (xyzquat_to_tf_row r); [ | discriminate].
    destruct (_xyzquat_to_tf_numpy rows) as [Ts | ]; [ | discriminate].
    injection H as <-. simpl. f_equal. apply IH. reflexivity.
Qed.

Lemma apply_transform_length (poses : list pose) (pc : list vec3) :
  length (apply_transform poses pc) = length poses.
Proof. unfold apply_transform. apply length_map. Qed.

Lemma apply_transform_rows (poses : list pose) (pc : list vec3) :
  Forall (fun row => length row = length pc) (apply_transform poses pc).
Proof.
  unfold apply_transform. apply Forall_map, Forall_forall.
  intros T _. apply length_map.
Qed.

Lemma concat_rows_length {A : Type} (rows : list (list A)) (p : nat) :
  Forall (fun row => length row = p) rows ->
  length (concat rows) = (length rows * p)%nat.
Proof.
  induction 1 as [ | row rows Hrow _ IH]; simpl.
  - reflexivity.
  - rewrite length_app, IH, Hrow. reflexivity.
Qed.

(** The flattened distances: one for each pose and sample point. *)
Lemma distances_length (f : vec3 -> Q) (poses : list pose) (pc : list vec3) :
  length (concat (map (map f) (apply_transform poses pc))) =
  (length poses * length pc)%nat.
Proof.
  rewrite (concat_rows_length _ (length pc)).
  - rewrite length_map, apply_transform_length. reflexivity.
  - apply Forall_map.
    eapply Forall_impl; [ | apply apply_transform_rows].
    intros row Hrow. cbv beta. rewrite length_map. exact Hrow.
Qed.

Lemma score_distances_length (di : list Q) (t : Q) :
  length (score_distances di t) = length di.
Proof. unfold score_distances. rewrite !length_map. reflexivity. Qed.

(** Every score lies in [0, 1]: it leaves the last clip in that range and
    the snap only raises it to 1. *)
Lemma score_distances_range (di : list Q) (t x : Q) :
  In x (score_distances di t) -> (0 <= x <= 1)%Q.
Proof.
  unfold score_distances. rewrite !map_map. intros H.
  apply in_map_iff in H. destruct H as (d0 & <- & _).
  set (s := qclip _ 0 1).
  assert (Hc : (0 <= s <= 1)%Q) by (apply qclip_range; discriminate).
  destruct (Qltb (1 # 10) s); [split; discriminate | exact Hc].
Qed.

Lemma dropout_length (d : list Q) (shuffle : list nat -> list nat) (u : Q) :
  length (dropout d shuffle u) = length d.
Proof.
  unfold dropout. destruct (0 <? length (where_one d))%nat.
  - apply set_all_length.
  - reflexivity.
Qed.

Lemma set_nth_In (i : nat) (v x : Q) (d : list Q) :
  In x (set_nth i v d) -> x = v \/ In x d.
Proof.
  revert i. induction d as [ | h t IH]; intros [ | j] H; simpl in *;
    try contradiction.
  - destruct H as [<- | H]; [left; reflexivity | right; right; exact H].
  - destruct H as [<- | H]; [right; left; reflexivity | ].
    destruct (IH j H) as [-> | Hin];
      [left; reflexivity | right; right; exact Hin].
Qed.

Lemma set_all_In (indices : list nat) (v x : Q) (d : list Q) :
  In x (set_all indices v d) -> x = v \/ In x d.
Proof.
  unfold set_all. revert d.
  induction indices as [ | i l IH]; intros d H; simpl in H.
  - right. exact H.
  - destruct (IH _ H) as [-> | Hin]; [left; reflexivity | ].
    apply (set_nth_In i v x d Hin).
Qed.

(** Every entry the dropout returns is 0 or an entry it was given. *)
Lemma dropout_In (d : list Q) (shuffle : list nat -> list nat) (u x : Q) :
  In x (dropout d shuffle u) -> x = 0%Q \/ In x d.
Proof.
  unfold dropout. destruct (0 <? length (where_one d))%nat.
  - apply set_all_In.
  - intros H. right. exact H.
Qed.

Lemma view_rows_whole {A : Type} (l : list A) (n p : nat) :
  (0 < p)%nat -> length l = (n * p)%nat ->
  exists rows,
    view_rows l p = Some rows /\ length rows = n /\
    Forall (fun row => length row = p /\ forall x, In x row -> In x l) rows.
Proof.
  intros Hp Hl. unfold view_rows.
  destruct p as [ | p']; [lia | ]. set (p := S p') in *.
  rewrite Hl, Nat.Div0.mod_mul, Nat.eqb_refl, Nat.div_mul by lia.
  eexists. split; [reflexivity | ]. split.
  - rewrite length_map, length_seq. reflexivity.
  - apply Forall_map, Forall_forall. intros r Hr. apply in_seq in Hr.
    split.
    + rewrite firstn_length_le; [reflexivity | ].
      rewrite length_skipn, Hl. nia.
    + intros x Hx. apply In_firstn_of in Hx.
      rewrite <- (firstn_skipn (r * p) l). apply in_or_app. right. exact Hx.
Qed.

End QueryFacts.

Section AcceptedRows.

Local Open Scope R_scope.

(** SciPy accepts every real quaternion that is not zero. *)
Lemma from_quat_real (x y z w : R) :
  x * x + y * y + z * z + w * w <> 0 ->
  from_quat (Fin x, Fin y, Fin z, Fin w) <> None.
Proof.
  intros Hn. unfold from_quat. cbn [nadd nmul lift2].
  rewrite nsqrt_fin by nra.
  unfold is_zero.
  destruct (Req_dec_T (sqrt (x * x + y * y + z * z + w * w)) 0) as [E | N].
  - exfalso. apply Hn. apply sqrt_eq_0 in E; [exact E | nra].
  - discriminate.
Qed.

Lemma valid_row_accepted (r : xyzquat) :
  valid_row r -> exists T, xyzquat_to_tf_row r = Some T.
Proof.
  intros (p & x & y & z & w & -> & Hn). unfold xyzquat_to_tf_row.
  pose proof (from_quat_real x y z w Hn) as H.
  destruct (from_quat (Fin x, Fin y, Fin z, Fin w)) as [q | ].
  - eexists. reflexivity.
  - contradiction.
Qed.

(** SciPy converts every batch of valid rows. *)
Lemma valid_rows_accepted (rows : list xyzquat) :
  Forall valid_row rows -> exists Ts, _xyzquat_to_tf_numpy rows = Some Ts.
Proof.
  induction 1 as [ | r rows Hr _ [Ts IH] ].
  - exists []. reflexivity.
  - destruct (valid_row_accepted r Hr) as [T HT].
    exists (T :: Ts). cbn [_xyzquat_to_tf_numpy]. rewrite HT, IH. reflexivity.
Qed.

End AcceptedRows.

Section QueryTheorem.

Local Open Scope Q_scope.

(** C4: with the scene built, the object sample of [n_points] points,
    finite pose batches with non-zero quaternions and a threshold other
    than zero, [get_extrinsic_contact] returns one row for each instance,
    each row of [n_points] entries, and every entry lies in [0, 1]. *)
Theorem get_extrinsic_contact_shape_range :
  forall (compute_distance : Mesh -> vec3 -> Q) (self : ExtrinsicContact)
         (scene : Mesh) (object_poses socket_poses : list xyzquat)
         (threshold : Q) (shuffle : list nat -> list nat) (u : Q),
    socket self = Some scene ->
    length (object_pc self) = n_points self ->
    (0 < n_points self)%nat ->
    Forall valid_row object_poses ->
    Forall valid_row socket_poses ->
    ~ threshold == 0 ->
    exists contact,
      get_extrinsic_contact compute_distance self object_poses socket_poses
                            threshold shuffle u = Some contact /\
      length contact = length object_poses /\
      Forall (fun row => length row = n_points self /\
                         Forall (fun x => 0 <= x <= 1) row) contact.
Proof.
  intros dist self scene object_poses socket_poses t shuffle u
         Hscene Hpc Hp Hobj Hsock Ht.
  unfold get_extrinsic_contact.
  destruct (valid_rows_accepted _ Hobj) as [Ts Eo].
  destruct (valid_rows_accepted _ Hsock) as [Ss Es].
  rewrite Eo, Es.
  rewrite Hscene.
  set (di := concat (map (map (dist scene)) (apply_transform Ts _))).
  destruct (view_rows_whole (dropout (score_distances di t) shuffle u)
              (length object_poses) (n_points self) Hp)
    as (rows & Hv & Hlen & Hrows).
  { rewrite dropout_length, score_distances_length. unfold di.
    rewrite distances_length, Hpc.
    rewrite (xyzquat_to_tf_numpy_length _ _ Eo). reflexivity. }
  exists rows. split; [exact Hv | split; [exact Hlen | ] ].
  eapply Forall_impl; [ | exact Hrows].
  intros row [Hrl Hin]. split; [exact Hrl | ].
  apply Forall_forall. intros x Hx.
  destruct (dropout_In _ _ _ _ (Hin x Hx)) as [-> | Hs].
  - split; discriminate.
  - apply (score_distances_range di t x Hs).
Qed.

End QueryTheorem.

Section QueryWitness.

Local Open Scope R_scope.

Lemma identity_row_valid : Forall valid_row [identity_row].
Proof.
  constructor; [ | constructor].
  exists (0, 0, 0), 0, 0, 0, 1. split; [reflexivity | lra].
Qed.

(** The smallest estimator, one instance at the identity pose, a scene
    that reports the distance 0.001 and the default threshold 0.002. *)
Lemma get_extrinsic_contact_shape_range_witness :
  exists contact,
    get_extrinsic_contact (fun _ _ => (1 # 1000)%Q) small_estimator
      [identity_row] [identity_row] (2 # 1000)%Q (fun l => l) (1 # 20)%Q
    = Some contact /\
    length contact = 1%nat /\
    Forall (fun row => length row = 2%nat /\
                       Forall (fun x => (0 <= x <= 1)%Q) row) contact.
Proof.
  apply (get_extrinsic_contact_shape_range (fun _ _ => (1 # 1000)%Q)
           small_estimator (apply_scale triangle (Fin 1))).
  - reflexivity.
  - reflexivity.
  - simpl. lia.
  - exact identity_row_valid.
  - exact identity_row_valid.
  - discriminate.
Defined.

End QueryWitness.

(* ================================================================== *)
(** * The point-cloud merger *)
(* ================================================================== *)

Section MergeFacts.

Lemma map_nth_seq {A : Type} (m : list A) (d : A) :
  map (fun i => nth i m d) (seq 0 (length m)) = m.
Proof.
  induction m as [ | x m IH]; [reflexivity | ].
  cbn [length seq map nth]. f_equal.
  rewrite <- seq_shift, map_map. exact IH.
Qed.

(** Reading a row at a permutation of its positions permutes the row. *)
Lemma take_points_permutation (indices : list nat) (row : list vec3) :
  Permutation indices (seq 0 (length row)) ->
  Permutation (take_points indices row) row.
Proof.
  intros H. unfold take_points.
  apply Permutation_trans
    with (map (fun i => nth i row zero3) (seq 0 (length row))).
  - apply Permutation_map, H.
  - rewrite map_nth_seq. apply Permutation_refl.
Qed.

Lemma take_points_firstn (n : nat) (indices : list nat) (row : list vec3) :
  take_points (firstn n indices) row = firstn n (take_points indices row).
Proof. unfold take_points. symmetry. apply firstn_map. Qed.

Lemma flatten_points_length (row : list vec3) :
  length (flatten_points row) = (3 * length row)%nat.
Proof.
  unfold flatten_points. induction row as [ | [[x y] z] row IH].
  - reflexivity.
  - cbn [flat_map length app]. rewrite IH. lia.
Qed.

(** The loop over the instances: one goal row for each scale, each the
    object sample scaled and moved by the pose of its instance. *)
Lemma scaled_goal_points_rows (pc : list vec3) (Ts : list pose)
    (scales : list num) :
  length Ts = length scales ->
  exists goal,
    scaled_goal_points pc Ts scales = Some goal /\
    length goal = length scales /\
    forall i, (i < length scales)%nat ->
      nth i goal [] =
      map (transform_point (nth i Ts eye4))
          (map (vscale (nth i scales NaN)) pc).
Proof.
  revert Ts. induction scales as [ | s ss IH]; intros [ | T Ts] Hlen;
    simpl in Hlen; try discriminate.
  - exists []. split; [reflexivity | split; [reflexivity | ] ].
    intros i Hi. simpl in Hi. lia.
  - injection Hlen as Hlen. destruct (IH Ts Hlen) as (rest & Hr & Hl & Hn).
    eexists. cbn [scaled_goal_points]. rewrite Hr.
    split; [reflexivity | split; [simpl; lia | ] ].
    intros [ | i] Hi; [reflexivity | ].
    cbn [nth]. apply Hn. simpl in Hi. lia.
Qed.

Lemma cat_dim1_rows (a b : list (list vec3)) :
  length a = length b ->
  exists merged,
    cat_dim1 a b = Some merged /\ length merged = length a /\
    forall i, nth i merged [] = nth i a [] ++ nth i b [].
Proof.
  revert b. induction a as [ | x xs IH]; intros [ | y ys] Hlen;
    simpl in Hlen; try discriminate.
  - exists []. split; [reflexivity | split; [reflexivity | ] ].
    intros [ | i]; reflexivity.
  - injection Hlen as Hlen. destruct (IH ys Hlen) as (rest & Hr & Hl & Hn).
    eexists. cbn [cat_dim1]. rewrite Hr.
    split; [reflexivity | split; [simpl; lia | ] ].
    intros [ | i]; [reflexivity | apply Hn].
Qed.

End MergeFacts.

Section MergeTheorem.

Lemma size1_rows (cloud : list (list vec3)) (p : nat) :
  cloud <> [] -> Forall (fun row => length row = p) cloud -> size1 cloud = p.
Proof.
  intros Hne Hall. destruct cloud as [ | row rest]; [contradiction | ].
  simpl. apply (Forall_inv Hall).
Qed.

Lemma nth_rows_length (cloud : list (list vec3)) (p i : nat) :
  Forall (fun row => length row = p) cloud -> (i < length cloud)%nat ->
  length (nth i cloud []) = p.
Proof.
  intros Hall Hi. rewrite Forall_forall in Hall. apply Hall, nth_In, Hi.
Qed.

(** C9: for an existing cloud of N >= 1 rows of P points, matching batches
    of valid socket poses and of scales, and a sample of P object points,
    [merge_goal_pcl] returns for each instance P points (3 P numbers once
    flattened); they are read from the 2 P points of the existing row
    followed by the scaled and moved goal points, at P distinct positions:
    they form the head of a permutation of that concatenation. *)
Theorem merge_goal_pcl_samples :
  forall (self : ExtrinsicContact) (pcl : list (list vec3))
         (socket_poses : list xyzquat) (plug_scale : list num)
         (randperm : nat -> list nat) (P : nat),
    length (object_pc self) = P ->
    Forall (fun row => length row = P) pcl ->
    pcl <> [] ->
    length socket_poses = length pcl ->
    length plug_scale = length pcl ->
    Forall valid_row socket_poses ->
    (forall n, Permutation (randperm n) (seq 0 n)) ->
    exists Ts sampled,
      _xyzquat_to_tf_numpy socket_poses = Some Ts /\
      merge_goal_pcl self pcl socket_poses plug_scale randperm =
        Some (map flatten_points sampled) /\
      length sampled = length pcl /\
      forall i, (i < length pcl)%nat ->
        let goal :=
          map (transform_point (nth i Ts eye4))
              (map (vscale (nth i plug_scale NaN)) (object_pc self)) in
        let merged := nth i pcl [] ++ goal in
        let row := nth i sampled [] in
        length merged = (2 * P)%nat /\
        length row = P /\
        (forall p, In p row -> In p merged) /\
        (exists rest, Permutation (row ++ rest) merged) /\
        length (flatten_points row) = (3 * P)%nat.
Proof.
  intros self pcl rows scales randperm P HP Hrows Hne Hlr Hls Hq Hperm.
  destruct (valid_rows_accepted _ Hq) as [Ts ETs].
  pose proof (xyzquat_to_tf_numpy_length _ _ ETs) as HTs.
  destruct (scaled_goal_points_rows (object_pc self) Ts scales)
    as (goal & Hg & Hgl & Hgn); [lia | ].
  assert (Hgoal : goal_points self rows scales = Some goal).
  { unfold goal_points. rewrite ETs, Hg.
    destruct goal; [ | reflexivity].
    destruct pcl; [contradiction | simpl in *; lia]. }
  destruct (cat_dim1_rows pcl goal) as (merged & Hm & Hml & Hmn); [lia | ].
  assert (Hmrows : forall i, (i < length pcl)%nat ->
            length (nth i merged []) = (2 * P)%nat).
  { intros i Hi. rewrite Hmn, length_app, (nth_rows_length pcl P i Hrows Hi).
    rewrite Hgn by lia. rewrite !length_map, HP. lia. }
  assert (Hs1 : size1 pcl = P) by (apply size1_rows; assumption).
  assert (Hs2 : size1 merged = (2 * P)%nat).
  { destruct pcl as [ | r0 pcl']; [contradiction | ].
    destruct merged as [ | m0 merged']; [simpl in Hml; lia | ].
    apply (Hmrows 0%nat). simpl. lia. }
  set (perm := randperm (2 * P)%nat).
  set (idx := firstn P perm).
  exists Ts, (map (take_points idx) merged).
  split; [exact ETs | split; [ | split] ].
  - unfold merge_goal_pcl, merge_goal_points.
    rewrite Hgoal, Hm, Hs1, Hs2. reflexivity.
  - rewrite length_map. exact Hml.
  - intros i Hi goal_i merged_i row.
    assert (Hmi : nth i merged [] = merged_i).
    { rewrite Hmn. unfold merged_i, goal_i. rewrite Hgn by lia. reflexivity. }
    assert (Hlen : length merged_i = (2 * P)%nat)
      by (rewrite <- Hmi; apply Hmrows, Hi).
    assert (Hrow : row = firstn P (take_points perm merged_i)).
    { unfold row.
      rewrite (nth_indep _ [] (take_points idx []))
        by (rewrite length_map; lia).
      rewrite (map_nth (take_points idx)), Hmi.
      apply take_points_firstn. }
    assert (Hp : Permutation (take_points perm merged_i) merged_i).
    { apply take_points_permutation. rewrite Hlen. apply Hperm. }
    assert (Hrl : length row = P).
    { rewrite Hrow, firstn_length_le; [reflexivity | ].
      rewrite (Permutation_length Hp). lia. }
    split; [exact Hlen | split; [exact Hrl | split; [ | split] ] ].
    + intros p Hin. rewrite Hrow in Hin.
      apply (Permutation_in _ Hp), (In_firstn_of _ _ _ Hin).
    + exists (skipn P (take_points perm merged_i)).
      rewrite Hrow, firstn_skipn. exact Hp.
    + rewrite flatten_points_length, Hrl. reflexivity.
Qed.

(** The smallest estimator, an existing cloud of one row of two points,
    the identity socket pose, the scale 1 and the identity permutation. *)
Lemma merge_goal_pcl_samples_witness :
  exists out,
    merge_goal_pcl small_estimator
      [[(Fin 5, Fin 5, Fin 5); (Fin 6, Fin 6, Fin 6)]]
      [identity_row] [Fin 1] (seq 0) = Some out /\
    length out = 1%nat /\ length (nth 0 out []) = 6%nat.
Proof.
  destruct (merge_goal_pcl_samples small_estimator
              [[(Fin 5, Fin 5, Fin 5); (Fin 6, Fin 6, Fin 6)]]
              [identity_row] [Fin 1] (seq 0) 2)
    as (Ts & sampled & _ & Hm & Hl & Hrows).
  - reflexivity.
  - repeat constructor.
  - discriminate.
  - reflexivity.
  - reflexivity.
  - exact identity_row_valid.
  - intros n. apply Permutation_refl.
  - exists (map flatten_points sampled).
    split; [exact Hm | split].
    + rewrite length_map. exact Hl.
    + destruct (Hrows 0%nat) as (_ & _ & _ & _ & Hf); [simpl; lia | ].
      rewrite (nth_indep _ [] (flatten_points []))
        by (rewrite length_map, Hl; simpl; lia).
      rewrite (map_nth flatten_points). exact Hf.
Defined.

End MergeTheorem.

(* ================================================================== *)
(** * The cached socket state *)
(* ================================================================== *)

Section StateFacts.

Lemma sample_surface_length (m : Mesh) (count : nat) (rng : nat -> Draw) :
  length (sample_surface m count rng) = count.
Proof. unfold sample_surface. rewrite length_map. apply length_seq. Qed.

Lemma init_sized mesh_obj mesh_socket obj_scale socket_scale socket_pos
    num_envs num_points calc_contact rng_socket rng_obj :
  sized num_points
    (__init__ mesh_obj mesh_socket obj_scale socket_scale socket_pos num_envs
          num_points calc_contact rng_socket rng_obj).
Proof.
  unfold sized, __init__. cbn. rewrite !sample_surface_length. tauto.
Qed.

Lemma step_call_sized (num_points : nat) (self : ExtrinsicContact)
    (c : call) :
  sized num_points self -> sized num_points (step_call self c).
Proof.
  intros (Hn & H1 & H2 & H3 & H4). destruct c as [p rng | | ];
    unfold sized; cbn.
  - rewrite sample_surface_length. tauto.
  - tauto.
  - tauto.
Qed.

Lemma lifetime_sized (num_points : nat) (calls : list call)
    (self : ExtrinsicContact) :
  sized num_points self -> sized num_points (lifetime self calls).
Proof.
  unfold lifetime. revert self.
  induction calls as [ | c calls IH]; intros self H; simpl.
  - exact H.
  - apply IH, step_call_sized, H.
Qed.

(** C7: the surface sampling returns exactly [count] points, so that after
    the construction and after any sequence of later calls, socket
    repositionings included, the sample size is [num_points]: for
    [n_points], for the socket sample and for the object sample. *)
Theorem sample_size_constant :
  forall (mesh_obj mesh_socket : Mesh) (obj_scale socket_scale : num)
         (socket_pos : vec3) (num_envs num_points : nat)
         (calc_contact : bool) (rng_socket rng_obj : nat -> Draw)
         (calls : list call),
    let self :=
      lifetime (__init__ mesh_obj mesh_socket obj_scale socket_scale socket_pos
                     num_envs num_points calc_contact rng_socket rng_obj)
               calls in
    (forall m count rng, length (sample_surface m count rng) = count) /\
    n_points self = num_points /\
    length (socket_pcl self) = num_points /\
    length (pointcloud_obj self) = num_points /\
    length (object_pc self) = num_points.
Proof.
  intros mo ms so ss sp ne np cc rs ro calls self.
  split; [exact sample_surface_length | ].
  destruct (lifetime_sized np calls _
              (init_sized mo ms so ss sp ne np cc rs ro))
    as (Hn & H1 & _ & H3 & H4).
  fold self in Hn, H1, H3, H4. tauto.
Qed.

End StateFacts.

Section Reposition.

Lemma get_pcl_reads (s1 s2 : ExtrinsicContact) :
  object_pc s1 = object_pc s2 -> socket_pc s1 = socket_pc s2 ->
  forall object_poses socket_poses choice,
    get_pcl s1 object_poses socket_poses choice =
    get_pcl s2 object_poses socket_poses choice.
Proof.
  intros Ho Hs object_poses socket_poses choice.
  unfold get_pcl. rewrite Ho, Hs. reflexivity.
Qed.

Lemma get_extrinsic_contact_reads (dist : Mesh -> vec3 -> Q)
    (s1 s2 : ExtrinsicContact) :
  object_pc s1 = object_pc s2 -> socket s1 = socket s2 ->
  n_points s1 = n_points s2 ->
  forall object_poses socket_poses threshold shuffle u,
    get_extrinsic_contact dist s1 object_poses socket_poses threshold
                          shuffle u =
    get_extrinsic_contact dist s2 object_poses socket_poses threshold
                          shuffle u.
Proof.
  intros Ho Hs Hn object_poses socket_poses threshold shuffle u.
  unfold get_extrinsic_contact. rewrite Ho, Hs, Hn. reflexivity.
Qed.

(** C8, amended: [reset_socket_pos] rebuilds the socket mesh (the pristine
    copy, scaled by 1 and moved to the new position), the raycasting scene
    and the surface sample from that mesh alone: two estimators that share
    the pristine copy, the sample size and the object sample agree on all
    three after the same reposition, whatever their socket state was, and
    so do their distance queries.  The cached socket cloud [socket_pc] of
    the construction is kept. *)
Theorem reset_socket_pos_rebuilds_scene :
  forall (compute_distance : Mesh -> vec3 -> Q)
         (self1 self2 : ExtrinsicContact) (p : vec3) (rng : nat -> Draw),
    reset_socket_trimesh self1 = reset_socket_trimesh self2 ->
    n_points self1 = n_points self2 ->
    object_pc self1 = object_pc self2 ->
    let s1 := reset_socket_pos self1 p rng in
    let s2 := reset_socket_pos self2 p rng in
    socket_trimesh s1 =
      mesh_apply_transform
        (apply_scale (reset_socket_trimesh self1) (Fin 1)) (translation p) /\
    socket s1 = Some (socket_trimesh s1) /\
    socket_pcl s1 = sample_surface (socket_trimesh s1) (n_points self1) rng /\
    socket_pos s1 = p /\
    socket_pc s1 = socket_pc self1 /\
    socket_trimesh s1 = socket_trimesh s2 /\
    socket s1 = socket s2 /\
    socket_pcl s1 = socket_pcl s2 /\
    forall object_poses socket_poses threshold shuffle u,
      get_extrinsic_contact compute_distance s1 object_poses socket_poses
                            threshold shuffle u =
      get_extrinsic_contact compute_distance s2 object_poses socket_poses
                            threshold shuffle u.
Proof.
  intros dist self1 self2 p rng Hm Hn Ho s1 s2.
  assert (Hmesh : socket_trimesh s1 = socket_trimesh s2).
  { unfold s1, s2, reset_socket_pos. cbn. rewrite Hm. reflexivity. }
  assert (Hscene : socket s1 = socket s2).
  { unfold s1, s2, reset_socket_pos. cbn. rewrite Hm. reflexivity. }
  repeat match goal with |- _ /\ _ => split end;
    try reflexivity; try assumption.
  - unfold s1, s2, reset_socket_pos. cbn. rewrite Hm, Hn. reflexivity.
  - apply get_extrinsic_contact_reads; assumption.
Qed.

(** Two estimators with different socket states: the smallest one and the
    same after a first reposition. *)
Lemma reset_socket_pos_rebuilds_scene_witness :
  let self1 := small_estimator in
  let self2 :=
    reset_socket_pos small_estimator (Fin 7, Fin 8, Fin 9) second_vertex in
  let p := (Fin 1, Fin 2, Fin 3) in
  socket_pcl (reset_socket_pos self1 p first_vertex) =
  socket_pcl (reset_socket_pos self2 p first_vertex) /\
  socket (reset_socket_pos self1 p first_vertex) =
  socket (reset_socket_pos self2 p first_vertex).
Proof.
  intros self1 self2 p.
  destruct (reset_socket_pos_rebuilds_scene (fun _ _ => 0%Q) self1 self2 p
              first_vertex eq_refl eq_refl eq_refl)
    as (_ & _ & _ & _ & _ & _ & Hs & Hp & _).
  split; [exact Hp | exact Hs].
Defined.

Local Open Scope R_scope.

(** C8 as stated fails on the cached socket cloud: after a reposition of
    the smallest estimator, [socket_pc] is still the cloud drawn at the
    construction, it differs from the sample of the repositioned mesh, and
    [get_pcl] answers as before the reposition. *)
Lemma reset_socket_pos_keeps_socket_pc :
  let self :=
    reset_socket_pos small_estimator (Fin 1, Fin 2, Fin 3) second_vertex in
  socket_pc self = socket_pc small_estimator /\
  socket_pc self <> socket_pcl self /\
  ~ rebuilt_from_new_mesh self second_vertex /\
  forall object_poses socket_poses choice,
    get_pcl self object_poses socket_poses choice =
    get_pcl small_estimator object_poses socket_poses choice.
Proof.
  intros self.
  assert (Hne : socket_pc self <> socket_pcl self).
  { unfold self. cbn. intros H. injection H as H _. lra. }
  split; [reflexivity | split; [exact Hne | split] ].
  - intros (_ & _ & H). exact (Hne H).
  - apply get_pcl_reads; reflexivity.
Qed.

End Reposition.

Section Conversion.

Local Open Scope R_scope.

Lemma quat_sq_pos (q : Rvec4) : quat_sq q <> 0 -> 0 < quat_sq q.
Proof.
  destruct q as [[[x y] z] w]; unfold quat_sq; intros H.
  assert (0 <= x * x + y * y + z * z + w * w) by nra. lra.
Qed.

Lemma quat_sq_zero (q : Rvec4) : quat_sq q = 0 <-> q = (0, 0, 0, 0).
Proof.
  destruct q as [[[x y] z] w]; unfold quat_sq; split.
  - intros H.
    assert (x = 0) by nra. assert (y = 0) by nra.
    assert (z = 0) by nra. assert (w = 0) by nra. subst. reflexivity.
  - intros H; inversion H; ring.
Qed.

Lemma from_quat_zero :
  from_quat (fin4 (0, 0, 0, 0)) = None.
Proof.
  unfold from_quat, fin4. cbn [nadd nmul lift2].
  replace (0 * 0 + 0 * 0 + 0 * 0 + 0 * 0) with 0 by ring.
  rewrite nsqrt_fin by lra. rewrite sqrt_0.
  unfold is_zero. destruct (Req_dec_T 0 0); [reflexivity | lra].
Qed.

Lemma from_quat_unit (q : Rvec4) :
  quat_sq q <> 0 ->
  from_quat (fin4 q) =
  Some (fin4 (let '(x, y, z, w) := q in
              let n := sqrt (quat_sq q) in (x / n, y / n, z / n, w / n))).
Proof.
  intros H. pose proof (quat_sq_pos q H) as Hp.
  destruct q as [[[x y] z] w]. unfold quat_sq in *.
  unfold from_quat, fin4. cbn [nadd nmul lift2].
  rewrite nsqrt_fin by lra.
  assert (Hn : sqrt (x * x + y * y + z * z + w * w) <> 0).
  { intros E. apply sqrt_eq_0 in E; lra. }
  unfold is_zero.
  destruct (Req_dec_T (sqrt (x * x + y * y + z * z + w * w)) 0); [lra|].
  rewrite !ndiv_fin by assumption. reflexivity.
Qed.

Lemma xyzquat_to_tf_row_real (r : Rvec3 * Rvec4) :
  quat_sq (snd r) <> 0 ->
  xyzquat_to_tf_row (fin_row r) = Some (rigid_pose r).
Proof.
  destruct r as [p q]. cbn [snd fst]. intros H.
  unfold xyzquat_to_tf_row, fin_row, rigid_pose. cbn [fst snd].
  rewrite from_quat_unit by assumption.
  pose proof (quat_sq_pos q H) as Hp.
  destruct q as [[[x y] z] w]. unfold quat_sq in *.
  set (n := sqrt (x * x + y * y + z * z + w * w)).
  assert (Hnn : n * n = x * x + y * y + z * z + w * w).
  { unfold n. apply sqrt_sqrt. lra. }
  assert (Hn : n <> 0).
  { intros E. rewrite E in Hnn. lra. }
  unfold fin4, as_matrix, quat_rotation, fin_mat3, fin3.
  cbn [nadd nsub nmul nneg lift1 lift2].
  rewrite <- Hnn.
  f_equal. f_equal.
  entrywise; field; assumption.
Qed.

Lemma xyzquat_to_tf_row_zero (p : Rvec3) :
  xyzquat_to_tf_row (fin_row (p, (0, 0, 0, 0))) = None.
Proof.
  unfold xyzquat_to_tf_row, fin_row. cbn [fst snd].
  rewrite from_quat_zero. reflexivity.
Qed.

Lemma quat_rotation_orthonormal (q : Rvec4) :
  quat_sq q <> 0 -> orthonormal (quat_rotation q).
Proof.
  destruct q as [[[x y] z] w]. unfold quat_sq. intros H.
  unfold orthonormal, quat_rotation, rmatmul3, rtranspose3, rdot, ridentity3.
  entrywise; field; assumption.
Qed.

Lemma quat_rotation_det (q : Rvec4) :
  quat_sq q <> 0 -> rdet3 (quat_rotation q) = 1.
Proof.
  destruct q as [[[x y] z] w]. unfold quat_sq. intros H.
  unfold quat_rotation, rdet3. field. assumption.
Qed.

Lemma quat_rotation_scale (k : R) (q : Rvec4) :
  k <> 0 -> quat_sq q <> 0 ->
  quat_rotation (rscale4 k q) = quat_rotation q.
Proof.
  destruct q as [[[x y] z] w]. unfold quat_sq. intros Hk H.
  unfold quat_rotation, rscale4.
  assert (Hs : k * x * (k * x) + k * y * (k * y) + k * z * (k * z)
               + k * w * (k * w) <> 0).
  { replace (k * x * (k * x) + k * y * (k * y) + k * z * (k * z)
             + k * w * (k * w))
      with (k * k * (x * x + y * y + z * z + w * w)) by ring.
    apply Rmult_integral_contrapositive_currified; [nra | assumption]. }
  entrywise; field; split; assumption.
Qed.

Lemma quat_sq_scale (k : R) (q : Rvec4) :
  quat_sq (rscale4 k q) = k * k * quat_sq q.
Proof. destruct q as [[[x y] z] w]. unfold quat_sq, rscale4. ring. Qed.

End Conversion.

Section ConversionTheorems.

Local Open Scope R_scope.

Lemma xyzquat_to_tf_numpy_real (rows : list (Rvec3 * Rvec4)) :
  Forall (fun r => quat_sq (snd r) <> 0) rows ->
  _xyzquat_to_tf_numpy (map fin_row rows) = Some (map rigid_pose rows).
Proof.
  induction 1 as [|r rows Hr _ IH]; [reflexivity|].
  cbn [map _xyzquat_to_tf_numpy].
  rewrite xyzquat_to_tf_row_real by assumption. rewrite IH. reflexivity.
Qed.

(** X1 ([_xyzquat_to_tf_numpy]).  Every row of finite numbers whose
    quaternion is not zero is converted to a rigid motion: the position is
    the row's position, the last row is [0, 0, 0, 1], and the rotation block
    is the matrix of the normalised quaternion, whose columns are
    orthonormal and whose determinant is 1. *)
Theorem xyzquat_to_tf_numpy_rigid :
  forall rows : list (Rvec3 * Rvec4),
    Forall (fun r => quat_sq (snd r) <> 0) rows ->
    _xyzquat_to_tf_numpy (map fin_row rows) = Some (map rigid_pose rows) /\
    Forall (fun r =>
              pos (rigid_pose r) = fin3 (fst r) /\
              last_row (rigid_pose r) = (Fin 0, Fin 0, Fin 0, Fin 1) /\
              rot (rigid_pose r) = fin_mat3 (quat_rotation (snd r)) /\
              orthonormal (quat_rotation (snd r)) /\
              rdet3 (quat_rotation (snd r)) = 1) rows.
Proof.
  intros rows H. split.
  - apply xyzquat_to_tf_numpy_real; assumption.
  - induction H as [|r rows Hr _ IH]; constructor; [|exact IH].
    split; [reflexivity|]. split; [reflexivity|]. split; [reflexivity|].
    split; [apply quat_rotation_orthonormal | apply quat_rotation_det];
      assumption.
Qed.

Lemma xyzquat_to_tf_numpy_rigid_witness :
  _xyzquat_to_tf_numpy (map fin_row [((1, 2, 3), (0, 0, 3, 4))]) =
    Some (map rigid_pose [((1, 2, 3), (0, 0, 3, 4))]) /\
  orthonormal (quat_rotation (0, 0, 3, 4)).
Proof.
  assert (H : Forall (fun r : Rvec3 * Rvec4 => quat_sq (snd r) <> 0)
                     [((1, 2, 3), (0, 0, 3, 4))]).
  { constructor; [cbn; lra | constructor]. }
  destruct (xyzquat_to_tf_numpy_rigid _ H) as [E F].
  split; [exact E|].
  inversion F as [|r l Hr _]; subst. apply Hr.
Defined.

(** X2 ([_xyzquat_to_tf_numpy]).  The conversion raises exactly when some
    row of the batch has the zero quaternion: a batch of finite rows is
    refused if and only if one of its quaternions is (0, 0, 0, 0), and one
    such row is enough to lose the whole batch. *)
Theorem xyzquat_to_tf_numpy_raises_iff_zero_quaternion :
  forall rows : list (Rvec3 * Rvec4),
    _xyzquat_to_tf_numpy (map fin_row rows) = None <->
    Exists (fun r => snd r = (0, 0, 0, 0)) rows.
Proof.
  intros rows. split.
  - intros H.
    destruct (Forall_Exists_dec (fun r : Rvec3 * Rvec4 => quat_sq (snd r) <> 0)
                (fun r => match Req_dec_T (quat_sq (snd r)) 0 with
                          | left e => right (fun n => n e)
                          | right n => left n
                          end) rows) as [F|E].
    + rewrite xyzquat_to_tf_numpy_real in H by assumption. discriminate.
    + apply Exists_exists in E. destruct E as [r [Hin Hr]].
      apply Exists_exists. exists r. split; [assumption|].
      apply quat_sq_zero.
      destruct (Req_dec_T (quat_sq (snd r)) 0); [assumption|contradiction].
  - induction 1 as [r rows Hr | r rows _ IH].
    + destruct r as [p q]. cbn [snd] in Hr. subst q.
      cbn [map _xyzquat_to_tf_numpy].
      rewrite xyzquat_to_tf_row_zero. reflexivity.
    + cbn [map _xyzquat_to_tf_numpy]. rewrite IH.
      destruct (xyzquat_to_tf_row (fin_row r)); reflexivity.
Qed.

(** X3 ([_xyzquat_to_tf_numpy]).  The quaternion of a row is used up to a
    non-zero factor: multiplying the quaternion of each row by a non-zero
    number of its own, for instance by -1, leaves the converted batch
    unchanged. *)
Theorem xyzquat_to_tf_numpy_quaternion_scale :
  forall rows : list (R * (Rvec3 * Rvec4)),
    Forall (fun kr => fst kr <> 0) rows ->
    _xyzquat_to_tf_numpy
      (map (fun kr => fin_row (fst (snd kr), rscale4 (fst kr) (snd (snd kr))))
           rows) =
    _xyzquat_to_tf_numpy (map (fun kr => fin_row (snd kr)) rows).
Proof.
  induction 1 as [|[k [p q]] rows Hk _ IH]; [reflexivity|].
  cbn [map _xyzquat_to_tf_numpy fst snd] in *. rewrite IH.
  replace (xyzquat_to_tf_row (fin_row (p, rscale4 k q)))
    with (xyzquat_to_tf_row (fin_row (p, q))); [reflexivity|].
  destruct (Req_dec_T (quat_sq q) 0) as [Z|NZ].
  - apply quat_sq_zero in Z. subst q. cbn [rscale4].
    replace (k * 0) with 0 by ring. reflexivity.
  - rewrite !xyzquat_to_tf_row_real.
    + unfold rigid_pose. cbn [fst snd].
      rewrite quat_rotation_scale by assumption. reflexivity.
    + cbn [snd]. rewrite quat_sq_scale.
      apply Rmult_integral_contrapositive_currified; [nra | assumption].
    + exact NZ.
Qed.

Lemma xyzquat_to_tf_numpy_quaternion_scale_witness :
  _xyzquat_to_tf_numpy
    [fin_row ((1, 2, 3), rscale4 (-1) (0, 0, 0, 1))] =
  _xyzquat_to_tf_numpy [fin_row ((1, 2, 3), (0, 0, 0, 1))].
Proof.
  apply (xyzquat_to_tf_numpy_quaternion_scale
           [(-1, ((1, 2, 3), (0, 0, 0, 1)))]).
  constructor; [cbn; lra | constructor].
Defined.

End ConversionTheorems.

Section ApplyTransform.

Local Open Scope R_scope.

Lemma transform_point_real (M : Rmat3) (p a : Rvec3)
    (lr : num * num * num * num) :
  transform_point (mkPose (fin_mat3 M) (fin3 p) lr) (fin3 a) =
  fin3 (radd3 (rmat_vec M a) p).
Proof.
  destruct M as [[[[a0 a1] a2] [[b0 b1] b2]] [[c0 c1] c2]].
  destruct p as [[p0 p1] p2]. destruct a as [[x y] z].
  unfold transform_point, fin_mat3, fin3, radd3, rmat_vec, rdot.
  cbn [rot pos nadd nmul lift2].
  entrywise; ring.
Qed.

Lemma transform_point_eye4 (a : Rvec3) :
  transform_point eye4 (fin3 a) = fin3 a.
Proof.
  destruct a as [[x y] z].
  unfold transform_point, eye4, eye3, zero3, fin3.
  cbn [rot pos nadd nmul lift2].
  entrywise; ring.
Qed.

(** X4 ([apply_transform]).  The identity transform moves nothing: applied
    with a batch of identity poses, such as [plug_pose_no_rot], every row of
    the result is the given cloud of finite points itself. *)
Theorem apply_transform_identity :
  forall (pc : list Rvec3) (n : nat),
    apply_transform (repeat eye4 n) (map fin3 pc) = repeat (map fin3 pc) n.
Proof.
  intros pc n. unfold apply_transform.
  induction n as [|n IH]; [reflexivity|].
  cbn [repeat map]. rewrite IH. f_equal.
  rewrite <- (map_id (map fin3 pc)) at 2.
  apply map_ext_in. intros v Hv.
  apply in_map_iff in Hv. destruct Hv as [a [<- _]].
  apply transform_point_eye4.
Qed.

Lemma pose_of_array_product (A B : Rmat4) (a : Rvec3) :
  homogeneous B ->
  transform_point (pose_of_array (rmatmul4 A B)) (fin3 a) =
  transform_point (pose_of_array A)
                  (transform_point (pose_of_array B) (fin3 a)).
Proof.
  destruct A as [[[[[[a0 a1] a2] a3] [[[b0 b1] b2] b3]]
                    [[[c0 c1] c2] c3]] [[[d0 d1] d2] d3]].
  destruct B as [[[[[[e0 e1] e2] e3] [[[f0 f1] f2] f3]]
                    [[[g0 g1] g2] g3]] h].
  destruct a as [[x y] z].
  unfold homogeneous. intros ->.
  unfold rmatmul4, rtranspose4, rdot4, pose_of_array, transform_point,
    fin_mat3, fin3.
  cbn [rot pos nadd nmul lift2].
  entrywise; ring.
Qed.

(** X5 ([apply_transform]).  Transforms compose: moving a cloud of finite
    points by the matrix product [A @ B] of two homogeneous transforms is
    moving it by [B] and then by [A], for every pose [A] of the batch. *)
Theorem apply_transform_composes :
  forall (poses : list Rmat4) (B : Rmat4) (pc : list Rvec3),
    homogeneous B ->
    apply_transform (map (fun A => pose_of_array (rmatmul4 A B)) poses)
                    (map fin3 pc) =
    apply_transform (map pose_of_array poses)
                    (map (transform_point (pose_of_array B)) (map fin3 pc)).
Proof.
  intros poses B pc HB. unfold apply_transform.
  rewrite !map_map. apply map_ext. intros A.
  rewrite !map_map. apply map_ext. intros a.
  apply pose_of_array_product. exact HB.
Qed.

Lemma apply_transform_composes_witness :
  let A : Rmat4 := ((0, -1, 0, 1), (1, 0, 0, 2), (0, 0, 1, 3), (0, 0, 0, 1)) in
  let B : Rmat4 := ((1, 0, 0, 5), (0, 1, 0, 6), (0, 0, 1, 7), (0, 0, 0, 1)) in
  apply_transform [pose_of_array (rmatmul4 A B)] [fin3 (1, 0, 0)] =
  apply_transform [pose_of_array A]
                  [transform_point (pose_of_array B) (fin3 (1, 0, 0))].
Proof.
  intros A B.
  apply (apply_transform_composes [A] B [(1, 0, 0)]).
  reflexivity.
Defined.

Lemma orthonormal_keeps_dot (M : Rmat3) (u v : Rvec3) :
  orthonormal M -> rdot (rmat_vec M u) (rmat_vec M v) = rdot u v.
Proof.
  destruct M as [[[[a0 a1] a2] [[b0 b1] b2]] [[c0 c1] c2]].
  destruct u as [[u0 u1] u2]. destruct v as [[v0 v1] v2].
  unfold orthonormal, rmatmul3, rtranspose3, rmat_vec, rdot, ridentity3.
  intros H. injection H as H00 H01 H02 H10 H11 H12 H20 H21 H22.
  nsatz.
Qed.

Lemma rigid_move_distance (r : Rvec3 * Rvec4) (a b : Rvec3) :
  quat_sq (snd r) <> 0 ->
  rdist (rigid_move r a) (rigid_move r b) = rdist a b.
Proof.
  intros H. unfold rdist, rnorm. f_equal.
  pose proof (quat_rotation_orthonormal _ H) as HO.
  set (M := quat_rotation (snd r)) in *.
  assert (E : rsub3 (rigid_move r a) (rigid_move r b) =
              rmat_vec M (rsub3 a b)).
  { unfold rigid_move. fold M.
    destruct M as [[[[a0 a1] a2] [[b0 b1] b2]] [[c0 c1] c2]].
    destruct (fst r) as [[p0 p1] p2].
    destruct a as [[x y] z]. destruct b as [[x' y'] z'].
    unfold rsub3, radd3, rmat_vec, rdot.
    repeat match goal with |- (_, _) = (_, _) => apply f_equal2 end; ring. }
  rewrite E. apply orthonormal_keeps_dot. exact HO.
Qed.

(** X6 ([_xyzquat_to_tf_numpy], [apply_transform]).  A converted pose moves
    the cloud rigidly: for rows with a non-zero quaternion, row n of
    [apply_transform] holds the points [R(q_n) a + p_n], and the distance
    between any two moved points is the distance between the two points of
    the given cloud. *)
Theorem apply_transform_rigid :
  forall (rows : list (Rvec3 * Rvec4)) (pc : list Rvec3),
    Forall (fun r => quat_sq (snd r) <> 0) rows ->
    exists Ts,
      _xyzquat_to_tf_numpy (map fin_row rows) = Some Ts /\
      apply_transform Ts (map fin3 pc) =
        map (fun r => map (fun a => fin3 (rigid_move r a)) pc) rows /\
      forall r a b, In r rows ->
        rdist (rigid_move r a) (rigid_move r b) = rdist a b.
Proof.
  intros rows pc H.
  exists (map rigid_pose rows). split; [|split].
  - apply xyzquat_to_tf_numpy_real; assumption.
  - unfold apply_transform. rewrite map_map. apply map_ext. intros r.
    rewrite map_map. apply map_ext. intros a.
    unfold rigid_pose. rewrite transform_point_real. reflexivity.
  - intros r a b Hin. apply rigid_move_distance.
    rewrite Forall_forall in H. apply H. exact Hin.
Qed.

Lemma apply_transform_rigid_witness :
  exists Ts,
    _xyzquat_to_tf_numpy (map fin_row [((1, 2, 3), (0, 0, 3, 4))]) = Some Ts /\
    apply_transform Ts (map fin3 [(1, 0, 0); (0, 1, 0)]) =
      map (fun r => map (fun a => fin3 (rigid_move r a))
                        [(1, 0, 0); (0, 1, 0)])
          [((1, 2, 3), (0, 0, 3, 4))].
Proof.
  destruct (apply_transform_rigid [((1, 2, 3), (0, 0, 3, 4))]
              [(1, 0, 0); (0, 1, 0)]) as [Ts [E [F _]]].
  - constructor; [cbn; lra | constructor].
  - exists Ts. split; assumption.
Defined.

End ApplyTransform.

Section TrackerAlgebra.

Local Open Scope R_scope.
Import PoseTracker.

Lemma rtranspose3_mul (A B : Rmat3) :
  rtranspose3 (rmatmul3 A B) = rmatmul3 (rtranspose3 B) (rtranspose3 A).
Proof.
  destruct A as [[[[a0 a1] a2] [[b0 b1] b2]] [[c0 c1] c2]].
  destruct B as [[[[d0 d1] d2] [[e0 e1] e2]] [[f0 f1] f2]].
  unfold rmatmul3, rtranspose3, rdot.
  repeat match goal with |- (_, _) = (_, _) => apply f_equal2 end; ring.
Qed.

Lemma rmatmul3_assoc (A B C : Rmat3) :
  rmatmul3 (rmatmul3 A B) C = rmatmul3 A (rmatmul3 B C).
Proof.
  destruct A as [[[[a0 a1] a2] [[b0 b1] b2]] [[c0 c1] c2]].
  destruct B as [[[[d0 d1] d2] [[e0 e1] e2]] [[f0 f1] f2]].
  destruct C as [[[[g0 g1] g2] [[h0 h1] h2]] [[i0 i1] i2]].
  unfold rmatmul3, rtranspose3, rdot.
  repeat match goal with |- (_, _) = (_, _) => apply f_equal2 end; ring.
Qed.

Lemma rmatmul3_identity_l (A : Rmat3) : rmatmul3 ridentity3 A = A.
Proof.
  destruct A as [[[[a0 a1] a2] [[b0 b1] b2]] [[c0 c1] c2]].
  unfold rmatmul3, rtranspose3, rdot, ridentity3.
  repeat match goal with |- (_, _) = (_, _) => apply f_equal2 end; ring.
Qed.

Lemma orthonormal_mul (A B : Rmat3) :
  orthonormal A -> orthonormal B -> orthonormal (rmatmul3 A B).
Proof.
  unfold orthonormal. intros HA HB.
  rewrite rtranspose3_mul, rmatmul3_assoc.
  rewrite <- (rmatmul3_assoc (rtranspose3 A) A B).
  rewrite HA, rmatmul3_identity_l. exact HB.
Qed.

Lemma orthonormal_col2_unit (P : Rmat3) :
  orthonormal P -> rdot (rcol2 P) (rcol2 P) = 1.
Proof.
  destruct P as [[[[a0 a1] a2] [[b0 b1] b2]] [[c0 c1] c2]].
  unfold orthonormal, rmatmul3, rtranspose3, rdot, ridentity3, rcol2.
  intros H. injection H as H00 H01 H02 H10 H11 H12 H20 H21 H22.
  exact H22.
Qed.

Lemma rcol2_mul (A B : Rmat3) :
  rcol2 (rmatmul3 A B) = rmat_vec A (rcol2 B).
Proof.
  destruct A as [[[[a0 a1] a2] [[b0 b1] b2]] [[c0 c1] c2]].
  destruct B as [[[[d0 d1] d2] [[e0 e1] e2]] [[f0 f1] f2]].
  reflexivity.
Qed.

Lemma axis_angle_orthonormal (k : Rvec3) (theta : R) :
  rdot k k = 1 -> orthonormal (axis_angle_matrix k theta).
Proof.
  destruct k as [[k0 k1] k2]. unfold rdot. intros Hk.
  pose proof (sin2_cos2 theta) as Hcs. unfold Rsqr in Hcs.
  unfold orthonormal, axis_angle_matrix, rmatmul3, rtranspose3, rdot,
    ridentity3.
  set (c := cos theta) in *. set (s := sin theta) in *.
  clearbody c s.
  repeat match goal with |- (_, _) = (_, _) => apply f_equal2 end; nsatz.
Qed.

Lemma unit_nonzero (a : Rvec3) : rdot a a = 1 -> a <> (0, 0, 0).
Proof.
  intros H E. subst a. unfold rdot in H. lra.
Qed.

Lemma close_to_one_one : close_to_one 1.
Proof.
  unfold close_to_one, atol, rtol.
  replace (1 - 1) with 0 by ring. rewrite Rabs_R0, Rabs_R1. lra.
Qed.

Lemma estimate_pose_row_close (c prev : pose) (z : Rvec3) (P : Rmat3) :
  col2 (rot c) = fin3 z -> z <> (0, 0, 0) -> rot prev = fin_mat3 P ->
  close_to_one (rdot (rcol2 P) (normalize z)) ->
  fst (estimate_pose_row c prev) =
  mkPose (fin_mat3 P) (pos c) (Fin 0, Fin 0, Fin 0, Fin 1).
Proof.
  intros Hz Hz0 HP Hclose.
  unfold estimate_pose_row. cbn [fst].
  rewrite Hz, normalized_fin3 by assumption.
  rewrite HP, col2_fin, dot_fin3.
  assert (E : isclose (Fin (rdot (rcol2 P) (normalize z))) (Fin 1) = true).
  { apply (allclose_fin (rdot (rcol2 P) (normalize z))). exact Hclose. }
  rewrite E. rewrite matmul3_eye3_l. reflexivity.
Qed.

Lemma set_col2_col2 (m : mat3) : set_col2 m (col2 m) = m.
Proof.
  destruct m as [[[[a0 a1] a2] [[b0 b1] b2]] [[c0 c1] c2]]. reflexivity.
Qed.

Lemma normalized_z_unit (c : pose) (z : Rvec3) :
  col2 (rot c) = fin3 z -> rdot z z = 1 -> normalized_z c = c.
Proof.
  intros Hz Hu. unfold normalized_z.
  rewrite Hz, normalized_fin3 by (apply unit_nonzero; assumption).
  rewrite normalize_of_unit by assumption.
  rewrite <- Hz, set_col2_col2. destruct c; reflexivity.
Qed.

Lemma rnorm_pos (a : Rvec3) : a <> (0, 0, 0) -> 0 < rnorm a.
Proof.
  intros H. pose proof (rnorm_nonneg a) as Hn.
  destruct (Req_dec_T (rnorm a) 0) as [E|E]; [|lra].
  apply rnorm_zero_iff in E. contradiction.
Qed.

Lemma estimate_pose_row_agrees (c prev : pose) :
  well_conditioned c prev ->
  estimate_pose_row c prev = estimate_pose c (Some prev).
Proof.
  intros [z [a [Hz [Hz0 [Ha Hcase]]]]].
  unfold estimate_pose_row, estimate_pose.
  rewrite Hz, normalized_fin3 by assumption.
  rewrite Ha, dot_fin3. unfold allclose.
  destruct Hcase as [Hclose | [Hrange Hx]].
  - assert (E : isclose (Fin (rdot a (normalize z))) (Fin 1) = true).
    { apply (allclose_fin (rdot a (normalize z))). exact Hclose. }
    rewrite E. reflexivity.
  - destruct (isclose (Fin (rdot a (normalize z))) (Fin 1)) eqn:E;
      [reflexivity|].
    cbn [negb].
    rewrite cross_fin3, norm_fin3.
    assert (Hn : nltb (Fin 0) (Fin (rnorm (rcross a (normalize z)))) = true).
    { apply nltb_fin. apply rnorm_pos. exact Hx. }
    rewrite Hn, clip_fin, clip_in_range by assumption. reflexivity.
Qed.

End TrackerAlgebra.

Section TrackerInvariants.

Local Open Scope R_scope.
Import PoseTracker.

Lemma Forall_combine {A B : Type} (F : A -> Prop) (G : B -> Prop)
    (l : list A) (k : list B) :
  Forall F l -> Forall G k ->
  Forall (fun x => F (fst x) /\ G (snd x)) (combine l k).
Proof.
  intros HF. revert k. induction HF as [|a l Ha _ IH]; intros k HG.
  - constructor.
  - destruct HG as [|b k Hb HG]; [constructor|].
    cbn [combine]. constructor; [split; assumption | apply IH; assumption].
Qed.

(** X7 ([estimate_pose], [estimate_pose_batch]).  A stationary object is
    tracked without drift: a pose with a unit Z column and the last row
    [0, 0, 0, 1], tracked against itself, is returned unchanged by both
    functions, and the in-place normalisation leaves the array as it was. *)
Theorem estimate_pose_fixed_point :
  forall (P : Rmat3) (p : vec3),
    rdot (rcol2 P) (rcol2 P) = 1 ->
    let c := mkPose (fin_mat3 P) p (Fin 0, Fin 0, Fin 0, Fin 1) in
    estimate_pose c (Some c) = (c, c) /\
    estimate_pose_batch [c] [c] = Some ([c], [c]).
Proof.
  intros P p Hu c.
  assert (Hz : col2 (rot c) = fin3 (rcol2 P)) by apply col2_fin.
  assert (Hz0 : rcol2 P <> (0, 0, 0)) by (apply unit_nonzero; exact Hu).
  assert (Hc : close_to_one (rdot (rcol2 P) (normalize (rcol2 P)))).
  { rewrite normalize_of_unit by exact Hu. rewrite Hu.
    apply close_to_one_one. }
  assert (Hn : normalized_z c = c)
    by (apply (normalized_z_unit c (rcol2 P)); assumption).
  split.
  - rewrite (surjective_pairing (estimate_pose c (Some c))).
    rewrite estimate_pose_store, Hn.
    rewrite (estimate_pose_close c c (rcol2 P) P Hz Hz0 eq_refl Hc).
    reflexivity.
  - rewrite estimate_pose_batch_rows by reflexivity.
    cbn [combine map fst snd].
    rewrite (estimate_pose_row_close c c (rcol2 P) P Hz Hz0 eq_refl Hc).
    rewrite Hn. reflexivity.
Qed.

Lemma estimate_pose_fixed_point_witness :
  estimate_pose eye4 (Some eye4) = (eye4, eye4) /\
  estimate_pose_batch [eye4] [eye4] = Some ([eye4], [eye4]).
Proof.
  apply (estimate_pose_fixed_point ((1, 0, 0), (0, 1, 0), (0, 0, 1))
           zero3).
  cbn. lra.
Defined.

Lemma regular_delta_orthonormal (a b : Rvec3) :
  rcross a b <> (0, 0, 0) ->
  orthonormal
    (axis_angle_matrix (normalize (rcross a b)) (acos (rdot a b))).
Proof.
  intros Hx. apply axis_angle_orthonormal. apply normalize_unit. exact Hx.
Qed.

Lemma estimate_pose_row_rotation (c prev : pose) :
  finite_z c -> rotation_block prev ->
  rotation_block (fst (estimate_pose_row c prev)).
Proof.
  intros [z [Hz Hz0]] [P [HP HO]].
  pose proof (orthonormal_col2_unit P HO) as Hu.
  destruct (Rle_dec (Rabs (rdot (rcol2 P) (normalize z) - 1))
                    (atol + rtol * Rabs 1)) as [Hc|Hc].
  - rewrite (estimate_pose_row_close c prev z P Hz Hz0 HP Hc).
    exists P. split; [reflexivity | exact HO].
  - assert (Dx : {rcross (rcol2 P) (normalize z) = (0, 0, 0)} +
                 {rcross (rcol2 P) (normalize z) <> (0, 0, 0)}).
    { destruct (Req_dec_T (rnorm (rcross (rcol2 P) (normalize z))) 0)
        as [E|E].
      - left. apply rnorm_zero_iff. exact E.
      - right. intros E'. apply E. apply rnorm_zero_iff. exact E'. }
    destruct Dx as [Hx|Hx].
    + rewrite (estimate_pose_row_zero_axis c prev z P Hz Hz0 HP Hx).
      exists P. split; [reflexivity | exact HO].
    + rewrite (estimate_pose_row_regular c prev z P Hz Hz0 HP Hu Hc Hx).
      eexists. split; [reflexivity|].
      apply orthonormal_mul; [|exact HO].
      apply regular_delta_orthonormal. exact Hx.
Qed.

(** X8 ([estimate_pose_batch]).  The batched tracker keeps rotations
    rotations: when every current pose has a finite non-zero Z column and
    every previous pose has a rotation block with orthonormal columns, the
    call succeeds and every tracked pose has a rotation block with
    orthonormal columns, so that its output can be fed back as the previous
    poses of the next step. *)
Theorem estimate_pose_batch_keeps_rotation :
  forall cs ps : list pose,
    length cs = length ps ->
    Forall finite_z cs ->
    Forall rotation_block ps ->
    exists tfs,
      estimate_pose_batch cs ps = Some (tfs, map normalized_z cs) /\
      length tfs = length cs /\
      Forall rotation_block tfs.
Proof.
  intros cs ps Hlen Hcs Hps.
  rewrite estimate_pose_batch_rows by exact Hlen.
  eexists. split; [reflexivity|]. split.
  - rewrite length_map, length_combine, <- Hlen. apply Nat.min_id.
  - apply Forall_map.
    pose proof (Forall_combine _ _ cs ps Hcs Hps) as H.
    eapply Forall_impl; [|exact H].
    intros [c p] [Hc Hp]. apply estimate_pose_row_rotation; assumption.
Qed.

Lemma eye4_rotation_block : rotation_block eye4.
Proof.
  exists ridentity3. split; [reflexivity|].
  unfold orthonormal, ridentity3, rmatmul3, rtranspose3, rdot.
  repeat match goal with |- (_, _) = (_, _) => apply f_equal2 end; ring.
Qed.

Lemma eye4_finite_z : finite_z eye4.
Proof.
  exists (0, 0, 1). split; [reflexivity|].
  intros E. injection E as E. lra.
Qed.

Lemma estimate_pose_batch_keeps_rotation_witness :
  exists tfs,
    estimate_pose_batch [eye4] [eye4] = Some (tfs, map normalized_z [eye4]) /\
    length tfs = 1%nat /\ Forall rotation_block tfs.
Proof.
  apply (estimate_pose_batch_keeps_rotation [eye4] [eye4]).
  - reflexivity.
  - constructor; [exact eye4_finite_z | constructor].
  - constructor; [exact eye4_rotation_block | constructor].
Defined.

(** X9 ([estimate_pose]).  Outside the case of opposite Z axes the single
    tracker keeps rotations rotations, and the tracked pose carries the
    current Z axis: its rotation block has orthonormal columns, and its
    third column is the normalised current Z axis when a rotation was
    applied and the previous Z axis when the two were within the
    tolerance. *)
Theorem estimate_pose_keeps_rotation :
  forall (c prev : pose) (z : Rvec3) (P : Rmat3),
    col2 (rot c) = fin3 z -> z <> (0, 0, 0) ->
    rot prev = fin_mat3 P -> orthonormal P ->
    (close_to_one (rdot (rcol2 P) (normalize z)) \/
     rcross (rcol2 P) (normalize z) <> (0, 0, 0)) ->
    let tracked := fst (estimate_pose c (Some prev)) in
    rotation_block tracked /\
    pos tracked = pos c /\
    (close_to_one (rdot (rcol2 P) (normalize z)) ->
       col2 (rot tracked) = fin3 (rcol2 P)) /\
    (~ close_to_one (rdot (rcol2 P) (normalize z)) ->
       col2 (rot tracked) = fin3 (normalize z)).
Proof.
  intros c prev z P Hz Hz0 HP HO Hcase tracked.
  pose proof (orthonormal_col2_unit P HO) as Hu.
  destruct (Rle_dec (Rabs (rdot (rcol2 P) (normalize z) - 1))
                    (atol + rtol * Rabs 1)) as [Hc|Hc].
  - assert (E : tracked =
                mkPose (fin_mat3 P) (pos c) (Fin 0, Fin 0, Fin 0, Fin 1))
      by (apply (estimate_pose_close c prev z P); assumption).
    rewrite E. split; [|split; [|split]].
    + exists P. split; [reflexivity | exact HO].
    + reflexivity.
    + intros _. apply col2_fin.
    + intros N. exfalso. apply N. exact Hc.
  - assert (Hx : rcross (rcol2 P) (normalize z) <> (0, 0, 0)).
    { destruct Hcase as [H|H]; [exfalso; apply Hc; exact H | exact H]. }
    assert (E : tracked =
                mkPose
                  (fin_mat3
                     (rmatmul3
                        (axis_angle_matrix
                           (normalize (rcross (rcol2 P) (normalize z)))
                           (acos (rdot (rcol2 P) (normalize z)))) P))
                  (pos c) (Fin 0, Fin 0, Fin 0, Fin 1))
      by (apply (estimate_pose_regular c prev z P); assumption).
    rewrite E. split; [|split; [|split]].
    + eexists. split; [reflexivity|].
      apply orthonormal_mul; [|exact HO].
      apply regular_delta_orthonormal. exact Hx.
    + reflexivity.
    + intros H. exfalso. apply Hc. exact H.
    + intros _. cbn [rot]. rewrite col2_fin, rcol2_mul.
      rewrite axis_angle_aligns;
        [reflexivity | exact Hu | apply normalize_unit; exact Hz0 | exact Hx].
Qed.

Lemma estimate_pose_keeps_rotation_witness :
  let c := pose_of_array
             ((1, 0, 0, 0), (0, 0, -1, 0), (0, 1, 0, 0), (0, 0, 0, 1)) in
  rotation_block (fst (estimate_pose c (Some eye4))) /\
  pos (fst (estimate_pose c (Some eye4))) = pos c.
Proof.
  intros c.
  assert (Hn : normalize (0, -1, 0) = (0, -1, 0)).
  { apply normalize_of_unit. cbn. lra. }
  destruct (estimate_pose_keeps_rotation c eye4 (0, -1, 0)
              ((1, 0, 0), (0, 1, 0), (0, 0, 1))) as [H1 [H2 _]].
  - reflexivity.
  - intros E. injection E as E. lra.
  - reflexivity.
  - unfold orthonormal, ridentity3, rmatmul3, rtranspose3, rdot.
    repeat match goal with |- (_, _) = (_, _) => apply f_equal2 end; ring.
  - right. rewrite Hn. cbn. intros E. injection E as E1 E2 E3. lra.
  - split; assumption.
Defined.

End TrackerInvariants.

Section BatchAndSingle.

Local Open Scope R_scope.
Import PoseTracker.

Lemma map_combine_map2 {A B C : Type} (f : A -> B -> C)
    (l : list A) (k : list B) :
  map (fun x => f (fst x) (snd x)) (combine l k) = map2 f l k.
Proof.
  revert k. induction l as [|a l IH]; intros [|b k]; try reflexivity.
  cbn [combine map map2 fst snd]. rewrite IH. reflexivity.
Qed.

Lemma Forall2_same_length {A B : Type} (F : A -> B -> Prop)
    (l : list A) (k : list B) :
  Forall2 F l k -> length l = length k.
Proof. induction 1; cbn; congruence. Qed.

(** X10 ([estimate_pose], [estimate_pose_batch]).  Outside the degenerate
    cases the batched tracker computes on every row what the single tracker
    computes: when, in every row, the cosine of the previous and the
    normalised current Z axis is within the tolerance of 1, or lies in
    [-1, 1] with the two axes not collinear, the batch returns the tracked
    poses of [estimate_pose] row by row and leaves the same content in the
    caller's array. *)
Theorem estimate_pose_batch_agrees_with_single :
  forall cs ps : list pose,
    Forall2 well_conditioned cs ps ->
    estimate_pose_batch cs ps =
    Some (map2 (fun c p => fst (estimate_pose c (Some p))) cs ps,
          map2 (fun c p => snd (estimate_pose c (Some p))) cs ps).
Proof.
  intros cs ps H.
  rewrite estimate_pose_batch_rows by (eapply Forall2_same_length; exact H).
  f_equal. f_equal.
  - rewrite <- map_combine_map2.
    induction H as [|c p cs ps Hcp _ IH]; [reflexivity|].
    cbn [combine map fst snd]. rewrite IH.
    rewrite (estimate_pose_row_agrees c p Hcp). reflexivity.
  - induction H as [|c p cs ps Hcp _ IH]; [reflexivity|].
    cbn [map map2]. rewrite IH, estimate_pose_store. reflexivity.
Qed.

Lemma estimate_pose_batch_agrees_with_single_witness :
  let c := pose_of_array
             ((1, 0, 0, 0), (0, 0, -1, 0), (0, 1, 0, 0), (0, 0, 0, 1)) in
  estimate_pose_batch [c] [eye4] =
  Some ([fst (estimate_pose c (Some eye4))],
        [snd (estimate_pose c (Some eye4))]).
Proof.
  intros c.
  apply (estimate_pose_batch_agrees_with_single [c] [eye4]).
  constructor; [|constructor].
  assert (Hn : normalize (0, -1, 0) = (0, -1, 0)).
  { apply normalize_of_unit. cbn. lra. }
  exists (0, -1, 0), (0, 0, 1).
  split; [reflexivity|]. split; [intros E; injection E as E; lra|].
  split; [reflexivity|].
  right. rewrite Hn. cbn. split; [lra|].
  intros E. injection E as E1 E2 E3. lra.
Defined.

(** X11 ([estimate_pose_batch]).  The batched tracker is invariant to a
    rotation of each current pose about its own Z axis: post-multiplying
    every current pose by a Z rotation of its own angle changes none of the
    tracked poses, and a batch-size mismatch stays a mismatch. *)
Theorem estimate_pose_batch_z_rotation_invariant :
  forall (curr_poses : list (Rmat4 * R)) (prev_poses : list pose),
    option_map fst
      (estimate_pose_batch
         (map (fun ct => pose_of_array (rmatmul4 (fst ct) (rot_z (snd ct))))
              curr_poses) prev_poses) =
    option_map fst
      (estimate_pose_batch
         (map (fun ct => pose_of_array (fst ct)) curr_poses) prev_poses).
Proof.
  intros cs ps.
  destruct (Nat.eq_dec (length cs) (length ps)) as [E|NE].
  - rewrite !estimate_pose_batch_rows by (rewrite length_map; exact E).
    cbn [option_map fst]. f_equal.
    clear E. revert ps. induction cs as [|[A t] cs IH]; intros [|p ps];
      try reflexivity.
    cbn [map combine fst snd]. rewrite IH. f_equal.
    apply estimate_pose_row_reads;
      [apply rot_z_keeps_pos | apply rot_z_keeps_col2].
  - unfold estimate_pose_batch. rewrite !length_map.
    apply Nat.eqb_neq in NE. rewrite NE. reflexivity.
Qed.

Lemma dot_nan3 (a : vec3) : dot a nan3 = NaN.
Proof.
  destruct a as [[x y] z]. unfold dot, nan3.
  rewrite !nmul_nan_r. reflexivity.
Qed.

Lemma cross_nan3 (a : vec3) : cross a nan3 = nan3.
Proof.
  destruct a as [[x y] z]. unfold cross, nan3.
  rewrite !nmul_nan_r. reflexivity.
Qed.

Lemma normalized_zero3 : vdiv zero3 (norm zero3) = nan3.
Proof. rewrite norm_zero3. apply (vdiv_fin3_zero (0, 0, 0)). Qed.

Lemma estimate_pose_zero_column (c : pose) (prev : option pose) :
  col2 (rot c) = zero3 ->
  rot (fst (estimate_pose c prev)) = nan_mat3.
Proof.
  intros Hz. unfold estimate_pose. cbn [fst rot].
  rewrite Hz, normalized_zero3, dot_nan3.
  unfold allclose, isclose. cbn [nsub nabs lift1 lift2].
  unfold nleb at 1. cbn [negb].
  rewrite cross_nan3.
  unfold norm at 1. unfold dot at 1. unfold nan3 at 1 2.
  cbn [nmul nadd lift2]. unfold nsqrt at 1.
  unfold vdiv, nan3. unfold ndiv. unfold narccos.
  change (NaN, NaN, NaN) with nan3.
  rewrite (vscale_nan3 NaN), from_rotvec_nan3. apply matmul3_nan_l.
Qed.

Lemma estimate_pose_row_zero_column (c prev : pose) :
  col2 (rot c) = zero3 ->
  rot (fst (estimate_pose_row c prev)) = nan_mat3.
Proof.
  intros Hz. unfold estimate_pose_row. cbn [fst rot].
  rewrite Hz, normalized_zero3, dot_nan3.
  unfold isclose. cbn [nsub nabs lift1 lift2].
  unfold nleb at 1.
  rewrite cross_nan3.
  unfold norm at 1. unfold dot at 1. unfold nan3 at 1 2.
  cbn [nmul nadd lift2]. unfold nsqrt at 1. unfold nltb at 1.
  unfold clip. cbn [nmax nmin lift2]. unfold narccos.
  change (vscale NaN zero3) with nan3.
  rewrite from_rotvec_nan3. apply matmul3_nan_l.
Qed.

(** X12 ([estimate_pose], [estimate_pose_batch]).  A current pose whose
    third rotation column is zero is not refused: both trackers return a
    rotation block made of NaN, for every previous pose, and the caller's
    array keeps a third column of NaN. *)
Theorem estimate_pose_zero_z_column_nan :
  forall (c : pose),
    col2 (rot c) = zero3 ->
    (forall prev, rot (fst (estimate_pose c prev)) = nan_mat3) /\
    (forall prev, col2 (rot (snd (estimate_pose c prev))) = nan3) /\
    (forall cs cs' ps ps' prev,
        length cs = length ps -> length cs' = length ps' ->
        exists before tracked after store,
          estimate_pose_batch (cs ++ c :: cs') (ps ++ prev :: ps') =
            Some (before ++ tracked :: after, store) /\
          length before = length cs /\
          rot tracked = nan_mat3).
Proof.
  intros c Hz. split; [|split].
  - intros prev. apply estimate_pose_zero_column. exact Hz.
  - intros prev. rewrite estimate_pose_store. unfold normalized_z.
    cbn [rot]. rewrite col2_set_col2, Hz. apply normalized_zero3.
  - intros cs cs' ps ps' prev H1 H2.
    destruct (estimate_pose_batch_at cs cs' ps ps' c prev H1 H2)
      as [before [after [store [E [Hb _]]]]].
    exists before, (fst (estimate_pose_row c prev)), after, store.
    split; [exact E|]. split; [exact Hb|].
    apply estimate_pose_row_zero_column. exact Hz.
Qed.

Lemma estimate_pose_zero_z_column_nan_witness :
  let c := pose_of_array
             ((1, 0, 0, 0), (0, 1, 0, 0), (0, 0, 0, 0), (0, 0, 0, 1)) in
  rot (fst (estimate_pose c None)) = nan_mat3.
Proof.
  intros c.
  destruct (estimate_pose_zero_z_column_nan c) as [H _].
  - reflexivity.
  - apply H.
Defined.



(** X14 ([estimate_pose_batch]).  For collinear Z axes the batched tracker
    keeps the previous rotation: whenever the cross product of the previous
    Z axis and the normalised current Z axis of a row is zero, parallel or
    anti-parallel, that row of the result has the rotation block of the
    previous pose, the current position and the last row [0, 0, 0, 1],
    wherever the row stands in the batch. *)
Theorem estimate_pose_batch_collinear_keeps_previous :
  forall (c prev : pose) (z : Rvec3) (P : Rmat3),
    col2 (rot c) = fin3 z -> z <> (0, 0, 0) ->
    rot prev = fin_mat3 P ->
    rcross (rcol2 P) (normalize z) = (0, 0, 0) ->
    forall cs cs' ps ps',
      length cs = length ps -> length cs' = length ps' ->
      exists before after store,
        estimate_pose_batch (cs ++ c :: cs') (ps ++ prev :: ps') =
          Some (before ++
                mkPose (fin_mat3 P) (pos c) (Fin 0, Fin 0, Fin 0, Fin 1)
                :: after, store) /\
        length before = length cs /\ length after = length cs'.
Proof.
  intros c prev z P Hz Hz0 HP Hx cs cs' ps ps' H1 H2.
  destruct (estimate_pose_batch_at cs cs' ps ps' c prev H1 H2)
    as [before [after [store [E [Hb Ha]]]]].
  exists before, after, store.
  rewrite (estimate_pose_row_zero_axis c prev z P Hz Hz0 HP Hx) in E.
  split; [exact E | split; [exact Hb | exact Ha]].
Qed.

Lemma estimate_pose_batch_collinear_keeps_previous_witness :
  let c := pose_of_array
             ((1, 0, 0, 0), (0, -1, 0, 0), (0, 0, -1, 0), (0, 0, 0, 1)) in
  exists before after store,
    estimate_pose_batch ([] ++ c :: []) ([] ++ eye4 :: []) =
      Some (before ++
            mkPose (fin_mat3 ((1, 0, 0), (0, 1, 0), (0, 0, 1))) (pos c)
                   (Fin 0, Fin 0, Fin 0, Fin 1) :: after, store) /\
    length before = 0%nat /\ length after = 0%nat.
Proof.
  intros c.
  assert (Hn : normalize (0, 0, -1) = (0, 0, -1)).
  { apply normalize_of_unit. cbn. lra. }
  apply (estimate_pose_batch_collinear_keeps_previous c eye4 (0, 0, -1)
           ((1, 0, 0), (0, 1, 0), (0, 0, 1))).
  - reflexivity.
  - intros E. injection E as E. lra.
  - reflexivity.
  - rewrite Hn. cbn.
    repeat match goal with |- (_, _) = (_, _) => apply f_equal2 end; ring.
  - reflexivity.
  - reflexivity.
Defined.

End BatchAndSingle.

Section ScoreOrder.

Local Open Scope Q_scope.

Lemma qclip_mono (x y lo hi : Q) :
  lo <= hi -> x <= y -> qclip x lo hi <= qclip y lo hi.
Proof.
  intros Hb Hxy.
  destruct (qclip_spec x lo hi Hb) as [[H1 E1] | [[H1 E1] | [H1 E1]]];
    destruct (qclip_spec y lo hi Hb) as [[H2 E2] | [[H2 E2] | [H2 E2]]];
    rewrite E1, E2; lra.
Qed.

Lemma ratio_mono (t c1 c2 : Q) :
  0 < t -> c1 <= c2 -> 1 - c2 / t <= 1 - c1 / t.
Proof.
  intros Ht H.
  assert (c1 / t <= c2 / t).
  { unfold Qdiv. apply Qmult_le_compat_r; [exact H|].
    apply Qlt_le_weak, Qinv_lt_0_compat. exact Ht. }
  lra.
Qed.

Lemma spec_score_mono (t d1 d2 : Q) :
  0 < t -> d1 <= d2 -> spec_score t d2 <= spec_score t d1.
Proof.
  intros Ht H. rewrite !spec_score_unfold. cbv zeta.
  assert (Hc : qclip d1 0 t <= qclip d2 0 t)
    by (apply qclip_mono; lra).
  assert (Hs : qclip (1 - qclip d2 0 t / t) 0 1 <=
               qclip (1 - qclip d1 0 t / t) 0 1).
  { apply qclip_mono; [lra|]. apply ratio_mono; assumption. }
  assert (R1 : 0 <= qclip (1 - qclip d1 0 t / t) 0 1 <= 1)
    by (apply qclip_range; lra).
  assert (R2 : 0 <= qclip (1 - qclip d2 0 t / t) 0 1 <= 1)
    by (apply qclip_range; lra).
  set (s1 := qclip (1 - qclip d1 0 t / t) 0 1) in *.
  set (s2 := qclip (1 - qclip d2 0 t / t) 0 1) in *.
  destruct (Qltb (1 # 10) s2) eqn:E2; destruct (Qltb (1 # 10) s1) eqn:E1;
    try apply Qltb_true in E1; try apply Qltb_true in E2;
    try apply Qltb_false in E1; try apply Qltb_false in E2; lra.
Qed.

(** X15 ([get_extrinsic_contact], the scores).  The score never increases
    with the distance: under a positive threshold, of two queried distances
    the larger one is scored at most as high as the smaller one. *)
Theorem score_distances_monotone :
  forall (di : list Q) (t : Q) (i j : nat),
    0 < t ->
    (i < length di)%nat -> (j < length di)%nat ->
    nth i di 0 <= nth j di 0 ->
    nth j (score_distances di t) 0 <= nth i (score_distances di t) 0.
Proof.
  intros di t i j Ht Hi Hj H.
  rewrite score_distances_map by exact Ht.
  rewrite !nth_map_score by assumption.
  apply spec_score_mono; assumption.
Qed.

Lemma score_distances_monotone_witness :
  nth 1 (score_distances [1 # 1000; 19 # 10000] (2 # 1000)) 0 <=
  nth 0 (score_distances [1 # 1000; 19 # 10000] (2 # 1000)) 0.
Proof.
  apply (score_distances_monotone [1 # 1000; 19 # 10000] (2 # 1000) 0 1).
  - reflexivity.
  - cbn; lia.
  - cbn; lia.
  - cbn. discriminate.
Defined.

Lemma score_distances_binary (di : list Q) (t x : Q) :
  In x (score_distances di t) -> x = 1 \/ 0 <= x <= 1 # 10.
Proof.
  unfold score_distances. intros H.
  apply in_map_iff in H. destruct H as [s [E Hs]].
  apply in_map_iff in Hs. destruct Hs as [y [Ey _]].
  assert (R : 0 <= s <= 1) by (rewrite <- Ey; apply qclip_range; lra).
  destruct (Qltb (1 # 10) s) eqn:B.
  - left. symmetry. exact E.
  - right. apply Qltb_false in B. rewrite <- E. lra.
Qed.

End ScoreOrder.

Section DropoutShare.

Local Open Scope Q_scope.

Lemma py_int_below (x : Q) : 0 <= x -> inject_Z (py_int x) <= x.
Proof.
  intros H0. unfold py_int.
  destruct x as [n dn]. unfold Qle in *. simpl in *.
  rewrite Z.mul_1_r in *.
  rewrite Z.quot_div_nonneg by lia.
  rewrite Z.mul_comm. apply Z.mul_div_le. lia.
Qed.

Lemma filter_split_count {A : Type} (f g h : A -> bool) (l : list A) :
  (forall x, In x l ->
     f x = orb (g x) (h x) /\ andb (g x) (h x) = false) ->
  length (filter f l) = (length (filter g l) + length (filter h l))%nat.
Proof.
  induction l as [|a l IH]; intros H; [reflexivity|].
  cbn [filter].
  destruct (H a (or_introl eq_refl)) as [E X].
  rewrite E.
  assert (IH' := IH (fun x Hx => H x (or_intror Hx))).
  destruct (g a), (h a); cbn [orb andb] in *; try discriminate;
    cbn [length]; lia.
Qed.

Lemma Qeq_bool_one_zero (x : Q) :
  Qeq_bool x 1 = true -> Qeq_bool x 0 = false.
Proof.
  intros H. apply Qeq_bool_iff in H.
  destruct (Qeq_bool x 0) eqn:E; [|reflexivity].
  apply Qeq_bool_iff in E. lra.
Qed.

Section Share.

Variables (d : list Q) (shuffle : list nat -> list nat) (u : Q).
Hypothesis shuffle_perm : forall l, Permutation (shuffle l) l.
Hypothesis u_range : 0 <= u <= 1 # 10.

Let k := length (where_one d).
Let num_idx := py_int (sum_at d (shuffle (where_one d)) * u).

Lemma indices_count : length (shuffle (where_one d)) = k.
Proof. apply Permutation_length, shuffle_perm. Qed.

Lemma num_idx_tenth : (10 * num_idx <= Z.of_nat k)%Z.
Proof.
  pose proof (sum_is_count d shuffle shuffle_perm) as HS.
  rewrite indices_count in HS.
  assert (H0 : 0 <= sum_at d (shuffle (where_one d)) * u).
  { rewrite HS. apply Qmult_le_0_compat; [|lra].
    change 0 with (inject_Z 0). rewrite <- Zle_Qle. lia. }
  pose proof (py_int_below _ H0) as Hb. fold num_idx in Hb.
  rewrite HS in Hb.
  assert (Hk : 0 <= inject_Z (Z.of_nat k)).
  { change 0 with (inject_Z 0). rewrite <- Zle_Qle. lia. }
  assert (H10 : inject_Z (Z.of_nat k) * u
                <= inject_Z (Z.of_nat k) * (1 # 10)).
  { rewrite !(Qmult_comm (inject_Z (Z.of_nat k))).
    apply Qmult_le_compat_r; lra. }
  assert (Hq : inject_Z (10 * num_idx) <= inject_Z (Z.of_nat k)).
  { rewrite inject_Z_mult. change (inject_Z 10) with 10. lra. }
  rewrite <- Zle_Qle in Hq. exact Hq.
Qed.

Lemma zeroed_tenth :
  (10 * length (zeroed d (dropout d shuffle u)) <= k)%nat.
Proof.
  rewrite (zeroed_count d shuffle u shuffle_perm u_range).
  pose proof num_idx_tenth as H. fold num_idx.
  pose proof (num_idx_bounds d shuffle u shuffle_perm u_range) as Hb.
  cbv zeta in Hb. fold num_idx in Hb.
  lia.
Qed.

Lemma survivors_count :
  (length (where_one (dropout d shuffle u)) +
   length (zeroed d (dropout d shuffle u)) = k)%nat.
Proof.
  unfold k, where_one, zeroed. rewrite dropout_length.
  rewrite Nat.add_comm. symmetry.
  apply filter_split_count. intros i Hi.
  destruct (dropout_at d shuffle u shuffle_perm u_range i)
    as [[Hin E] | [Hout E]]; cbv zeta in *.
  - rewrite E.
    destruct (chosen_hold_one d shuffle u shuffle_perm u_range i Hin)
      as [_ H1].
    apply Qeq_bool_iff in H1. rewrite H1. split; reflexivity.
  - rewrite E.
    destruct (Qeq_bool (nth i d 0) 1) eqn:H1.
    + rewrite (Qeq_bool_one_zero _ H1). split; reflexivity.
    + split; reflexivity.
Qed.

Lemma few_contacts_untouched :
  (k < 10)%nat -> dropout d shuffle u = d.
Proof.
  intros Hk.
  rewrite (dropout_set_all d shuffle u shuffle_perm u_range).
  rewrite (chosen_prefix d shuffle u shuffle_perm u_range). cbv zeta.
  pose proof num_idx_tenth as H.
  pose proof (num_idx_bounds d shuffle u shuffle_perm u_range) as Hb.
  cbv zeta in Hb. fold num_idx in Hb. fold num_idx.
  assert (E : num_idx = 0%Z) by lia.
  rewrite E. reflexivity.
Qed.

End Share.

(** X16 ([get_extrinsic_contact], the dropout).  The dropout removes at
    most a tenth of the contacts: for a shuffle that permutes and a draw u
    in [0, 0.1], ten times the number of zeroed entries is at most the
    number of entries at 1, the entries still at 1 are the others, and with
    fewer than ten entries at 1 the array is returned unchanged. *)
Theorem dropout_at_most_a_tenth :
  forall (d : list Q) (shuffle : list nat -> list nat) (u : Q),
    (forall l, Permutation (shuffle l) l) ->
    0 <= u <= 1 # 10 ->
    let d' := dropout d shuffle u in
    (10 * length (zeroed d d') <= length (where_one d))%nat /\
    (length (where_one d') + length (zeroed d d') =
     length (where_one d))%nat /\
    ((length (where_one d) < 10)%nat -> d' = d).
Proof.
  intros d shuffle u Hp Hu d'. split; [|split].
  - apply zeroed_tenth; assumption.
  - apply survivors_count; assumption.
  - apply few_contacts_untouched; assumption.
Qed.

Lemma dropout_at_most_a_tenth_witness :
  let d := repeat 1 25 in
  (10 * length (zeroed d (dropout d (@rev nat) (1 # 10))) <= 25)%nat /\
  dropout (repeat 1 9) (@rev nat) (1 # 10) = repeat 1 9.
Proof.
  intros d.
  assert (Hp : forall l : list nat, Permutation (rev l) l)
    by (intros l; apply Permutation_sym, Permutation_rev).
  assert (Hu : 0 <= 1 # 10 <= 1 # 10) by (split; discriminate).
  split.
  - apply (dropout_at_most_a_tenth d (@rev nat) (1 # 10) Hp Hu).
  - apply (dropout_at_most_a_tenth (repeat 1 9) (@rev nat) (1 # 10) Hp Hu).
    cbn. lia.
Defined.

End DropoutShare.

Section Entries.

Local Open Scope Q_scope.

Lemma nth_map_in {A B : Type} (g : A -> B) (l : list A) (n : nat)
    (d : A) (d' : B) :
  (n < length l)%nat -> nth n (map g l) d' = g (nth n l d).
Proof.
  intros H. rewrite (nth_indep _ d' (g d)) by (rewrite length_map; exact H).
  apply map_nth.
Qed.

Lemma view_rows_nth {A : Type} (l : list A) (n p : nat) (d : A) :
  (0 < p)%nat -> length l = (n * p)%nat ->
  exists rows,
    view_rows l p = Some rows /\ length rows = n /\
    forall r c, (r < n)%nat -> (c < p)%nat ->
      nth c (nth r rows []) d = nth (r * p + c) l d.
Proof.
  intros Hp Hl. unfold view_rows.
  destruct p as [ | p']; [lia | ]. set (p := S p') in *.
  rewrite Hl, Nat.Div0.mod_mul, Nat.eqb_refl, Nat.div_mul by lia.
  eexists. split; [reflexivity | ]. split.
  - rewrite length_map, length_seq. reflexivity.
  - intros r c Hr Hc.
    rewrite (nth_map_in _ _ _ O) by (rewrite length_seq; exact Hr).
    rewrite seq_nth by exact Hr. cbn [plus].
    rewrite nth_firstn.
    assert (E : (c <? p)%nat = true) by (apply Nat.ltb_lt; exact Hc).
    rewrite E. apply nth_skipn.
Qed.

Lemma nth_concat_rows {A : Type} (rows : list (list A)) (p r c : nat)
    (d : A) :
  Forall (fun row => length row = p) rows ->
  (r < length rows)%nat -> (c < p)%nat ->
  nth (r * p + c) (concat rows) d = nth c (nth r rows []) d.
Proof.
  intros H. revert r. induction H as [|row rows Hrow _ IH]; intros r Hr Hc.
  - cbn in Hr. lia.
  - cbn [concat]. destruct r as [|r].
    + cbn [Nat.mul plus nth]. apply app_nth1. lia.
    + cbn [nth]. rewrite app_nth2 by (cbn; lia).
      replace (S r * p + c - length row)%nat with (r * p + c)%nat
        by (cbn; lia).
      apply IH; [cbn in Hr; lia | exact Hc].
Qed.

Lemma spec_score_binary (t d : Q) :
  spec_score t d = 1 \/ 0 <= spec_score t d <= 1 # 10.
Proof.
  rewrite spec_score_unfold. cbv zeta.
  assert (R : 0 <= qclip (1 - qclip d 0 t / t) 0 1 <= 1)
    by (apply qclip_range; lra).
  destruct (Qltb (1 # 10) (qclip (1 - qclip d 0 t / t) 0 1)) eqn:B.
  - left. reflexivity.
  - right. apply Qltb_false in B. lra.
Qed.

Lemma get_extrinsic_contact_unfold (dist : Mesh -> vec3 -> Q)
    (self : ExtrinsicContact) (scene : Mesh)
    (object_poses socket_poses : list xyzquat) (Ts Ss : list pose)
    (t : Q) (shuffle : list nat -> list nat) (u : Q) :
  socket self = Some scene ->
  _xyzquat_to_tf_numpy object_poses = Some Ts ->
  _xyzquat_to_tf_numpy socket_poses = Some Ss ->
  get_extrinsic_contact dist self object_poses socket_poses t shuffle u =
  view_rows
    (dropout
       (score_distances
          (concat (map (map (dist scene))
                       (apply_transform Ts (object_pc self)))) t)
       shuffle u)
    (n_points self).
Proof.
  intros Hs Eo Es. unfold get_extrinsic_contact.
  rewrite Eo, Es, Hs. reflexivity.
Qed.

Lemma distance_at (f : vec3 -> Q) (Ts : list pose) (pc : list vec3)
    (n p : nat) :
  (n < length Ts)%nat -> (p < length pc)%nat ->
  nth (n * length pc + p)
      (concat (map (map f) (apply_transform Ts pc))) 0 =
  f (transform_point (nth n Ts eye4) (nth p pc zero3)).
Proof.
  intros Hn Hp.
  rewrite (nth_concat_rows _ (length pc)).
  - unfold apply_transform. rewrite map_map.
    rewrite (nth_map_in _ _ _ eye4) by exact Hn.
    rewrite (nth_map_in _ _ _ (transform_point (nth n Ts eye4) zero3))
      by (rewrite length_map; exact Hp).
    rewrite (nth_map_in _ _ _ zero3) by exact Hp. reflexivity.
  - apply Forall_map. eapply Forall_impl; [|apply apply_transform_rows].
    intros row Hrow. rewrite length_map. exact Hrow.
  - rewrite length_map, apply_transform_length. exact Hn.
  - exact Hp.
Qed.

(** X17 ([get_extrinsic_contact]).  Entry (n, p) of the result is the score
    of sample point p under object pose n, or 0 where the dropout removed a
    contact: for valid poses, a positive threshold, a shuffle that permutes
    and a draw in [0, 0.1], the entry equals the score of the distance
    reported for the point moved by pose n, unless that score is 1 and the
    entry is 0; the score itself is exactly 1 or at most 0.1.  The socket
    poses do not enter the result. *)
Theorem get_extrinsic_contact_entries :
  forall (compute_distance : Mesh -> vec3 -> Q) (self : ExtrinsicContact)
         (scene : Mesh) (object_poses socket_poses : list xyzquat)
         (threshold : Q) (shuffle : list nat -> list nat) (u : Q),
    socket self = Some scene ->
    length (object_pc self) = n_points self ->
    (0 < n_points self)%nat ->
    Forall valid_row object_poses ->
    Forall valid_row socket_poses ->
    0 < threshold ->
    (forall l, Permutation (shuffle l) l) ->
    0 <= u <= 1 # 10 ->
    exists Ts contact,
      _xyzquat_to_tf_numpy object_poses = Some Ts /\
      get_extrinsic_contact compute_distance self object_poses socket_poses
                            threshold shuffle u = Some contact /\
      forall n p, (n < length object_poses)%nat -> (p < n_points self)%nat ->
        let point :=
          transform_point (nth n Ts eye4) (nth p (object_pc self) zero3) in
        let score := spec_score threshold (compute_distance scene point) in
        let entry := nth p (nth n contact []) 0 in
        (score = 1 \/ 0 <= score <= 1 # 10) /\
        (entry = score \/ (score = 1 /\ entry = 0)).
Proof.
  intros dist self scene object_poses socket_poses t shuffle u
         Hscene Hpc Hp Hobj Hsock Ht Hperm Hu.
  destruct (valid_rows_accepted _ Hobj) as [Ts Eo].
  destruct (valid_rows_accepted _ Hsock) as [Ss Es].
  pose proof (xyzquat_to_tf_numpy_length _ _ Eo) as HTs.
  rewrite (get_extrinsic_contact_unfold dist self scene object_poses
             socket_poses Ts Ss t shuffle u Hscene Eo Es).
  set (di := concat (map (map (dist scene)) (apply_transform Ts _))).
  assert (Hlen : length (dropout (score_distances di t) shuffle u) =
                 (length object_poses * n_points self)%nat).
  { rewrite dropout_length, score_distances_length. unfold di.
    rewrite distances_length, Hpc, HTs. reflexivity. }
  destruct (view_rows_nth (dropout (score_distances di t) shuffle u)
              (length object_poses) (n_points self) 0 Hp Hlen)
    as (rows & Hv & _ & Hnth).
  exists Ts, rows. split; [exact Eo|]. split; [exact Hv|].
  intros n p Hn Hpp. cbv zeta.
  split; [apply spec_score_binary|].
  rewrite (Hnth n p Hn Hpp).
  assert (Hi : (n * n_points self + p < length di)%nat).
  { unfold di. rewrite distances_length, Hpc, HTs. nia. }
  assert (Hd : nth (n * n_points self + p) (score_distances di t) 0 =
               spec_score t (dist scene
                 (transform_point (nth n Ts eye4)
                                  (nth p (object_pc self) zero3)))).
  { rewrite score_distances_map by exact Ht.
    rewrite nth_map_score by exact Hi.
    unfold di. rewrite <- Hpc.
    rewrite distance_at by (rewrite ?HTs, ?Hpc; assumption).
    reflexivity. }
  destruct (dropout_at (score_distances di t) shuffle u Hperm Hu
              (n * n_points self + p)%nat) as [[Hin E] | [Hout E]];
    cbv zeta in *.
  - right. split; [|exact E].
    destruct (chosen_hold_one (score_distances di t) shuffle u Hperm Hu _ Hin)
      as [_ H1].
    rewrite Hd in H1.
    destruct (spec_score_binary t
                (dist scene (transform_point (nth n Ts eye4)
                               (nth p (object_pc self) zero3))))
      as [B|B]; [exact B | lra].
  - left. rewrite E. exact Hd.
Qed.

Lemma get_extrinsic_contact_entries_witness :
  exists Ts contact,
    _xyzquat_to_tf_numpy [identity_row] = Some Ts /\
    get_extrinsic_contact (fun _ _ => 1 # 1000) small_estimator
      [identity_row] [identity_row] (2 # 1000) (fun l => l) (1 # 20)
    = Some contact.
Proof.
  destruct (get_extrinsic_contact_entries (fun _ _ => 1 # 1000)
              small_estimator (apply_scale triangle (Fin 1))
              [identity_row] [identity_row] (2 # 1000) (fun l => l)
              (1 # 20)) as [Ts [contact [E1 [E2 _]]]].
  - reflexivity.
  - reflexivity.
  - cbn. lia.
  - exact identity_row_valid.
  - exact identity_row_valid.
  - reflexivity.
  - intros l. apply Permutation_refl.
  - split; discriminate.
  - exists Ts, contact. split; assumption.
Defined.

Lemma where_one_none (d : list Q) :
  Forall (fun x => x == 0) d -> where_one d = [].
Proof.
  intros H. destruct (where_one d) as [|i l] eqn:E; [reflexivity|].
  assert (Hin : In i (where_one d)) by (rewrite E; left; reflexivity).
  apply where_one_spec in Hin. destruct Hin as [Hi H1].
  rewrite Forall_forall in H.
  assert (H0 : nth i d 0 == 0) by (apply H, nth_In, Hi).
  lra.
Qed.

(** X18 ([get_extrinsic_contact]).  An object in free space has no contact:
    when the scene reports a distance of at least the positive threshold
    for every point, the result is the array of zeros of shape
    N x n_points, whatever the shuffle and the uniform draw are. *)
Theorem get_extrinsic_contact_all_far :
  forall (compute_distance : Mesh -> vec3 -> Q) (self : ExtrinsicContact)
         (scene : Mesh) (object_poses socket_poses : list xyzquat)
         (threshold : Q) (shuffle : list nat -> list nat) (u : Q),
    socket self = Some scene ->
    length (object_pc self) = n_points self ->
    (0 < n_points self)%nat ->
    Forall valid_row object_poses ->
    Forall valid_row socket_poses ->
    0 < threshold ->
    (forall v, threshold <= compute_distance scene v) ->
    exists contact,
      get_extrinsic_contact compute_distance self object_poses socket_poses
                            threshold shuffle u = Some contact /\
      length contact = length object_poses /\
      Forall (fun row => length row = n_points self /\
                         Forall (fun x => x == 0) row) contact.
Proof.
  intros dist self scene object_poses socket_poses t shuffle u
         Hscene Hpc Hp Hobj Hsock Ht Hfar.
  destruct (valid_rows_accepted _ Hobj) as [Ts Eo].
  destruct (valid_rows_accepted _ Hsock) as [Ss Es].
  pose proof (xyzquat_to_tf_numpy_length _ _ Eo) as HTs.
  rewrite (get_extrinsic_contact_unfold dist self scene object_poses
             socket_poses Ts Ss t shuffle u Hscene Eo Es).
  set (di := concat (map (map (dist scene)) (apply_transform Ts _))).
  assert (Hz : Forall (fun x => x == 0) (score_distances di t)).
  { rewrite score_distances_map by exact Ht.
    apply Forall_map, Forall_forall. intros x Hx.
    apply spec_score_far; [exact Ht|].
    unfold di in Hx. apply in_concat in Hx. destruct Hx as [row [Hrow Hx]].
    apply in_map_iff in Hrow. destruct Hrow as [pts [<- _]].
    apply in_map_iff in Hx. destruct Hx as [v [<- _]]. apply Hfar. }
  assert (Hd : dropout (score_distances di t) shuffle u =
               score_distances di t).
  { unfold dropout. rewrite (where_one_none _ Hz). reflexivity. }
  rewrite Hd.
  destruct (view_rows_whole (score_distances di t)
              (length object_poses) (n_points self) Hp)
    as (rows & Hv & Hlen & Hrows).
  { rewrite score_distances_length. unfold di.
    rewrite distances_length, Hpc, HTs. reflexivity. }
  exists rows. split; [exact Hv | split; [exact Hlen | ] ].
  eapply Forall_impl; [ | exact Hrows].
  intros row [Hrl Hin]. split; [exact Hrl | ].
  apply Forall_forall. intros x Hx.
  rewrite Forall_forall in Hz. apply Hz, Hin, Hx.
Qed.

Lemma get_extrinsic_contact_all_far_witness :
  exists contact,
    get_extrinsic_contact (fun _ _ => 3 # 1000) small_estimator
      [identity_row] [identity_row] (2 # 1000) (@rev nat) (1 # 10)
    = Some contact /\
    length contact = 1%nat /\
    Forall (fun row => length row = 2%nat /\
                       Forall (fun x => x == 0) row) contact.
Proof.
  apply (get_extrinsic_contact_all_far (fun _ _ => 3 # 1000)
           small_estimator (apply_scale triangle (Fin 1))).
  - reflexivity.
  - reflexivity.
  - cbn. lia.
  - exact identity_row_valid.
  - exact identity_row_valid.
  - reflexivity.
  - intros v. discriminate.
Defined.

End Entries.

Section SceneLifeCycle.

Lemma last_reset_snoc (calls : list call) (c : call) :
  last_reset (calls ++ [c]) =
  match c with
  | ResetSocketPos p _ => Some p
  | _ => last_reset calls
  end.
Proof. unfold last_reset. rewrite fold_left_app. reflexivity. Qed.

Lemma lifetime_snoc (self : ExtrinsicContact) (calls : list call)
    (c : call) :
  lifetime self (calls ++ [c]) = step_call (lifetime self calls) c.
Proof. unfold lifetime. rewrite fold_left_app. reflexivity. Qed.

Lemma lifetime_keeps_pristine (self : ExtrinsicContact) (calls : list call) :
  reset_socket_trimesh (lifetime self calls) = reset_socket_trimesh self.
Proof.
  induction calls as [|c calls IH] using rev_ind; [reflexivity|].
  rewrite lifetime_snoc. destruct c; cbn; exact IH.
Qed.

Local Open Scope R_scope.

Lemma translated_vertex (p v : Rvec3) :
  transform_point (translation (fin3 p)) (vscale (Fin 1) (fin3 v)) =
  fin3 (radd3 v p).
Proof.
  destruct p as [[p0 p1] p2]. destruct v as [[x y] z].
  unfold transform_point, translation, eye3, vscale, fin3, radd3.
  cbn [rot pos nadd nmul lift2].
  entrywise; ring.
Qed.

Lemma lifetime_scene (mesh_obj mesh_socket : Mesh)
    (obj_scale socket_scale : num) (socket_pos0 : vec3)
    (num_envs num_points : nat) (calc_contact : bool)
    (rng_socket rng_obj : nat -> Draw) (calls : list call) :
  let self :=
    lifetime (__init__ mesh_obj mesh_socket obj_scale socket_scale
                       socket_pos0 num_envs num_points calc_contact
                       rng_socket rng_obj) calls in
  socket_trimesh self =
    match last_reset calls with
    | Some p =>
        mesh_apply_transform (apply_scale mesh_socket (Fin 1))
                             (translation p)
    | None => apply_scale mesh_socket socket_scale
    end /\
  socket self =
    match last_reset calls with
    | Some _ => Some (socket_trimesh self)
    | None => if calc_contact then Some (socket_trimesh self) else None
    end /\
  socket_pos self =
    match last_reset calls with Some p => p | None => socket_pos0 end.
Proof.
  set (init := __init__ mesh_obj mesh_socket obj_scale socket_scale
                 socket_pos0 num_envs num_points calc_contact
                 rng_socket rng_obj).
  cbv zeta.
  induction calls as [|c calls IH] using rev_ind.
  - cbn. destruct calc_contact; repeat split; reflexivity.
  - rewrite lifetime_snoc, last_reset_snoc.
    pose proof (lifetime_keeps_pristine init calls) as Hp.
    destruct IH as [IH1 [IH2 IH3]].
    destruct c as [p rng| |].
    + unfold step_call, reset_socket_pos.
      cbn [socket_trimesh socket socket_pos]. rewrite Hp.
      repeat split; reflexivity.
    + unfold step_call, reset_extrinsic_contact.
      cbn [socket_trimesh socket socket_pos].
      split; [exact IH1 | split; [exact IH2 | exact IH3]].
    + unfold step_call, displayed.
      cbn [socket_trimesh socket socket_pos].
      split; [exact IH1 | split; [exact IH2 | exact IH3]].
Qed.

(** X19 ([__init__], [reset_socket_pos], [reset_extrinsic_contact]).  The
    socket mesh follows the last reposition and nothing else: after any
    sequence of calls the mesh is the pristine mesh, unscaled, translated by
    the position of the last [reset_socket_pos], so that repositions do not
    accumulate and the [socket_scale] of the construction is dropped by the
    first of them; without a reposition it is the scaled mesh of the
    construction.  The scene exists exactly when [calc_contact] was set or
    a reposition happened, and it is then the scene of that mesh. *)
Theorem socket_mesh_follows_last_reset :
  forall (mesh_obj mesh_socket : Mesh) (obj_scale socket_scale : num)
         (socket_pos0 : vec3) (num_envs num_points : nat)
         (calc_contact : bool) (rng_socket rng_obj : nat -> Draw)
         (calls : list call),
    let self :=
      lifetime (__init__ mesh_obj mesh_socket obj_scale socket_scale
                         socket_pos0 num_envs num_points calc_contact
                         rng_socket rng_obj) calls in
    socket_trimesh self =
      match last_reset calls with
      | Some p =>
          mesh_apply_transform (apply_scale mesh_socket (Fin 1))
                               (translation p)
      | None => apply_scale mesh_socket socket_scale
      end /\
    socket self =
      match last_reset calls with
      | Some _ => Some (socket_trimesh self)
      | None => if calc_contact then Some (socket_trimesh self) else None
      end /\
    socket_pos self =
      match last_reset calls with Some p => p | None => socket_pos0 end /\
    (forall (vs : list Rvec3) (p : Rvec3),
        vertices mesh_socket = map fin3 vs ->
        last_reset calls = Some (fin3 p) ->
        vertices (socket_trimesh self) = map (fun v => fin3 (radd3 v p)) vs).
Proof.
  intros mesh_obj mesh_socket obj_scale socket_scale socket_pos0 num_envs
         num_points calc_contact rng_socket rng_obj calls self.
  destruct (lifetime_scene mesh_obj mesh_socket obj_scale socket_scale
              socket_pos0 num_envs num_points calc_contact rng_socket
              rng_obj calls) as [H1 [H2 H3]].
  fold self in H1, H2, H3.
  split; [exact H1 | split; [exact H2 | split; [exact H3 |]]].
  intros vs p Hv Hl. rewrite H1, Hl.
  unfold mesh_apply_transform, apply_scale. cbn [vertices].
  rewrite Hv, !map_map. apply map_ext. intros v. apply translated_vertex.
Qed.

(** X20 ([__init__], [reset_socket_pos], [get_extrinsic_contact]).  An
    estimator built without [calc_contact], the default the environment
    uses, has no scene: until the first [reset_socket_pos]
    [get_extrinsic_contact] raises on every input, and from the first
    [reset_socket_pos] on the scene is there and holds the current socket
    mesh. *)
Theorem get_extrinsic_contact_needs_reset :
  forall (compute_distance : Mesh -> vec3 -> Q)
         (mesh_obj mesh_socket : Mesh) (obj_scale socket_scale : num)
         (socket_pos0 : vec3) (num_envs num_points : nat)
         (rng_socket rng_obj : nat -> Draw) (calls : list call),
    let self :=
      lifetime (__init__ mesh_obj mesh_socket obj_scale socket_scale
                         socket_pos0 num_envs num_points false
                         rng_socket rng_obj) calls in
    (last_reset calls = None ->
     forall object_poses socket_poses threshold shuffle u,
       get_extrinsic_contact compute_distance self object_poses socket_poses
                             threshold shuffle u = None) /\
    (last_reset calls <> None -> socket self = Some (socket_trimesh self)).
Proof.
  intros dist mesh_obj mesh_socket obj_scale socket_scale socket_pos0
         num_envs num_points rng_socket rng_obj calls self.
  destruct (lifetime_scene mesh_obj mesh_socket obj_scale socket_scale
              socket_pos0 num_envs num_points false rng_socket rng_obj
              calls) as [_ [H2 _]].
  fold self in H2.
  split.
  - intros Hl object_poses socket_poses t shuffle u.
    rewrite Hl in H2. unfold get_extrinsic_contact.
    destruct (_xyzquat_to_tf_numpy object_poses); [|reflexivity].
    destruct (_xyzquat_to_tf_numpy socket_poses); [|reflexivity].
    rewrite H2. reflexivity.
  - intros Hl. destruct (last_reset calls); [exact H2 | contradiction].
Qed.

End SceneLifeCycle.

Section GoalCloud.

Local Open Scope nat_scope.

Lemma scaled_goal_points_some (pc : list vec3) (Ts : list pose)
    (scales : list num) :
  length scales <= length Ts ->
  exists goal,
    scaled_goal_points pc Ts scales = Some goal /\
    length goal = length scales /\
    forall i, i < length scales ->
      nth i goal [] =
      map (transform_point (nth i Ts eye4))
          (map (vscale (nth i scales NaN)) pc).
Proof.
  revert Ts. induction scales as [|s ss IH]; intros Ts H.
  - exists []. split; [destruct Ts; reflexivity|]. split; [reflexivity|].
    intros i Hi. cbn in Hi. lia.
  - destruct Ts as [|T Ts]; [cbn in H; lia|].
    cbn [length] in H.
    destruct (IH Ts) as (goal & Hg & Hl & Hn); [lia|].
    eexists. cbn [scaled_goal_points]. rewrite Hg.
    split; [reflexivity|]. split; [cbn; rewrite Hl; reflexivity|].
    intros [|i] Hi; [reflexivity|].
    cbn [nth]. apply Hn. cbn in Hi. lia.
Qed.

Lemma scaled_goal_points_none (pc : list vec3) (Ts : list pose)
    (scales : list num) :
  length Ts < length scales -> scaled_goal_points pc Ts scales = None.
Proof.
  revert Ts. induction scales as [|s ss IH]; intros Ts H.
  - cbn in H. lia.
  - destruct Ts as [|T Ts]; [reflexivity|].
    cbn [scaled_goal_points]. rewrite IH by (cbn in H; lia). reflexivity.
Qed.

Lemma cat_dim1_none (a b : list (list vec3)) :
  length a <> length b -> cat_dim1 a b = None.
Proof.
  revert b. induction a as [|x a IH]; intros [|y b] H;
    try reflexivity; [cbn in H; lia|].
  cbn [cat_dim1]. rewrite IH by (cbn in H; lia). reflexivity.
Qed.

(** X21 ([get_goal_pcl]).  The goal cloud has one row per entry of
    [plug_scale]: the call raises exactly when a socket quaternion is zero,
    [plug_scale] is empty, or there are fewer socket poses than scales;
    otherwise row i holds the sample points scaled by [plug_scale[i]] and
    moved by socket pose i, and socket poses beyond the scales are not
    read. *)
Theorem get_goal_pcl_rows :
  forall (self : ExtrinsicContact) (socket_poses : list xyzquat)
         (plug_scale : list num),
    (get_goal_pcl self socket_poses plug_scale = None <->
     _xyzquat_to_tf_numpy socket_poses = None \/
     plug_scale = [] \/
     length socket_poses < length plug_scale) /\
    (forall Ts,
        _xyzquat_to_tf_numpy socket_poses = Some Ts ->
        plug_scale <> [] ->
        length plug_scale <= length socket_poses ->
        exists goal,
          get_goal_pcl self socket_poses plug_scale = Some goal /\
          length goal = length plug_scale /\
          forall i, i < length plug_scale ->
            nth i goal [] =
            map (transform_point (nth i Ts eye4))
                (map (vscale (nth i plug_scale NaN)) (object_pc self))).
Proof.
  intros self rows scales.
  assert (Hsome : forall Ts,
             _xyzquat_to_tf_numpy rows = Some Ts ->
             scales <> [] -> length scales <= length rows ->
             exists goal,
               get_goal_pcl self rows scales = Some goal /\
               length goal = length scales /\
               forall i, i < length scales ->
                 nth i goal [] =
                 map (transform_point (nth i Ts eye4))
                     (map (vscale (nth i scales NaN)) (object_pc self))).
  { intros Ts ETs Hne Hle.
    pose proof (xyzquat_to_tf_numpy_length _ _ ETs) as HTs.
    destruct (scaled_goal_points_some (object_pc self) Ts scales)
      as (goal & Hg & Hl & Hn); [lia|].
    exists goal. split; [|split; [exact Hl | exact Hn]].
    unfold get_goal_pcl, goal_points. rewrite ETs, Hg.
    destruct goal; [|reflexivity].
    destruct scales; [contradiction | cbn in Hl; lia]. }
  split; [|exact Hsome].
  split.
  - intros HN.
    destruct (_xyzquat_to_tf_numpy rows) as [Ts|] eqn:ETs;
      [|left; reflexivity].
    right.
    destruct scales as [|s ss]; [left; reflexivity|]. right.
    destruct (Nat.lt_ge_cases (length rows) (length (s :: ss)))
      as [Hlt|Hge]; [exact Hlt|].
    destruct (Hsome Ts eq_refl) as (goal & Hg & _); [discriminate | exact Hge |].
    rewrite Hg in HN. discriminate.
  - intros [HN | [HN | HN]].
    + unfold get_goal_pcl, goal_points. rewrite HN. reflexivity.
    + subst scales. unfold get_goal_pcl, goal_points.
      destruct (_xyzquat_to_tf_numpy rows) as [Ts|]; [|reflexivity].
      destruct Ts; reflexivity.
    + unfold get_goal_pcl, goal_points.
      destruct (_xyzquat_to_tf_numpy rows) as [Ts|] eqn:ETs; [|reflexivity].
      pose proof (xyzquat_to_tf_numpy_length _ _ ETs) as HTs.
      rewrite scaled_goal_points_none by lia. reflexivity.
Qed.

(** X22 ([merge_goal_pcl]).  [merge_goal_pcl] raises exactly when a socket
    quaternion is zero, [plug_scale] is empty, there are fewer socket poses
    than scales, or the existing cloud does not have one row per scale; the
    random permutation has no part in it. *)
Theorem merge_goal_pcl_raises_iff :
  forall (self : ExtrinsicContact) (pcl : list (list vec3))
         (socket_poses : list xyzquat) (plug_scale : list num)
         (randperm : nat -> list nat),
    merge_goal_pcl self pcl socket_poses plug_scale randperm = None <->
    _xyzquat_to_tf_numpy socket_poses = None \/
    plug_scale = [] \/
    length socket_poses < length plug_scale \/
    length pcl <> length plug_scale.
Proof.
  intros self pcl rows scales randperm.
  unfold merge_goal_pcl, merge_goal_points, goal_points.
  destruct (_xyzquat_to_tf_numpy rows) as [Ts|] eqn:ETs;
    [|split; [left; reflexivity | reflexivity]].
  pose proof (xyzquat_to_tf_numpy_length _ _ ETs) as HTs.
  destruct scales as [|s ss].
  - replace (scaled_goal_points (object_pc self) Ts []) with (Some (@nil (list vec3)))
      by (destruct Ts; reflexivity).
    split; [right; left; reflexivity | reflexivity].
  - destruct (Nat.lt_ge_cases (length rows) (length (s :: ss)))
      as [Hlt|Hge].
    + rewrite scaled_goal_points_none by lia.
      split; [right; right; left; exact Hlt | reflexivity].
    + destruct (scaled_goal_points_some (object_pc self) Ts (s :: ss))
        as (goal & Hg & Hl & _); [lia|].
      rewrite Hg.
      destruct goal as [|g goal]; [cbn in Hl; lia|].
      destruct (Nat.eq_dec (length pcl) (length (s :: ss))) as [E|NE].
      * destruct (cat_dim1_rows pcl (g :: goal)) as (merged & Hm & _);
          [lia|].
        rewrite Hm. split; [discriminate|].
        intros [H | [H | [H | H]]];
          [discriminate | discriminate | lia | contradiction].
      * rewrite cat_dim1_none by lia.
        split; [right; right; right; exact NE | reflexivity].
Qed.

End GoalCloud.

Section SampledCloud.

Local Open Scope nat_scope.

Lemma take_points_app (i1 i2 : list nat) (row : list vec3) :
  take_points (i1 ++ i2) row = take_points i1 row ++ take_points i2 row.
Proof. unfold take_points. apply map_app. Qed.

Lemma distinct_indices_complete (n : nat) (idx : list nat) :
  NoDup idx -> Forall (fun i => i < n) idx ->
  exists rest, Permutation (idx ++ rest) (seq 0 n).
Proof.
  intros Hnd Hlt.
  exists (filter (fun i => negb (existsb (Nat.eqb i) idx)) (seq 0 n)).
  apply NoDup_Permutation.
  - apply NoDup_app; [exact Hnd | apply NoDup_filter, seq_NoDup |].
    intros i Hi Hf. apply filter_In in Hf. destruct Hf as [_ Hf].
    apply negb_true_iff in Hf.
    assert (existsb (Nat.eqb i) idx = true).
    { apply existsb_exists. exists i. split; [exact Hi | apply Nat.eqb_refl]. }
    congruence.
  - apply seq_NoDup.
  - intros i. split.
    + intros H. apply in_app_or in H. destruct H as [H|H].
      * rewrite Forall_forall in Hlt. apply in_seq. specialize (Hlt i H). lia.
      * apply filter_In in H. apply H.
    + intros H.
      destruct (existsb (Nat.eqb i) idx) eqn:E.
      * apply existsb_exists in E. destruct E as [j [Hj Ej]].
        apply Nat.eqb_eq in Ej. subst j. apply in_or_app. left. exact Hj.
      * apply in_or_app. right. apply filter_In. split; [exact H|].
        rewrite E. reflexivity.
Qed.

Lemma take_points_distinct (idx : list nat) (row : list vec3) :
  NoDup idx -> Forall (fun i => i < length row) idx ->
  exists rest, Permutation (take_points idx row ++ rest) row.
Proof.
  intros Hnd Hlt.
  destruct (distinct_indices_complete (length row) idx Hnd Hlt)
    as [rest Hp].
  exists (take_points rest row).
  rewrite <- take_points_app. apply take_points_permutation. exact Hp.
Qed.

Lemma apply_transform_nth (Ts : list pose) (pc : list vec3) (i : nat) :
  i < length Ts ->
  nth i (apply_transform Ts pc) [] = map (transform_point (nth i Ts eye4)) pc.
Proof.
  intros H. unfold apply_transform.
  apply (nth_map_in (fun T => map (transform_point T) pc) Ts i eye4 []).
  exact H.
Qed.

(** X23 ([get_pcl]).  For N >= 1 instances with valid object and socket
    poses, [get_pcl] returns for each instance P = |object_pc| points
    (3 P numbers), read at the same P distinct positions, drawn once for the
    whole batch, from the row that joins the plug points under the object
    pose, the unscaled plug points under the socket pose and the cached
    socket points under the socket pose. *)
Theorem get_pcl_samples :
  forall (self : ExtrinsicContact) (object_poses socket_poses : list xyzquat)
         (choice : nat -> nat -> list nat) (P : nat),
    length (object_pc self) = P ->
    object_poses <> [] ->
    length socket_poses = length object_poses ->
    Forall valid_row object_poses ->
    Forall valid_row socket_poses ->
    draws_without_replacement choice ->
    exists To Ts out,
      _xyzquat_to_tf_numpy object_poses = Some To /\
      _xyzquat_to_tf_numpy socket_poses = Some Ts /\
      get_pcl self object_poses socket_poses choice = Some out /\
      length out = length object_poses /\
      let sampled_indices := choice (2 * P + length (socket_pc self)) P in
      forall i, i < length object_poses ->
        let merged :=
          map (transform_point (nth i To eye4)) (object_pc self) ++
          map (transform_point (nth i Ts eye4)) (object_pc self) ++
          map (transform_point (nth i Ts eye4)) (socket_pc self) in
        let sampled := take_points sampled_indices merged in
        nth i out [] = flatten_points sampled /\
        length (nth i out []) = 3 * P /\
        length sampled = P /\
        (forall p, In p sampled -> In p merged) /\
        (exists rest, Permutation (sampled ++ rest) merged).
Proof.
  intros self orows srows choice P HP Hne Hlen Ho Hs Hch.
  destruct (valid_rows_accepted _ Ho) as [To ETo].
  destruct (valid_rows_accepted _ Hs) as [Ts ETs].
  pose proof (xyzquat_to_tf_numpy_length _ _ ETo) as HTo.
  pose proof (xyzquat_to_tf_numpy_length _ _ ETs) as HTs.
  set (a := apply_transform To (object_pc self)).
  set (b := apply_transform Ts (object_pc self)).
  set (c := apply_transform Ts (socket_pc self)).
  assert (La : length a = length orows)
    by (unfold a; rewrite apply_transform_length; exact HTo).
  assert (Lb : length b = length orows)
    by (unfold b; rewrite apply_transform_length; lia).
  assert (Lc : length c = length orows)
    by (unfold c; rewrite apply_transform_length; lia).
  destruct (cat_dim1_rows a b) as (ab & Hab & Lab & Nab); [lia|].
  destruct (cat_dim1_rows ab c) as (m & Hm & Lm & Nm); [lia|].
  assert (Hrow : forall i, i < length orows ->
            nth i m [] =
            map (transform_point (nth i To eye4)) (object_pc self) ++
            map (transform_point (nth i Ts eye4)) (object_pc self) ++
            map (transform_point (nth i Ts eye4)) (socket_pc self)).
  { intros i Hi. rewrite Nm, Nab. unfold a, b, c.
    rewrite !apply_transform_nth by lia. rewrite <- app_assoc. reflexivity. }
  assert (Hrl : forall i, i < length orows ->
            length (nth i m []) = 2 * P + length (socket_pc self)).
  { intros i Hi. rewrite (Hrow i Hi), !length_app, !length_map, HP. lia. }
  assert (Hs1 : size1 m = 2 * P + length (socket_pc self)).
  { destruct orows as [|r0 orows']; [contradiction|].
    destruct m as [|m0 m']; [cbn in Lm; cbn in Lab; cbn in La; lia|].
    apply (Hrl 0). cbn. lia. }
  destruct (Hch (2 * P + length (socket_pc self)) P) as [Hcl [Hnd Hlt]];
    [lia|].
  exists To, Ts.
  exists (map (fun row =>
                 flatten_points
                   (take_points
                      (choice (2 * P + length (socket_pc self)) P) row)) m).
  split; [exact ETo|]. split; [exact ETs|]. split.
  { unfold get_pcl. rewrite ETo, ETs. fold a b c.
    unfold concatenate3. rewrite Hab, Hm, Hs1, HP. reflexivity. }
  split; [rewrite length_map; lia|].
  intros idx i Hi merged sampled. fold idx.
  assert (Hout : nth i (map (fun row => flatten_points (take_points idx row)) m)
                     [] = flatten_points sampled).
  { rewrite (nth_map_in _ m i [] []) by lia.
    rewrite (Hrow i Hi). reflexivity. }
  assert (Hsl : length sampled = P).
  { unfold sampled, take_points. rewrite length_map. exact Hcl. }
  split; [exact Hout|]. split; [|split; [exact Hsl | split]].
  - rewrite Hout, flatten_points_length, Hsl. reflexivity.
  - intros p Hp. unfold sampled, take_points in Hp.
    apply in_map_iff in Hp. destruct Hp as [j [<- Hj]].
    apply nth_In. rewrite Forall_forall in Hlt. specialize (Hlt j Hj).
    cbv beta in Hlt. unfold merged. rewrite !length_app, !length_map, HP. lia.
  - apply take_points_distinct; [exact Hnd|].
    eapply Forall_impl; [|exact Hlt].
    intros j Hj. cbv beta in Hj. unfold merged.
    rewrite !length_app, !length_map, HP. lia.
Qed.

Lemma seq_draws : draws_without_replacement (fun _ k => seq 0 k).
Proof.
  intros n k Hk. split; [apply length_seq|]. split; [apply seq_NoDup|].
  apply Forall_forall. intros i Hi. apply in_seq in Hi. lia.
Qed.

Lemma get_pcl_samples_witness :
  exists out,
    get_pcl small_estimator [identity_row] [identity_row]
            (fun _ k => seq 0 k) = Some out /\
    length out = 1 /\ length (nth 0 out []) = 6.
Proof.
  destruct (get_pcl_samples small_estimator [identity_row] [identity_row]
              (fun _ k => seq 0 k) 2)
    as (To & Ts & out & _ & _ & E & L & H).
  - reflexivity.
  - discriminate.
  - reflexivity.
  - exact identity_row_valid.
  - exact identity_row_valid.
  - exact seq_draws.
  - exists out. split; [exact E|]. split; [exact L|].
    apply (H 0). cbn. lia.
Defined.

End SampledCloud.

Section RecorderFacts.

Import Recording.

Variables Image Action : Type.

(** What the recording methods keep true of the attributes. *)
Let idle (self : Recorder Image Action) : Prop :=
  video_frames self = [] /\ ft_frames self = [] /\
  (record_now self = true -> complete_video_frames self = None) /\
  (record_now_ft self = true -> complete_ft_frames self = None) /\
  (complete_video_frames self = None \/ complete_video_frames self = Some [])
  /\
  (complete_ft_frames self = None \/ complete_ft_frames self = Some []).

Lemma recording_step_idle (self : Recorder Image Action)
    (c : recording_call Image Action) :
  idle self -> idle (recording_step self c).
Proof.
  unfold idle. intros (Hv & Hf & Hr & Hrf & Hc & Hcf).
  destruct c as [ | | | | v a]; cbn [recording_step].
  - unfold start_recording; cbn.
    repeat split; auto.
  - unfold start_recording_ft; cbn.
    repeat split; auto.
  - unfold pause_recording; cbn.
    repeat split; auto; discriminate.
  - unfold pause_recording_ft; cbn.
    repeat split; auto; discriminate.
  - unfold _render_headless.
    assert (E1 : record_now self &&
                 present_and_empty (complete_video_frames self)
                 = false).
    { destruct (record_now self); [|reflexivity].
      rewrite (Hr eq_refl). reflexivity. }
    rewrite E1.
    assert (E2 : record_now_ft self &&
                 present_and_empty (complete_ft_frames self)
                 = false).
    { destruct (record_now_ft self); [|reflexivity].
      rewrite (Hrf eq_refl). reflexivity. }
    rewrite E2. repeat split; auto.
Qed.

Lemma recording_run_idle (calls : list (recording_call Image Action))
    (self : Recorder Image Action) :
  idle self -> idle (recording_run self calls).
Proof.
  revert self. induction calls as [|c calls IH]; intros self H.
  - exact H.
  - cbn. apply IH. apply recording_step_idle. exact H.
Qed.

End RecorderFacts.

Section RecorderTheorem.

Import Recording.

(** X24 ([start_recording], [pause_recording], [_render_headless],
    [get_complete_frames] and the force-torque variants).  With the methods
    of the class alone nothing is ever recorded: [_render_headless] stores a
    frame only while the recording flag is set and the list of complete
    frames is an empty list, but [start_recording] sets the flag together
    with [None] and [pause_recording] sets the empty list together with a
    cleared flag.  After any sequence of these calls on a new environment
    both frame buffers are empty and both getters return the empty list. *)
Theorem recording_never_captures :
  forall (Image Action : Type) (calls : list (recording_call Image Action)),
    let self := recording_run env__init__ calls in
    video_frames self = [] /\
    ft_frames self = [] /\
    get_complete_frames self = [] /\
    get_ft_frames self = [].
Proof.
  intros Image Action calls self.
  destruct (recording_run_idle Image Action calls env__init__)
    as (Hv & Hf & _ & _ & Hc & Hcf).
  { cbn. repeat split; auto; discriminate. }
  fold self in Hv, Hf, Hc, Hcf.
  split; [exact Hv|]. split; [exact Hf|].
  unfold get_complete_frames, get_ft_frames.
  split.
  - destruct Hc as [-> | ->]; reflexivity.
  - destruct Hcf as [-> | ->]; reflexivity.
Qed.

End RecorderTheorem.

Section NoiseFacts.

Import SocketNoise.
Import PoseTracker.

Local Open Scope Q_scope.

Lemma columns_overwritten (a : list Qvec3) (f0 f1 f2 : nat -> Q) (s : nat) :
  set_column2
    (set_column1 (set_column0 a (map f0 (seq s (length a))))
                 (map f1 (seq s (length a))))
    (map f2 (seq s (length a))) =
  map (fun i => (f0 i, f1 i, f2 i)) (seq s (length a)).
Proof.
  revert s. induction a as [|[[x y] z] a IH]; intros s; [reflexivity|].
  cbn [length seq map]. unfold set_column0, set_column1, set_column2 in *.
  cbn [map2]. f_equal. apply IH.
Qed.

Lemma add_socket_noise_rows (randomize : Randomize) (table_height : Q)
    (rand_xy : nat -> Q * Q) (rand_z : nat -> Q) (socket_pos : list Qvec3) :
  add_socket_noise randomize table_height rand_xy rand_z socket_pos =
  map (fun i =>
         (fst (socket_pos_xy_initial randomize)
          + (2 * (fst (rand_xy i) - (1 # 2))
             * fst (socket_pos_xy_noise randomize)
             + 2 * (snd (rand_xy i) - (1 # 2)) * 0),
          snd (socket_pos_xy_initial randomize)
          + (2 * (fst (rand_xy i) - (1 # 2)) * 0
             + 2 * (snd (rand_xy i) - (1 # 2))
               * snd (socket_pos_xy_noise randomize)),
          table_height
          + ((snd (socket_pos_z_noise_bounds randomize)
              - fst (socket_pos_z_noise_bounds randomize)) * rand_z i
             + fst (socket_pos_z_noise_bounds randomize))))
      (seq 0 (length socket_pos)).
Proof.
  unfold add_socket_noise.
  destruct (socket_pos_xy_noise randomize) as [s0 s1].
  rewrite !map_map.
  rewrite columns_overwritten.
  apply map_ext. intros i. cbn [fst snd].
  destruct (rand_xy i). reflexivity.
Qed.

(** X25 ([add_socket_noise]).  The noisy socket positions replace the given
    ones and stay in a box: for draws in [0, 1), non-negative noise scales
    and ordered z bounds, the result has one row per given row, it does not
    depend on the positions given, and every row lies within the xy noise
    scale of the configured initial position and between the z bounds above
    the table height. *)
Theorem add_socket_noise_in_box :
  forall (randomize : Randomize) (table_height : Q)
         (rand_xy : nat -> Q * Q) (rand_z : nat -> Q)
         (socket_pos : list Qvec3),
    unit_draws rand_xy rand_z ->
    0 <= fst (socket_pos_xy_noise randomize) ->
    0 <= snd (socket_pos_xy_noise randomize) ->
    fst (socket_pos_z_noise_bounds randomize)
      <= snd (socket_pos_z_noise_bounds randomize) ->
    let noisy :=
      add_socket_noise randomize table_height rand_xy rand_z socket_pos in
    length noisy = length socket_pos /\
    Forall (in_noise_box randomize table_height) noisy /\
    (forall other,
        length other = length socket_pos ->
        add_socket_noise randomize table_height rand_xy rand_z other = noisy).
Proof.
  intros randomize table_height rand_xy rand_z socket_pos Hd H0 H1 Hz noisy.
  unfold noisy. rewrite add_socket_noise_rows.
  split; [rewrite length_map, length_seq; reflexivity|]. split.
  - apply Forall_map, Forall_forall. intros i _.
    destruct (Hd i) as (Ha & Hb & Hc).
    unfold in_noise_box.
    destruct (socket_pos_xy_noise randomize) as [s0 s1].
    destruct (socket_pos_xy_initial randomize) as [x0 y0].
    destruct (socket_pos_z_noise_bounds randomize) as [lo hi].
    cbn [fst snd] in *.
    set (a := fst (rand_xy i)) in *. set (b := snd (rand_xy i)) in *.
    set (c := rand_z i) in *.
    repeat split; nra.
  - intros other Ho. rewrite add_socket_noise_rows, Ho. reflexivity.
Qed.

Lemma add_socket_noise_in_box_witness :
  let randomize :=
    mkRandomize (1 # 10, 1 # 10) (0, 1 # 100) (1 # 2, 0) (0, 0, 0) in
  Forall (in_noise_box randomize (4 # 10))
    (add_socket_noise randomize (4 # 10)
       (fun _ => (3 # 4, 1 # 4)) (fun _ => 1 # 2) [(0, 0, 0); (1, 1, 1)]).
Proof.
  intros randomize.
  apply (add_socket_noise_in_box randomize (4 # 10)
           (fun _ => (3 # 4, 1 # 4)) (fun _ => 1 # 2) [(0, 0, 0); (1, 1, 1)]).
  - intros i. cbn. repeat split; discriminate || reflexivity.
  - cbn. discriminate.
  - cbn. discriminate.
  - cbn. discriminate.
Defined.

End NoiseFacts.

Section GraspFacts.

Import Stdlib.Strings.String.
Import SocketNoise.
Import GraspPoses.
Import PoseTracker.

Local Open Scope nat_scope.

Lemma dict_set_same {V : Type} (d : dict V) (k : string) (v : V) :
  dict_set d k v k = Some v.
Proof. unfold dict_set. rewrite String.eqb_refl. reflexivity. Qed.

Lemma dict_set_other {V : Type} (d : dict V) (k k' : string) (v : V) :
  k <> k' -> dict_set d k v k' = d k'.
Proof.
  intros H. unfold dict_set.
  destruct (String.eqb k k') eqn:E; [|reflexivity].
  apply String.eqb_eq in E. contradiction.
Qed.

Lemma valid_indices_rows (get_euler_xyz : Qquat -> R * R * R)
    (plug_quat : list Qquat) :
  valid_indices get_euler_xyz plug_quat = map (keeps get_euler_xyz) plug_quat.
Proof.
  unfold valid_indices. rewrite !map_map.
  induction plug_quat as [|q l IH]; [reflexivity|].
  cbn [map map2]. rewrite IH. f_equal.
  unfold keeps. destruct (get_euler_xyz q) as [[roll pitch] yaw].
  reflexivity.
Qed.

Lemma mask_select_kept {A : Type} (mask : list bool) (a : list A) :
  List.length mask = List.length a ->
  mask_select mask a = Some (kept_rows mask a).
Proof.
  revert a. induction mask as [|b mask IH]; intros [|x a] H;
    try (cbn in H; lia); [reflexivity|].
  cbn [mask_select]. rewrite IH by (cbn in H; lia).
  unfold kept_rows. cbn [combine filter fst]. destruct b; reflexivity.
Qed.

Lemma mask_select_mismatch {A : Type} (mask : list bool) (a : list A) :
  List.length mask <> List.length a -> mask_select mask a = None.
Proof.
  revert a. induction mask as [|b mask IH]; intros [|x a] H;
    try reflexivity; [cbn in H; lia|].
  cbn [mask_select]. rewrite IH by (cbn in H; lia). reflexivity.
Qed.

Lemma kept_rows_length {A : Type} (mask : list bool) (a : list A) :
  List.length mask = List.length a ->
  List.length (kept_rows mask a) = count_true mask.
Proof.
  revert a. induction mask as [|b mask IH]; intros [|x a] H;
    try (cbn in H; lia); [reflexivity|].
  unfold kept_rows, count_true in *. cbn [combine filter fst].
  destruct b; cbn [map List.length filter];
    rewrite IH by (cbn in H; lia); reflexivity.
Qed.

Lemma kept_rows_In {A : Type} (mask : list bool) (a : list A) (x : A) :
  In x (kept_rows mask a) -> In x a.
Proof.
  unfold kept_rows. intros H. apply in_map_iff in H.
  destruct H as [[b y] [E H]]. cbn in E. subst y.
  apply filter_In in H. destruct H as [H _].
  apply in_combine_r in H. exact H.
Qed.

Lemma kept_rows_map_mask {A : Type} (f : A -> bool) (a : list A) :
  kept_rows (map f a) a = filter f a.
Proof.
  unfold kept_rows. induction a as [|x a IH]; [reflexivity|].
  cbn [map combine filter fst]. destruct (f x); cbn [map snd];
    rewrite IH; reflexivity.
Qed.

Lemma kept_rows_combine {A B : Type} (mask : list bool) (a : list A)
    (b : list B) :
  kept_rows mask (combine a b) =
  combine (kept_rows mask a) (kept_rows mask b).
Proof.
  revert a b. induction mask as [|m mask IH]; intros a b; [reflexivity|].
  destruct a as [|x a]; [reflexivity|].
  destruct b as [|y b].
  - change (kept_rows (m :: mask) (@nil B)) with (@nil B).
    rewrite !combine_nil. reflexivity.
  - unfold kept_rows in *. cbn [combine filter fst].
    destruct m; cbn [map snd combine]; rewrite <- IH; reflexivity.
Qed.

Lemma copy_rows_all {A : Type} (a : list A) :
  copy_rows (List.length a) a = Some a.
Proof.
  unfold copy_rows. rewrite Nat.leb_refl, firstn_all. reflexivity.
Qed.

End GraspFacts.

Section GraspTheorems.

Import Stdlib.Strings.String.
Import SocketNoise.
Import GraspPoses.
Import PoseTracker.

Local Open Scope nat_scope.

Lemma map2_second_length {A B : Type} (a : list A) (b : list B) :
  List.length a = List.length b ->
  map2 (fun (_ : A) (y : B) => y) a b = b.
Proof.
  revert b. induction a as [|x a IH]; intros [|y b] H;
    try (cbn in H; lia); [reflexivity|].
  cbn [map2]. rewrite IH by (cbn in H; lia). reflexivity.
Qed.

Lemma add_socket_quat_noise_length (randomize : Randomize)
    (from_euler : Qvec3 -> Qquat) (rand : nat -> Qvec3)
    (socket_quat : list Qquat) :
  List.length (add_socket_quat_noise randomize from_euler rand socket_quat)
  = List.length socket_quat.
Proof.
  unfold add_socket_quat_noise.
  destruct (socket_rot_euler_noise randomize) as [[s0 s1] s2].
  rewrite map2_second_length;
    rewrite !length_map, length_seq; reflexivity.
Qed.

Lemma add_socket_noise_length (randomize : Randomize) (table_height : Q)
    (rand_xy : nat -> Q * Q) (rand_z : nat -> Q) (socket_pos : list Qvec3) :
  List.length
    (add_socket_noise randomize table_height rand_xy rand_z socket_pos)
  = List.length socket_pos.
Proof.
  rewrite add_socket_noise_rows, length_map, length_seq. reflexivity.
Qed.

Lemma count_true_le (mask : list bool) : count_true mask <= List.length mask.
Proof. unfold count_true. apply filter_length_le. Qed.

Section Loaded.

Variable np_load : string -> option Npz.
Variable get_euler_xyz : Qquat -> R * R * R.
Variable randomize : Randomize.
Variable table_height : Q.
Variable from_euler : Qvec3 -> Qquat.
Variable rand_xy : nat -> Q * Q.
Variable rand_z : nat -> Q.
Variable rand_rot : nat -> Qvec3.

Let run := _initialize_grasp_poses np_load get_euler_xyz randomize
             table_height from_euler rand_xy rand_z rand_rot.

Lemma initialize_loaded (self : GraspTables) (subassembly : string)
    (pre_noise add_noise : bool) (npz : Npz) :
  np_load (grasp_file subassembly pre_noise) = Some npz ->
  well_formed npz ->
  let mask := valid_indices get_euler_xyz (plug_quat npz) in
  let noisy_pos :=
    if add_noise
    then add_socket_noise randomize table_height rand_xy rand_z
                          (socket_pos npz)
    else socket_pos npz in
  let noisy_quat :=
    if add_noise
    then add_socket_quat_noise randomize from_euler rand_rot
                               (socket_quat npz)
    else socket_quat npz in
  run self subassembly pre_noise add_noise =
  Some (mkGraspTables
          (dict_set (initial_grasp_poses self) subassembly npz)
          (dict_set (total_init_poses self) subassembly (count_true mask))
          (dict_set (init_socket_pos self) subassembly
                    (kept_rows mask noisy_pos))
          (dict_set (init_socket_quat self) subassembly
                    (kept_rows mask noisy_quat))
          (dict_set (init_plug_pos self) subassembly
                    (kept_rows mask (plug_pos npz)))
          (dict_set (init_plug_quat self) subassembly
                    (kept_rows mask (plug_quat npz)))
          (dict_set (init_dof_pos self) subassembly
                    (kept_rows mask (dof_pos npz)))).
Proof.
  intros Hload (H1 & H2 & H3 & H4) mask noisy_pos noisy_quat.
  unfold run, _initialize_grasp_poses.
  change ("initial_grasp_data/"
          ++ (if pre_noise then subassembly ++ "_noise" else subassembly)
          ++ ".npz")%string with (grasp_file subassembly pre_noise).
  rewrite Hload.
  fold mask. fold noisy_pos. fold noisy_quat.
  assert (Lm : List.length mask = List.length (plug_quat npz))
    by (unfold mask; rewrite valid_indices_rows; apply length_map).
  assert (Lp : List.length noisy_pos = List.length (plug_quat npz)).
  { unfold noisy_pos. destruct add_noise;
      rewrite ?add_socket_noise_length; exact H1. }
  assert (Lq : List.length noisy_quat = List.length (plug_quat npz)).
  { unfold noisy_quat. destruct add_noise;
      rewrite ?add_socket_quat_noise_length; exact H2. }
  rewrite !mask_select_kept by congruence.
  rewrite <- (kept_rows_length mask noisy_pos) at 1 by congruence.
  rewrite copy_rows_all.
  rewrite <- (kept_rows_length mask noisy_quat) at 1 by congruence.
  rewrite copy_rows_all.
  rewrite <- (kept_rows_length mask (plug_pos npz)) at 1 by congruence.
  rewrite copy_rows_all.
  rewrite <- (kept_rows_length mask (plug_quat npz)) at 1 by congruence.
  rewrite copy_rows_all.
  rewrite <- (kept_rows_length mask (dof_pos npz)) at 1 by congruence.
  rewrite copy_rows_all.
  reflexivity.
Qed.

Lemma initialize_not_loaded (self : GraspTables) (subassembly : string)
    (pre_noise add_noise : bool) :
  np_load (grasp_file subassembly pre_noise) = None ->
  run self subassembly pre_noise add_noise = Some self.
Proof.
  intros Hload. unfold run, _initialize_grasp_poses.
  change ("initial_grasp_data/"
          ++ (if pre_noise then subassembly ++ "_noise" else subassembly)
          ++ ".npz")%string with (grasp_file subassembly pre_noise).
  rewrite Hload. reflexivity.
Qed.

End Loaded.

End GraspTheorems.

Section GraspClaims.

Import Stdlib.Strings.String.
Import SocketNoise.
Import GraspPoses.
Import PoseTracker.

Local Open Scope nat_scope.

(** X26 ([_initialize_grasp_poses]).  The five arrays of a grasp file are
    filtered by one mask, computed from the plug quaternions alone: for a
    file that loads and holds one row per pose, the call stores under the
    subassembly the rows of each array (the socket arrays after the noise,
    if asked for) at the positions the mask keeps, so that rows of equal
    index still belong to one pose; all five have [total_init_poses] rows,
    at most as many as were loaded; and the entries of the other
    subassemblies are left as they were. *)
Theorem initialize_grasp_poses_filters :
  forall (np_load : string -> option Npz)
         (get_euler_xyz : Qquat -> R * R * R)
         (randomize : Randomize) (table_height : Q)
         (from_euler : Qvec3 -> Qquat)
         (rand_xy : nat -> Q * Q) (rand_z : nat -> Q) (rand_rot : nat -> Qvec3)
         (self : GraspTables) (subassembly : string)
         (pre_noise add_noise : bool) (npz : Npz),
    np_load (grasp_file subassembly pre_noise) = Some npz ->
    well_formed npz ->
    let mask := valid_indices get_euler_xyz (plug_quat npz) in
    let total := count_true mask in
    let noisy_pos :=
      if add_noise
      then add_socket_noise randomize table_height rand_xy rand_z
                            (socket_pos npz)
      else socket_pos npz in
    let noisy_quat :=
      if add_noise
      then add_socket_quat_noise randomize from_euler rand_rot
                                 (socket_quat npz)
      else socket_quat npz in
    exists self',
      _initialize_grasp_poses np_load get_euler_xyz randomize table_height
        from_euler rand_xy rand_z rand_rot self subassembly pre_noise
        add_noise = Some self' /\
      entries self' subassembly =
        (Some npz, Some total,
         Some (kept_rows mask noisy_pos),
         Some (kept_rows mask noisy_quat),
         Some (kept_rows mask (plug_pos npz)),
         Some (kept_rows mask (plug_quat npz)),
         Some (kept_rows mask (dof_pos npz))) /\
      (forall other, other <> subassembly ->
         entries self' other = entries self other) /\
      List.length mask = List.length (plug_quat npz) /\
      total <= List.length (plug_quat npz) /\
      List.length (kept_rows mask noisy_pos) = total /\
      List.length (kept_rows mask noisy_quat) = total /\
      List.length (kept_rows mask (plug_pos npz)) = total /\
      List.length (kept_rows mask (plug_quat npz)) = total /\
      List.length (kept_rows mask (dof_pos npz)) = total /\
      combine (kept_rows mask noisy_pos)
              (combine (kept_rows mask noisy_quat)
                 (combine (kept_rows mask (plug_pos npz))
                    (combine (kept_rows mask (plug_quat npz))
                             (kept_rows mask (dof_pos npz))))) =
      kept_rows mask
        (combine noisy_pos
           (combine noisy_quat
              (combine (plug_pos npz)
                 (combine (plug_quat npz) (dof_pos npz))))).
Proof.
  intros np_load get_euler_xyz randomize table_height from_euler rand_xy
         rand_z rand_rot self subassembly pre_noise add_noise npz Hload Hwf
         mask total noisy_pos noisy_quat.
  pose proof (initialize_loaded np_load get_euler_xyz randomize table_height
                from_euler rand_xy rand_z rand_rot self subassembly
                pre_noise add_noise npz Hload Hwf) as E.
  cbv zeta in E. fold mask noisy_pos noisy_quat in E.
  destruct Hwf as (H1 & H2 & H3 & H4).
  assert (Lm : List.length mask = List.length (plug_quat npz))
    by (unfold mask; rewrite valid_indices_rows; apply length_map).
  assert (Lp : List.length noisy_pos = List.length (plug_quat npz)).
  { unfold noisy_pos. destruct add_noise;
      rewrite ?add_socket_noise_length; exact H1. }
  assert (Lq : List.length noisy_quat = List.length (plug_quat npz)).
  { unfold noisy_quat. destruct add_noise;
      rewrite ?add_socket_quat_noise_length; exact H2. }
  eexists. split; [exact E|].
  split; [|split; [|split; [|split; [|split; [|split; [|split; [|split;
    [|split]]]]]]]].
  - unfold entries. cbn. rewrite !dict_set_same. reflexivity.
  - intros other Ho. unfold entries. cbn.
    rewrite !dict_set_other by (intros X; apply Ho; symmetry; exact X).
    reflexivity.
  - exact Lm.
  - unfold total. rewrite <- Lm. apply count_true_le.
  - apply kept_rows_length. congruence.
  - apply kept_rows_length. congruence.
  - apply kept_rows_length. congruence.
  - apply kept_rows_length. congruence.
  - apply kept_rows_length. congruence.
  - rewrite !kept_rows_combine. reflexivity.
Qed.

Lemma initialize_grasp_poses_filters_witness :
  let npz :=
    mkNpz [(0, 0, 0)%Q] [(0, 0, 0, 1)%Q] [(0, 0, 1)%Q] [(0, 0, 0, 1)%Q]
          [((0, 0, 0), (0, 0, 0), (0, 0, 0), (0, 0, 0), (0, 0, 0))%Q] in
  exists self',
    _initialize_grasp_poses (fun _ => Some npz) (fun _ => (0, 0, 0)%R)
      (mkRandomize (0, 0)%Q (0, 0)%Q (0, 0)%Q (0, 0, 0)%Q) 0%Q
      (fun q => (0, 0, 0, 1)%Q) (fun _ => (0, 0)%Q) (fun _ => 0%Q)
      (fun _ => (0, 0, 0)%Q) empty_tables "round_peg_hole_4mm" true false
    = Some self'.
Proof.
  intros npz.
  destruct (initialize_grasp_poses_filters (fun _ => Some npz)
              (fun _ => (0, 0, 0)%R)
              (mkRandomize (0, 0)%Q (0, 0)%Q (0, 0)%Q (0, 0, 0)%Q) 0%Q
              (fun q => (0, 0, 0, 1)%Q) (fun _ => (0, 0)%Q) (fun _ => 0%Q)
              (fun _ => (0, 0, 0)%Q) empty_tables "round_peg_hole_4mm"
              true false npz) as [self' [E _]].
  - reflexivity.
  - unfold well_formed. cbn. repeat split; reflexivity.
  - exists self'. exact E.
Defined.

Section AngleTest.

Local Open Scope R_scope.

Lemma angle_test (a : R) :
  Rgtb (Rabs (wrap_angle a)) max_ang = false <-> near_zero_angle a.
Proof.
  pose proof PI2_3_2 as HPI.
  unfold Rgtb, wrap_angle, near_zero_angle, max_ang.
  destruct (Rlt_dec PI a) as [Hw|Hw];
    unfold Rabs;
    match goal with |- context [Rcase_abs ?x] => destruct (Rcase_abs x) end;
    match goal with |- context [Rlt_dec ?x ?y] => destruct (Rlt_dec x y) end;
    split; intros H; try discriminate; try reflexivity; try lra.
Qed.

Lemma keeps_near_zero (get_euler_xyz : Qquat -> R * R * R) (q : Qquat) :
  keeps get_euler_xyz q = true <->
  near_zero_angle (fst (fst (get_euler_xyz q))) /\
  near_zero_angle (snd (fst (get_euler_xyz q))) /\
  near_zero_angle (snd (get_euler_xyz q)).
Proof.
  unfold keeps.
  destruct (get_euler_xyz q) as [[roll pitch] yaw]. cbn [fst snd].
  rewrite negb_true_iff, !orb_false_iff, !angle_test. tauto.
Qed.

(** X27 ([_initialize_grasp_poses]).  A grasp pose is kept exactly when
    each of its three Euler angles, as [get_euler_xyz] returns them, lies
    within 0.4 rad of zero or of a full turn: the mask has one entry per
    plug quaternion, and it holds if and only if roll, pitch and yaw each
    lie in [-0.4, 0.4] or in [2 pi - 0.4, 2 pi + 0.4]. *)
Theorem valid_indices_iff_angles_near_zero :
  forall (get_euler_xyz : Qquat -> R * R * R) (plug_quat : list Qquat),
    Forall2
      (fun (q : Qquat) (valid : bool) =>
         valid = true <->
         near_zero_angle (fst (fst (get_euler_xyz q))) /\
         near_zero_angle (snd (fst (get_euler_xyz q))) /\
         near_zero_angle (snd (get_euler_xyz q)))
      plug_quat (valid_indices get_euler_xyz plug_quat).
Proof.
  intros get_euler_xyz plug_quat. rewrite valid_indices_rows.
  induction plug_quat as [|q l IH]; cbn [map]; constructor.
  - apply keeps_near_zero.
  - exact IH.
Qed.

End AngleTest.

Section CreateEnvs.

Variable np_load : string -> option Npz.
Variable get_euler_xyz : Qquat -> R * R * R.
Variable randomize : Randomize.
Variable table_height : Q.
Variable from_euler : Qvec3 -> Qquat.
Variable rand_xy : nat -> Q * Q.
Variable rand_z : nat -> Q.
Variable rand_rot : nat -> Qvec3.

Let run_all := initialize_all np_load get_euler_xyz randomize table_height
                 from_euler rand_xy rand_z rand_rot.

Lemma entries_loaded (self : GraspTables) (subassembly : string)
    (npz : Npz) :
  let mask := valid_indices get_euler_xyz (plug_quat npz) in
  let self' :=
    mkGraspTables
      (dict_set (initial_grasp_poses self) subassembly npz)
      (dict_set (total_init_poses self) subassembly (count_true mask))
      (dict_set (init_socket_pos self) subassembly
                (kept_rows mask (socket_pos npz)))
      (dict_set (init_socket_quat self) subassembly
                (kept_rows mask (socket_quat npz)))
      (dict_set (init_plug_pos self) subassembly
                (kept_rows mask (plug_pos npz)))
      (dict_set (init_plug_quat self) subassembly
                (kept_rows mask (plug_quat npz)))
      (dict_set (init_dof_pos self) subassembly
                (kept_rows mask (dof_pos npz))) in
  entries self' subassembly = filtered_entries get_euler_xyz npz /\
  forall other, other <> subassembly ->
    entries self' other = entries self other.
Proof.
  cbv zeta. split.
  - unfold entries, filtered_entries. cbn. rewrite !dict_set_same.
    reflexivity.
  - intros other Ho. unfold entries. cbn.
    rewrite !dict_set_other by (intros X; apply Ho; symmetry; exact X).
    reflexivity.
Qed.

Lemma initialize_all_entries (desired : list string) (self : GraspTables) :
  (forall sub npz, In sub desired ->
     np_load (grasp_file sub true) = Some npz -> well_formed npz) ->
  exists self',
    run_all self desired = Some self' /\
    forall sub,
      entries self' sub =
      match (if in_dec string_dec sub desired
             then np_load (grasp_file sub true) else None) with
      | Some npz => filtered_entries get_euler_xyz npz
      | None => entries self sub
      end.
Proof.
  revert self. induction desired as [|d rest IH]; intros self Hwf.
  - exists self. split; [reflexivity|]. intros sub. reflexivity.
  - unfold run_all. cbn [initialize_all]. fold run_all.
    assert (Hrest : forall sub npz, In sub rest ->
              np_load (grasp_file sub true) = Some npz -> well_formed npz).
    { intros sub npz Hin. apply Hwf. right. exact Hin. }
    destruct (np_load (grasp_file d true)) as [npz|] eqn:Hd.
    + rewrite (initialize_loaded np_load get_euler_xyz randomize
                 table_height from_euler rand_xy rand_z rand_rot self d
                 true false npz Hd (Hwf d npz (or_introl eq_refl) Hd)).
      cbv zeta.
      destruct (entries_loaded self d npz) as [Esame Eother].
      cbv zeta in Esame, Eother.
      match goal with
      | |- context [run_all ?s rest] =>
          destruct (IH s Hrest) as [self' [Erun Hent]];
          set (self1 := s) in *
      end.
      exists self'. split; [exact Erun|].
      intros sub. rewrite (Hent sub).
      destruct (in_dec string_dec sub rest) as [Hin|Hnin].
      * destruct (in_dec string_dec sub (d :: rest)) as [_|N];
          [|exfalso; apply N; right; exact Hin].
        destruct (np_load (grasp_file sub true)) as [npz'|] eqn:Hs;
          [reflexivity|].
        apply Eother. intros X. subst sub. congruence.
      * destruct (string_dec sub d) as [->|Hne].
        -- destruct (in_dec string_dec d (d :: rest)) as [_|N];
             [|exfalso; apply N; left; reflexivity].
           rewrite Hd. exact Esame.
        -- destruct (in_dec string_dec sub (d :: rest)) as [[X|X]|_];
             [exfalso; apply Hne; symmetry; exact X | contradiction |].
           apply Eother. exact Hne.
    + rewrite (initialize_not_loaded np_load get_euler_xyz randomize
                 table_height from_euler rand_xy rand_z rand_rot self d
                 true false Hd).
      destruct (IH self Hrest) as [self' [Erun Hent]].
      exists self'. split; [exact Erun|].
      intros sub. rewrite (Hent sub).
      destruct (in_dec string_dec sub rest) as [Hin|Hnin].
      * destruct (in_dec string_dec sub (d :: rest)) as [_|N];
          [reflexivity | exfalso; apply N; right; exact Hin].
      * destruct (string_dec sub d) as [->|Hne].
        -- destruct (in_dec string_dec d (d :: rest)) as [_|N];
             [|exfalso; apply N; left; reflexivity].
           rewrite Hd. reflexivity.
        -- destruct (in_dec string_dec sub (d :: rest)) as [[X|X]|_];
             [exfalso; apply Hne; symmetry; exact X | contradiction |].
           reflexivity.
Qed.

End CreateEnvs.

(** X28 ([create_envs], [_initialize_grasp_poses]).  The loop over the
    desired subassemblies skips the files that do not load and never
    raises on well-formed files: afterwards a desired subassembly whose
    file loaded has its filtered rows in the seven dicts, and every other
    subassembly, in particular a desired one whose file could not be
    loaded, has no entry in any of them. *)
Theorem create_envs_skips_missing_files :
  forall (np_load : string -> option Npz)
         (get_euler_xyz : Qquat -> R * R * R)
         (randomize : Randomize) (table_height : Q)
         (from_euler : Qvec3 -> Qquat)
         (rand_xy : nat -> Q * Q) (rand_z : nat -> Q) (rand_rot : nat -> Qvec3)
         (desired_subassemblies : list string),
    (forall sub npz, In sub desired_subassemblies ->
       np_load (grasp_file sub true) = Some npz -> well_formed npz) ->
    exists self',
      initialize_all np_load get_euler_xyz randomize table_height from_euler
        rand_xy rand_z rand_rot empty_tables desired_subassemblies
      = Some self' /\
      forall sub,
        entries self' sub =
        match (if in_dec string_dec sub desired_subassemblies
               then np_load (grasp_file sub true) else None) with
        | Some npz => filtered_entries get_euler_xyz npz
        | None => no_entry
        end.
Proof.
  intros np_load get_euler_xyz randomize table_height from_euler rand_xy
         rand_z rand_rot desired Hwf.
  apply (initialize_all_entries np_load get_euler_xyz randomize table_height
           from_euler rand_xy rand_z rand_rot desired empty_tables Hwf).
Qed.

Lemma create_envs_skips_missing_files_witness :
  exists self',
    initialize_all (fun _ => None) (fun _ => (0, 0, 0)%R)
      (mkRandomize (0, 0)%Q (0, 0)%Q (0, 0)%Q (0, 0, 0)%Q) 0%Q
      (fun q => (0, 0, 0, 1)%Q) (fun _ => (0, 0)%Q) (fun _ => 0%Q)
      (fun _ => (0, 0, 0)%Q) empty_tables ["round_peg_hole_4mm"%string]
    = Some self' /\
    entries self' "round_peg_hole_4mm"%string = no_entry.
Proof.
  destruct (create_envs_skips_missing_files (fun _ => None)
              (fun _ => (0, 0, 0)%R)
              (mkRandomize (0, 0)%Q (0, 0)%Q (0, 0)%Q (0, 0, 0)%Q) 0%Q
              (fun q => (0, 0, 0, 1)%Q) (fun _ => (0, 0)%Q) (fun _ => 0%Q)
              (fun _ => (0, 0, 0)%Q) ["round_peg_hole_4mm"%string])
    as [self' [E H]].
  - intros sub npz _ X. discriminate X.
  - exists self'. split; [exact E|].
    rewrite (H "round_peg_hole_4mm"%string).
    destruct (in_dec string_dec "round_peg_hole_4mm"%string
                     ["round_peg_hole_4mm"%string]);
      reflexivity.
Defined.

End GraspClaims.

Section ActorFacts.

Import Stdlib.Strings.String.
Import Actors.

Local Open Scope nat_scope.

Lemma lookup_assign_same {V : Type} (d : sdict V) (k : string) (v : V) :
  lookup (assign d k v) k = Some v.
Proof.
  induction d as [|[k' v'] d IH]; cbn [assign lookup].
  - rewrite String.eqb_refl. reflexivity.
  - destruct (String.eqb k' k) eqn:E; cbn [lookup]; rewrite E;
      [reflexivity | exact IH].
Qed.

Lemma lookup_assign_other {V : Type} (d : sdict V) (k k' : string) (v : V) :
  k <> k' -> lookup (assign d k v) k' = lookup d k'.
Proof.
  intros H. induction d as [|[k0 v0] d IH]; cbn [assign lookup].
  - destruct (String.eqb k k') eqn:E; [|reflexivity].
    apply String.eqb_eq in E. contradiction.
  - destruct (String.eqb k0 k) eqn:E; cbn [lookup].
    + apply String.eqb_eq in E. subst k0.
      destruct (String.eqb k k') eqn:E'; [|reflexivity].
      apply String.eqb_eq in E'. contradiction.
    + destruct (String.eqb k0 k'); [reflexivity | exact IH].
Qed.

Section Loop.

Variable desired_subassemblies : list string.
Variable urdf_path : string -> string * string.
Variable compute_contact_gt pcl_cam : bool.
Variable num_points_goal : nat.
Variable num_envs : nat.
Variable randint : nat -> nat.
Variable load_mesh : string -> Mesh.
Variable rng_socket rng_obj : nat -> nat -> Draw.

Let step := create_actor desired_subassemblies urdf_path compute_contact_gt
              pcl_cam num_points_goal num_envs randint load_mesh rng_socket
              rng_obj.
Let loop := create_actors_from desired_subassemblies urdf_path
              compute_contact_gt pcl_cam num_points_goal num_envs randint
              load_mesh rng_socket rng_obj.
Let sub_of := subassembly_of desired_subassemblies randint.
Let group := envs_of desired_subassemblies randint.
Let estimator := new_estimator urdf_path num_points_goal num_envs load_mesh
                   rng_socket rng_obj.

Lemma loop_snoc (self : Bookkeeping) (envs : list nat) (i : nat) :
  loop self (envs ++ [i]) =
  match loop self envs with
  | Some self' => step self' i
  | None => None
  end.
Proof.
  revert self. induction envs as [|e envs IH]; intros self.
  - cbn. fold step. destruct (step self i); reflexivity.
  - cbn [app]. unfold loop. cbn [create_actors_from]. fold step. fold loop.
    destruct (step self e); [apply IH | reflexivity].
Qed.

Lemma group_S (k : string) (n : nat) :
  group k (S n) =
  group k n ++ (if String.eqb (sub_of n) k then [n] else []).
Proof.
  unfold group, envs_of. rewrite seq_S, filter_app. cbn [filter plus].
  fold sub_of. destruct (String.eqb (sub_of n) k); reflexivity.
Qed.

(** What holds of the variables after the first [n] iterations. *)
Let after (n : nat) (self : Bookkeeping) : Prop :=
  actor_count self = 4 * n /\
  kuka_actor_ids_sim self = map (fun i => 4 * i) (seq 0 n) /\
  plug_actor_ids_sim self = map (fun i => 4 * i + 1) (seq 0 n) /\
  socket_actor_ids_sim self = map (fun i => 4 * i + 2) (seq 0 n) /\
  table_actor_ids_sim self = map (fun i => 4 * i + 3) (seq 0 n) /\
  asset_indices self = map randint (seq 0 n) /\
  envs_asset self = map (fun i => (i, sub_of i)) (seq 0 n) /\
  (forall k, lookup (subassembly_to_env_ids self) k =
             match group k n with [] => None | ids => Some ids end) /\
  (forall k, lookup (subassembly_extrinsic_contact self) k =
             match group k n with
             | [] => None
             | first :: _ =>
                 if compute_contact_gt || pcl_cam
                 then Some (estimator k first) else None
             end).

Lemma step_after (n : nat) (self : Bookkeeping) :
  randint n < List.length desired_subassemblies ->
  after n self ->
  exists self', step self n = Some self' /\ after (S n) self'.
Proof.
  intros Hj (Hc & Hk & Hp & Hs & Ht & Ha & He & Hids & Hcache).
  unfold step, create_actor.
  assert (Hsub : nth_error desired_subassemblies (randint n) = Some (sub_of n)).
  { unfold sub_of, subassembly_of. apply nth_error_nth'. exact Hj. }
  rewrite Hsub.
  eexists. split; [reflexivity|].
  unfold after. cbn [actor_count kuka_actor_ids_sim plug_actor_ids_sim
    socket_actor_ids_sim table_actor_ids_sim asset_indices envs_asset
    subassembly_extrinsic_contact subassembly_to_env_ids].
  rewrite !seq_S, !map_app. cbn [map plus].
  rewrite Hc, Hk, Hp, Hs, Ht, Ha, He.
  split; [lia|].
  split; [reflexivity|].
  split; [f_equal; f_equal; lia|].
  split; [f_equal; f_equal; lia|].
  split; [f_equal; f_equal; lia|].
  split; [reflexivity|].
  split; [reflexivity|].
  split.
  - intros k. rewrite group_S.
    unfold has_key. rewrite (Hids (sub_of n)).
    destruct (group (sub_of n) n) as [|g0 gs] eqn:Eg; cbn [negb].
    + rewrite lookup_assign_same. cbn [app].
      destruct (String.eqb (sub_of n) k) eqn:Ek.
      * apply String.eqb_eq in Ek. subst k.
        rewrite lookup_assign_same, Eg. reflexivity.
      * assert (Hne : sub_of n <> k).
        { intros X. rewrite X, String.eqb_refl in Ek. discriminate. }
        rewrite !lookup_assign_other by exact Hne.
        rewrite Hids, app_nil_r. reflexivity.
    + rewrite (Hids (sub_of n)), Eg.
      destruct (String.eqb (sub_of n) k) eqn:Ek.
      * apply String.eqb_eq in Ek. subst k.
        rewrite lookup_assign_same, Eg. reflexivity.
      * assert (Hne : sub_of n <> k).
        { intros X. rewrite X, String.eqb_refl in Ek. discriminate. }
        rewrite lookup_assign_other by exact Hne.
        rewrite Hids, app_nil_r. reflexivity.
  - intros k. rewrite group_S.
    destruct (compute_contact_gt || pcl_cam) eqn:Eflag.
    + unfold has_key. rewrite (Hcache (sub_of n)).
      destruct (group (sub_of n) n) as [|g0 gs] eqn:Eg; cbn [negb].
      * destruct (String.eqb (sub_of n) k) eqn:Ek.
        -- apply String.eqb_eq in Ek. subst k.
           rewrite lookup_assign_same, Eg. reflexivity.
        -- assert (Hne : sub_of n <> k).
           { intros X. rewrite X, String.eqb_refl in Ek. discriminate. }
           rewrite lookup_assign_other by exact Hne.
           rewrite Hcache, app_nil_r. reflexivity.
      * rewrite Hcache.
        destruct (String.eqb (sub_of n) k) eqn:Ek.
        -- apply String.eqb_eq in Ek. subst k. rewrite Eg. reflexivity.
        -- rewrite app_nil_r. reflexivity.
    + rewrite Hcache.
      destruct (group k n) as [|g0 gs];
        destruct (String.eqb (sub_of n) k); reflexivity.
Qed.

Lemma loop_after (n : nat) :
  (forall i, i < n -> randint i < List.length desired_subassemblies) ->
  exists self, loop before_loop (seq 0 n) = Some self /\ after n self.
Proof.
  induction n as [|n IH]; intros Hj.
  - exists before_loop. split; [reflexivity|].
    unfold after. cbn. repeat split; reflexivity.
  - destruct IH as [self [El Ha]]; [intros i Hi; apply Hj; lia|].
    destruct (step_after n self (Hj n (Nat.lt_succ_diag_r n)) Ha)
      as [self' [Es Ha']].
    exists self'. split; [|exact Ha'].
    rewrite seq_S, loop_snoc, El. exact Es.
Qed.

End Loop.

End ActorFacts.

Section ActorTheorems.

Import Stdlib.Strings.String.
Import Actors.

Local Open Scope nat_scope.

(** X29 ([_create_actors]).  The actors are numbered four per environment,
    in the order robot, plug, socket, table: with at least one environment
    and every random index within the desired subassemblies, environment i
    gets the simulation-wide ids 4 i, 4 i + 1, 4 i + 2 and 4 i + 3,
    [num_actors] is 4, and [asset_indices] records the random index of each
    environment. *)
Theorem create_actors_actor_ids :
  forall (desired_subassemblies : list string)
         (urdf_path : string -> string * string)
         (compute_contact_gt pcl_cam : bool)
         (num_points_goal num_envs : nat) (randint : nat -> nat)
         (load_mesh : string -> Mesh) (rng_socket rng_obj : nat -> nat -> Draw),
    0 < num_envs ->
    (forall i, i < num_envs ->
       randint i < List.length desired_subassemblies) ->
    exists self,
      _create_actors desired_subassemblies urdf_path compute_contact_gt
        pcl_cam num_points_goal num_envs randint load_mesh rng_socket rng_obj
      = Some (self, 4) /\
      actor_count self = 4 * num_envs /\
      kuka_actor_ids_sim self = map (fun i => 4 * i) (seq 0 num_envs) /\
      plug_actor_ids_sim self = map (fun i => 4 * i + 1) (seq 0 num_envs) /\
      socket_actor_ids_sim self = map (fun i => 4 * i + 2) (seq 0 num_envs) /\
      table_actor_ids_sim self = map (fun i => 4 * i + 3) (seq 0 num_envs) /\
      asset_indices self = map randint (seq 0 num_envs).
Proof.
  intros desired urdf_path flag1 flag2 npg num_envs randint load_mesh
         rng_socket rng_obj Hn Hj.
  destruct (loop_after desired urdf_path flag1 flag2 npg num_envs randint
              load_mesh rng_socket rng_obj num_envs Hj)
    as [self [El (Hc & Hk & Hp & Hs & Ht & Ha & _)]].
  exists self. unfold _create_actors. rewrite El.
  assert (E0 : (num_envs =? 0) = false) by (apply Nat.eqb_neq; lia).
  rewrite E0, Hc.
  replace (4 * num_envs / num_envs) with 4
    by (symmetry; apply Nat.div_mul; lia).
  repeat split; assumption.
Qed.

Lemma create_actors_actor_ids_witness :
  exists self,
    _create_actors ["round_peg_hole_4mm"%string]
      (fun _ => ("plug"%string, "socket"%string)) true false 3 2
      (fun _ => 0) (fun _ => triangle) (fun _ => first_vertex)
      (fun _ => first_vertex) = Some (self, 4) /\
    plug_actor_ids_sim self = [1; 5].
Proof.
  destruct (create_actors_actor_ids ["round_peg_hole_4mm"%string]
              (fun _ => ("plug"%string, "socket"%string)) true false 3 2
              (fun _ => 0) (fun _ => triangle) (fun _ => first_vertex)
              (fun _ => first_vertex)) as [self [E [_ [_ [Hp _]]]]].
  - lia.
  - intros i _. cbn. lia.
  - exists self. split; [exact E | exact Hp].
Defined.

(** X30 ([_create_actors], [ExtrinsicContact.__init__]).  The environments
    are grouped by subassembly and each group shares one estimator:
    [subassembly_to_env_ids] maps every subassembly that was drawn to the
    increasing list of the environments that drew it, [envs_asset] maps
    environment i to its subassembly, and, when [compute_contact_gt] or
    [pcl_cam] is set, [subassembly_extrinsic_contact] holds for each such
    subassembly the estimator built in its first environment, otherwise
    nothing.  Every such estimator is built for all [num_envs]
    environments, with [num_points_goal] sample points, and without a
    scene. *)
Theorem create_actors_groups_environments :
  forall (desired_subassemblies : list string)
         (urdf_path : string -> string * string)
         (compute_contact_gt pcl_cam : bool)
         (num_points_goal num_envs : nat) (randint : nat -> nat)
         (load_mesh : string -> Mesh) (rng_socket rng_obj : nat -> nat -> Draw),
    0 < num_envs ->
    (forall i, i < num_envs ->
       randint i < List.length desired_subassemblies) ->
    let group := envs_of desired_subassemblies randint in
    let estimator :=
      new_estimator urdf_path num_points_goal num_envs load_mesh rng_socket
                    rng_obj in
    exists self num_actors,
      _create_actors desired_subassemblies urdf_path compute_contact_gt
        pcl_cam num_points_goal num_envs randint load_mesh rng_socket rng_obj
      = Some (self, num_actors) /\
      envs_asset self =
        map (fun i => (i, subassembly_of desired_subassemblies randint i))
            (seq 0 num_envs) /\
      (forall k,
          lookup (subassembly_to_env_ids self) k =
          match group k num_envs with [] => None | ids => Some ids end) /\
      (forall i, i < num_envs ->
          In i (group (subassembly_of desired_subassemblies randint i)
                      num_envs)) /\
      (forall k,
          lookup (subassembly_extrinsic_contact self) k =
          match group k num_envs with
          | [] => None
          | first :: _ =>
              if compute_contact_gt || pcl_cam
              then Some (estimator k first) else None
          end) /\
      (forall k i,
          socket (estimator k i) = None /\
          n_points (estimator k i) = num_points_goal /\
          Estimator.num_envs (estimator k i) = num_envs /\
          List.length (gt_extrinsic_contact (estimator k i)) = num_envs).
Proof.
  intros desired urdf_path flag1 flag2 npg num_envs randint load_mesh
         rng_socket rng_obj Hn Hj group estimator.
  destruct (loop_after desired urdf_path flag1 flag2 npg num_envs randint
              load_mesh rng_socket rng_obj num_envs Hj)
    as [self [El (Hc & _ & _ & _ & _ & _ & He & Hids & Hcache)]].
  exists self, (actor_count self / num_envs).
  split; [|split; [exact He | split; [exact Hids | split; [|split]]]].
  - unfold _create_actors. rewrite El.
    assert (E0 : (num_envs =? 0) = false) by (apply Nat.eqb_neq; lia).
    rewrite E0. reflexivity.
  - intros i Hi. unfold group, envs_of. apply filter_In. split.
    + apply in_seq. lia.
    + apply String.eqb_refl.
  - exact Hcache.
  - intros k i. unfold estimator, new_estimator, __init__.
    cbn [socket n_points Estimator.num_envs gt_extrinsic_contact].
    repeat split; try reflexivity. apply repeat_length.
Qed.

Lemma create_actors_groups_environments_witness :
  exists self num_actors,
    _create_actors ["round_peg_hole_4mm"%string]
      (fun _ => ("plug"%string, "socket"%string)) true false 3 2
      (fun _ => 0) (fun _ => triangle) (fun _ => first_vertex)
      (fun _ => first_vertex) = Some (self, num_actors) /\
    lookup (subassembly_to_env_ids self) "round_peg_hole_4mm"%string =
      Some [0; 1].
Proof.
  destruct (create_actors_groups_environments ["round_peg_hole_4mm"%string]
              (fun _ => ("plug"%string, "socket"%string)) true false 3 2
              (fun _ => 0) (fun _ => triangle) (fun _ => first_vertex)
              (fun _ => first_vertex)) as [self [n [E [_ [H _]]]]].
  - lia.
  - intros i _. cbn. lia.
  - exists self, n. split; [exact E|].
    rewrite (H "round_peg_hole_4mm"%string). reflexivity.
Defined.

End ActorTheorems.
